(** * openapi-merge: the merge engine

    A shallow embedding of [internal/merger] (merger.go, refs.go, helpers.go)
    and of the parts of [internal/config] it calls, together with the
    properties of the pipeline stages: operation filter, path rewriter,
    parameter injector/remover, conflict resolver, composite merger and
    output ordering.

    Conventions.
    - Go strings are byte strings: [string] of the Standard Library.
    - A Go [map[string]V] is a [gmap string V].  A [for k, v := range m]
      loop runs over the entries in an order chosen by the runtime; a loop
      is a [foldl] over an explicit list [order] of the entries, and the
      theorems hold for every [order] that is a permutation of the entries.
    - [*SchemaRef] objects are mutated in place through shared pointers
      ([updateSchemaRefRefs] writes their [Ref] field), so they live in a
      store; a pointer is a [loc], the nil pointer is [None].  The other
      nodes of a document are values. *)

From stdpp Require Import gmap strings list fin_maps pretty.

Set Default Proof Using "Type".

(** ** Strings *)

Definition HasPrefix (s prefix : string) : bool := String.prefix prefix s.

Fixpoint string_drop (n : nat) (s : string) : string :=
  match n, s with
  | O, _ => s
  | S n', String _ s' => string_drop n' s'
  | S _, EmptyString => EmptyString
  end.

(** [strings.TrimPrefix]: [s] without the leading [prefix], or [s] itself. *)
Definition TrimPrefix (s prefix : string) : string :=
  if HasPrefix s prefix then string_drop (String.length prefix) s else s.

Definition nonEmpty (s : string) : bool := negb (String.eqb s "").

(** [strings.ToUpper] on the ASCII range, which is all [removeOperation]
    applies it to. *)
Definition upper_ascii (c : Ascii.ascii) : Ascii.ascii :=
  let n := Ascii.nat_of_ascii c in
  if (97 <=? n) && (n <=? 122) then Ascii.ascii_of_nat (n - 32) else c.

Fixpoint ToUpper (s : string) : string :=
  match s with
  | EmptyString => EmptyString
  | String c s' => String (upper_ascii c) (ToUpper s')
  end.

(** ** Data model (kin-openapi's openapi3 types, the fields the merger uses) *)

(** Address of a [*SchemaRef] object. *)
Abbreviation loc := nat.

(** [openapi3.Schema]: the code never writes to a [Schema], so it is a value;
    its children are pointers to [SchemaRef] objects. *)
Record Schema := mkSchema {
  Schema_Type : option (list string);
  Schema_Format : string;
  Schema_Description : string;
  Schema_Items : option loc;
  Schema_Properties : list (string * option loc);
  Schema_AdditionalProperties : option loc;
  Schema_AllOf : list (option loc);
  Schema_OneOf : list (option loc);
  Schema_AnyOf : list (option loc);
  Schema_Not : option loc }.

(** [openapi3.SchemaRef]: a reference string and/or a value. *)
Record SchemaRef := mkSchemaRef {
  SchemaRef_Ref : string;
  SchemaRef_Value : option Schema }.

(** The store of [SchemaRef] objects. *)
Abbreviation heap := (gmap loc SchemaRef).

(** [openapi3.Parameter] *)
Record Param := mkParam {
  Param_Name : string;
  Param_In : string;
  Param_Description : string;
  Param_Required : bool;
  Param_Deprecated : bool;
  Param_AllowEmptyValue : bool;
  Param_Schema : option loc }.

Record ParameterRef := mkParameterRef {
  ParameterRef_Ref : string;
  ParameterRef_Value : option Param }.

Record MediaType := mkMediaType { MediaType_Schema : option loc }.

Record Header := mkHeader { Header_Schema : option loc }.

Record HeaderRef := mkHeaderRef {
  HeaderRef_Ref : string;
  HeaderRef_Value : option Header }.

Record RequestBody := mkRequestBody {
  RequestBody_Content : list (string * MediaType) }.

Record RequestBodyRef := mkRequestBodyRef {
  RequestBodyRef_Ref : string;
  RequestBodyRef_Value : option RequestBody }.

Record Response := mkResponse {
  Response_Headers : list (string * HeaderRef);
  Response_Content : list (string * MediaType) }.

Record ResponseRef := mkResponseRef {
  ResponseRef_Ref : string;
  ResponseRef_Value : option Response }.

(** [PathItem], [Operation] and [CallbackRef]: a callback holds path items
    again.  [nil] operations are [None]. *)
Inductive PathItem := mkPathItem {
  PathItem_Get : option Operation;
  PathItem_Post : option Operation;
  PathItem_Put : option Operation;
  PathItem_Delete : option Operation;
  PathItem_Patch : option Operation;
  PathItem_Head : option Operation;
  PathItem_Options : option Operation;
  PathItem_Trace : option Operation;
  PathItem_Parameters : list ParameterRef }
with Operation := mkOperation {
  Operation_Tags : list string;
  Operation_Parameters : list ParameterRef;
  Operation_RequestBody : option RequestBodyRef;
  Operation_Responses : list (string * ResponseRef);
  Operation_Callbacks : list (string * CallbackRef) }
with CallbackRef := mkCallbackRef {
  CallbackRef_Ref : string;
  CallbackRef_Value : option (list (string * PathItem)) }.

(** Component kinds the merger only copies: a reference and a payload. *)
Record OpaqueRef := mkOpaqueRef {
  OpaqueRef_Ref : string;
  OpaqueRef_Payload : string }.

Record Components := mkComponents {
  Components_Schemas : gmap string (option loc);
  Components_Parameters : gmap string ParameterRef;
  Components_Headers : gmap string HeaderRef;
  Components_RequestBodies : gmap string RequestBodyRef;
  Components_Responses : gmap string ResponseRef;
  Components_SecuritySchemes : gmap string OpaqueRef;
  Components_Examples : gmap string OpaqueRef;
  Components_Links : gmap string OpaqueRef;
  Components_Callbacks : gmap string CallbackRef }.

Record Tag := mkTag { Tag_Name : string; Tag_Description : string }.

(** [openapi3.T], a document.  [Paths] and [Components] may be nil. *)
Record T := mkT {
  T_Paths : option (gmap string PathItem);
  T_Components : option Components;
  T_Tags : list Tag }.

Definition set_Paths (spec : T) (paths : option (gmap string PathItem)) : T :=
  {| T_Paths := paths; T_Components := T_Components spec; T_Tags := T_Tags spec |}.

Definition set_Components (spec : T) (c : option Components) : T :=
  {| T_Paths := T_Paths spec; T_Components := c; T_Tags := T_Tags spec |}.

Definition set_Tags (spec : T) (tags : list Tag) : T :=
  {| T_Paths := T_Paths spec; T_Components := T_Components spec; T_Tags := tags |}.

(** ** Configuration (internal/config) *)

Record DisputeConfig := mkDisputeConfig { Dispute_Prefix : string }.

Record PathModificationConfig := mkPathModificationConfig {
  StripStart : string;
  Prepend : string }.

Record PathFilter := mkPathFilter {
  PathFilter_Path : string;
  PathFilter_Method : string }.

Record OperationSelectionConfig := mkOperationSelectionConfig {
  IncludeTags : list string;
  ExcludeTags : list string;
  IncludePaths : list PathFilter;
  ExcludePaths : list PathFilter }.

Record ParamFilter := mkParamFilter {
  ParamFilter_Name : string;
  ParamFilter_In : string }.

(** The dynamically typed [Schema interface{}] of a [ParameterConfig]:
    a map (of which [convertToSchemaRef] reads three string entries) or
    any other value. *)
Inductive ConfigSchema :=
  | SchemaMap (type_ format description : option string)
  | SchemaOther.

Record ParameterConfig := mkParameterConfig {
  ParameterConfig_Name : string;
  ParameterConfig_In : string;
  ParameterConfig_Description : string;
  ParameterConfig_Required : bool;
  ParameterConfig_Deprecated : bool;
  ParameterConfig_AllowEmptyValue : bool;
  ParameterConfig_Schema : option ConfigSchema }.

Record InputConfig := mkInputConfig {
  InputFile : string;
  Dispute : option DisputeConfig;
  PathModification : option PathModificationConfig;
  OperationSelection : option OperationSelectionConfig;
  IncludeExtraParameters : list ParameterConfig;
  ExcludeParameters : list ParamFilter }.

(** A [range] over a map visits each entry once, in some order. *)
Definition range_of {V} (m : gmap string V) (order : list (string * V)) : Prop :=
  order ≡ₚ map_to_list m.

(** ** helpers.go *)

Definition getOperationsMap (pathItem : PathItem) : list (string * option Operation) :=
  [ ("GET", PathItem_Get pathItem);
    ("POST", PathItem_Post pathItem);
    ("PUT", PathItem_Put pathItem);
    ("DELETE", PathItem_Delete pathItem);
    ("PATCH", PathItem_Patch pathItem);
    ("HEAD", PathItem_Head pathItem);
    ("OPTIONS", PathItem_Options pathItem);
    ("TRACE", PathItem_Trace pathItem) ].

Definition removeOperation (p : PathItem) (method : string) : PathItem :=
  let m := ToUpper method in
  if String.eqb m "GET" then
    mkPathItem None (PathItem_Post p) (PathItem_Put p) (PathItem_Delete p)
      (PathItem_Patch p) (PathItem_Head p) (PathItem_Options p) (PathItem_Trace p)
      (PathItem_Parameters p)
  else if String.eqb m "POST" then
    mkPathItem (PathItem_Get p) None (PathItem_Put p) (PathItem_Delete p)
      (PathItem_Patch p) (PathItem_Head p) (PathItem_Options p) (PathItem_Trace p)
      (PathItem_Parameters p)
  else if String.eqb m "PUT" then
    mkPathItem (PathItem_Get p) (PathItem_Post p) None (PathItem_Delete p)
      (PathItem_Patch p) (PathItem_Head p) (PathItem_Options p) (PathItem_Trace p)
      (PathItem_Parameters p)
  else if String.eqb m "DELETE" then
    mkPathItem (PathItem_Get p) (PathItem_Post p) (PathItem_Put p) None
      (PathItem_Patch p) (PathItem_Head p) (PathItem_Options p) (PathItem_Trace p)
      (PathItem_Parameters p)
  else if String.eqb m "PATCH" then
    mkPathItem (PathItem_Get p) (PathItem_Post p) (PathItem_Put p) (PathItem_Delete p)
      None (PathItem_Head p) (PathItem_Options p) (PathItem_Trace p)
      (PathItem_Parameters p)
  else if String.eqb m "HEAD" then
    mkPathItem (PathItem_Get p) (PathItem_Post p) (PathItem_Put p) (PathItem_Delete p)
      (PathItem_Patch p) None (PathItem_Options p) (PathItem_Trace p)
      (PathItem_Parameters p)
  else if String.eqb m "OPTIONS" then
    mkPathItem (PathItem_Get p) (PathItem_Post p) (PathItem_Put p) (PathItem_Delete p)
      (PathItem_Patch p) (PathItem_Head p) None (PathItem_Trace p)
      (PathItem_Parameters p)
  else if String.eqb m "TRACE" then
    mkPathItem (PathItem_Get p) (PathItem_Post p) (PathItem_Put p) (PathItem_Delete p)
      (PathItem_Patch p) (PathItem_Head p) (PathItem_Options p) None
      (PathItem_Parameters p)
  else p.

Definition isNil {A} (o : option A) : bool :=
  match o with None => true | Some _ => false end.

Definition isPathItemEmpty (pathItem : PathItem) : bool :=
  isNil (PathItem_Get pathItem) &&
  isNil (PathItem_Post pathItem) &&
  isNil (PathItem_Put pathItem) &&
  isNil (PathItem_Delete pathItem) &&
  isNil (PathItem_Patch pathItem) &&
  isNil (PathItem_Head pathItem) &&
  isNil (PathItem_Options pathItem) &&
  isNil (PathItem_Trace pathItem).

(** The key under which two parameters count as the same: name and
    location, for a parameter that has a value. *)
Definition sameParam (a b : Param) : bool :=
  String.eqb (Param_Name a) (Param_Name b) && String.eqb (Param_In a) (Param_In b).

Definition pickOp (dest src : option Operation) : option Operation :=
  match src, dest with
  | Some o, None => Some o
  | _, _ => dest
  end.

(** The parameter loop of [mergePathItem]: [param] is appended unless an
    entry of [dest] (as grown so far) has the same name and location. *)
Definition mergeParam (destParams : list ParameterRef) (param : ParameterRef)
  : list ParameterRef :=
  let exists_ :=
    existsb (fun existingParam =>
      match ParameterRef_Value existingParam, ParameterRef_Value param with
      | Some e, Some v => sameParam e v
      | _, _ => false
      end) destParams in
  if exists_ then destParams else destParams ++ [param].

Definition mergePathItem (dest src : PathItem) : PathItem :=
  mkPathItem
    (pickOp (PathItem_Get dest) (PathItem_Get src))
    (pickOp (PathItem_Post dest) (PathItem_Post src))
    (pickOp (PathItem_Put dest) (PathItem_Put src))
    (pickOp (PathItem_Delete dest) (PathItem_Delete src))
    (pickOp (PathItem_Patch dest) (PathItem_Patch src))
    (pickOp (PathItem_Head dest) (PathItem_Head src))
    (pickOp (PathItem_Options dest) (PathItem_Options src))
    (pickOp (PathItem_Trace dest) (PathItem_Trace src))
    (foldl mergeParam (PathItem_Parameters dest) (PathItem_Parameters src)).

(** ** merger.go: the per-document stages *)

Section Merger.

(** Library functions the merger calls and this development leaves
    uninterpreted: [strings.EqualFold] and [glob.Compile] of gobwas/glob
    ([None] is a compile error, [Some g] a matcher). *)
Variable EqualFold : string -> string -> bool.
Variable glob_Compile : string -> option (string -> bool).

Definition matchGlob (pattern path : string) : bool :=
  if String.eqb pattern path then true
  else match glob_Compile pattern with
       | None => String.eqb pattern path
       | Some g => g path
       end.

Definition matchPathFilter (path method : string) (filter : PathFilter) : bool :=
  if nonEmpty (PathFilter_Method filter)
     && negb (EqualFold method (PathFilter_Method filter))
  then false
  else matchGlob (PathFilter_Path filter) path.

Definition hasLen {A} (l : list A) : bool :=
  match l with [] => false | _ :: _ => true end.

Definition shouldIncludeOperation (path method : string) (op : Operation)
    (sel : OperationSelectionConfig) : bool :=
  if hasLen (IncludeTags sel)
     && negb (existsb (fun opTag => existsb (String.eqb opTag) (IncludeTags sel))
                (Operation_Tags op))
  then false
  else if hasLen (ExcludeTags sel)
     && existsb (fun opTag => existsb (String.eqb opTag) (ExcludeTags sel))
          (Operation_Tags op)
  then false
  else if hasLen (IncludePaths sel)
     && negb (existsb (matchPathFilter path method) (IncludePaths sel))
  then false
  else if hasLen (ExcludePaths sel)
     && existsb (matchPathFilter path method) (ExcludePaths sel)
  then false
  else true.

(** The inner loop of [filterOperations] over one entry of the map built by
    [getOperationsMap]. *)
Definition filterStep (sel : OperationSelectionConfig) (path : string)
    (pathItem : PathItem) (entry : string * option Operation) : PathItem :=
  match entry.2 with
  | None => pathItem
  | Some op =>
      if shouldIncludeOperation path entry.1 op sel then pathItem
      else removeOperation pathItem entry.1
  end.

(** The operations of one path item after the inner loop run over the
    entries [ops]. *)
Definition filterPathItemOver (sel : OperationSelectionConfig) (path : string)
    (pathItem : PathItem) (ops : list (string * option Operation)) : PathItem :=
  foldl (filterStep sel path) pathItem ops.

Definition filterPathItem (sel : OperationSelectionConfig) (path : string)
    (pathItem : PathItem) : PathItem :=
  filterPathItemOver sel path pathItem (getOperationsMap pathItem).

(** The outer loop: the path item is written in place, and the path is
    queued for removal when it is left empty. *)
Definition filterLoopStep (sel : OperationSelectionConfig)
    (acc : gmap string PathItem * list string) (entry : string * PathItem)
    : gmap string PathItem * list string :=
  let pathItem := filterPathItem sel entry.1 entry.2 in
  (<[entry.1 := pathItem]> acc.1,
   if isPathItemEmpty pathItem then acc.2 ++ [entry.1] else acc.2).

Definition deletePaths (paths : gmap string PathItem) (pathsToRemove : list string)
    : gmap string PathItem :=
  foldl (fun ps path => delete path ps) paths pathsToRemove.

Definition filterOperations (spec : T) (input : InputConfig)
    (order : list (string * PathItem)) : T :=
  match OperationSelection input with
  | None => spec
  | Some sel =>
      match T_Paths spec with
      | None => spec
      | Some paths =>
          let r := foldl (filterLoopStep sel) (paths, []) order in
          set_Paths spec (Some (deletePaths r.1 r.2))
      end
  end.

(** The body of the loop of [modifyPaths]: the new key of [path]. *)
Definition rewritePathKey (mod_ : PathModificationConfig) (path : string) : string :=
  let newPath := path in
  let newPath :=
    if nonEmpty (StripStart mod_) && HasPrefix newPath (StripStart mod_)
    then TrimPrefix newPath (StripStart mod_) else newPath in
  let newPath :=
    if nonEmpty (Prepend mod_) then Prepend mod_ +:+ newPath else newPath in
  if negb (HasPrefix newPath "/") then "/" +:+ newPath else newPath.

Definition modifyPathsLoop (mod_ : PathModificationConfig)
    (order : list (string * PathItem)) : gmap string PathItem :=
  foldl (fun newPaths entry => <[rewritePathKey mod_ entry.1 := entry.2]> newPaths)
    ∅ order.

Definition modifyPaths (spec : T) (input : InputConfig)
    (order : list (string * PathItem)) : T :=
  match PathModification input with
  | None => spec
  | Some mod_ =>
      match T_Paths spec with
      | None => spec
      | Some _ => set_Paths spec (Some (modifyPathsLoop mod_ order))
      end
  end.


(** ** merger.go: folding a document into the composite *)

(** [json.Marshal] of a non-nil [*SchemaRef] (the error is dropped by the
    caller), and the template-insensitive search [Paths.Find] falls back to
    when the key itself is absent ([Some k']: the key of the path item it
    returns): library code, left uninterpreted. *)
Variable marshalSchemaRef : heap -> loc -> string.
Variable Find_templated : gmap string PathItem -> string -> option string.

(** [Merger.master]: [Merge] creates it with non-nil paths and components. *)
Record Master := mkMaster {
  master_Paths : gmap string PathItem;
  master_Components : Components;
  master_Tags : list Tag }.

Inductive result (A : Type) :=
  | Ok (a : A)
  | Err (msg : string).
#[global] Arguments Ok {A} a.
#[global] Arguments Err {A} msg.

Definition refAt (h : heap) (l : loc) : string :=
  match h !! l with Some o => SchemaRef_Ref o | None => "" end.

Definition schemasEqual (h : heap) (a b : option loc) : bool :=
  match a, b with
  | None, None => true
  | None, Some _ => false
  | Some _, None => false
  | Some la, Some lb =>
      if nonEmpty (refAt h la) && nonEmpty (refAt h lb)
      then String.eqb (refAt h la) (refAt h lb)
      else String.eqb (marshalSchemaRef h la) (marshalSchemaRef h lb)
  end.

Definition hasDisputePrefix (input : InputConfig) : bool :=
  match Dispute input with
  | Some d => nonEmpty (Dispute_Prefix d)
  | None => false
  end.

Definition collisionError (name : string) : string :=
  "schema collision for '" +:+ name +:+ "' without dispute prefix".

(** The schema loop of [mergeComponents]; it returns at the first collision. *)
Fixpoint mergeSchemas (h : heap) (disputed : bool)
    (schemas : gmap string (option loc)) (order : list (string * option loc))
    : result (gmap string (option loc)) :=
  match order with
  | [] => Ok schemas
  | (name, schema) :: rest =>
      match schemas !! name with
      | Some existing =>
          if negb (schemasEqual h existing schema) && negb disputed
          then Err (collisionError name)
          else mergeSchemas h disputed schemas rest
      | None => mergeSchemas h disputed (<[name := schema]> schemas) rest
      end
  end.

(** The loop of every other component kind: first writer wins. *)
Definition mergeFirstWins {V} (dst : gmap string V) (order : list (string * V))
    : gmap string V :=
  foldl (fun m e => match m !! e.1 with Some _ => m | None => <[e.1 := e.2]> m end)
    dst order.

(** The orders in which one call of [mergeComponents] ranges over the maps
    of the incoming components. *)
Record ComponentsOrder := mkComponentsOrder {
  order_Schemas : list (string * option loc);
  order_Responses : list (string * ResponseRef);
  order_Parameters : list (string * ParameterRef);
  order_SecuritySchemes : list (string * OpaqueRef);
  order_RequestBodies : list (string * RequestBodyRef);
  order_Examples : list (string * OpaqueRef);
  order_Headers : list (string * HeaderRef);
  order_Links : list (string * OpaqueRef);
  order_Callbacks : list (string * CallbackRef) }.

Definition range_of_components (c : Components) (o : ComponentsOrder) : Prop :=
  range_of (Components_Schemas c) (order_Schemas o) /\
  range_of (Components_Responses c) (order_Responses o) /\
  range_of (Components_Parameters c) (order_Parameters o) /\
  range_of (Components_SecuritySchemes c) (order_SecuritySchemes o) /\
  range_of (Components_RequestBodies c) (order_RequestBodies o) /\
  range_of (Components_Examples c) (order_Examples o) /\
  range_of (Components_Headers c) (order_Headers o) /\
  range_of (Components_Links c) (order_Links o) /\
  range_of (Components_Callbacks c) (order_Callbacks o).

Definition mergeComponents (h : heap) (master : Components) (input : InputConfig)
    (o : ComponentsOrder) : result Components :=
  match mergeSchemas h (hasDisputePrefix input) (Components_Schemas master)
          (order_Schemas o) with
  | Err e => Err e
  | Ok schemas =>
      Ok {| Components_Schemas := schemas;
            Components_Responses :=
              mergeFirstWins (Components_Responses master) (order_Responses o);
            Components_Parameters :=
              mergeFirstWins (Components_Parameters master) (order_Parameters o);
            Components_SecuritySchemes :=
              mergeFirstWins (Components_SecuritySchemes master) (order_SecuritySchemes o);
            Components_RequestBodies :=
              mergeFirstWins (Components_RequestBodies master) (order_RequestBodies o);
            Components_Examples :=
              mergeFirstWins (Components_Examples master) (order_Examples o);
            Components_Headers :=
              mergeFirstWins (Components_Headers master) (order_Headers o);
            Components_Links :=
              mergeFirstWins (Components_Links master) (order_Links o);
            Components_Callbacks :=
              mergeFirstWins (Components_Callbacks master) (order_Callbacks o) |}
  end.

(** [Paths.Find]: the item under the key, else the item the templated
    search points at.  The result is a pointer into the map: the key it is
    stored under comes with it. *)
Definition Paths_Find (paths : gmap string PathItem) (key : string)
    : option (string * PathItem) :=
  match paths !! key with
  | Some item => Some (key, item)
  | None =>
      match Find_templated paths key with
      | Some k' => (fun item => (k', item)) <$> paths !! k'
      | None => None
      end
  end.

(** The body of the path loop of [mergeSpec]. *)
Definition mergePathStep (paths : gmap string PathItem) (entry : string * PathItem)
    : gmap string PathItem :=
  match Paths_Find paths entry.1 with
  | Some (k', existingPath) => <[k' := mergePathItem existingPath entry.2]> paths
  | None => <[entry.1 := entry.2]> paths
  end.

Definition mergePaths (paths : gmap string PathItem) (order : list (string * PathItem))
    : gmap string PathItem :=
  foldl mergePathStep paths order.

Definition hasTag (tags : list Tag) (name : string) : bool :=
  existsb (fun tag => String.eqb (Tag_Name tag) name) tags.

Definition mergeTags (tags : list Tag) (incoming : list Tag) : list Tag :=
  foldl (fun ts tag => if hasTag ts (Tag_Name tag) then ts else ts ++ [tag])
    tags incoming.

Definition mergeSpec (h : heap) (master : Master) (spec : T) (input : InputConfig)
    (pathOrder : list (string * PathItem)) (o : ComponentsOrder) : result Master :=
  let paths :=
    match T_Paths spec with
    | Some _ => mergePaths (master_Paths master) pathOrder
    | None => master_Paths master
    end in
  match
    match T_Components spec with
    | Some _ => mergeComponents h (master_Components master) input o
    | None => Ok (master_Components master)
    end
  with
  | Err e => Err e
  | Ok components =>
      Ok {| master_Paths := paths;
            master_Components := components;
            master_Tags := mergeTags (master_Tags master) (T_Tags spec) |}
  end.

(** The merge step of the loop of [Merge]: an error of [mergeSpec] ends the
    run, wrapped with the name of the input. *)
Definition mergeInput (h : heap) (master : Master) (spec : T) (input : InputConfig)
    (pathOrder : list (string * PathItem)) (o : ComponentsOrder) : result Master :=
  match mergeSpec h master spec input pathOrder o with
  | Err e => Err ("failed to merge " +:+ InputFile input +:+ ": " +:+ e)
  | Ok m => Ok m
  end.

(** ** config.go: parameters to inject *)

(** [&openapi3.SchemaRef{...}]: a new object at an unused address. *)
Definition alloc (o : SchemaRef) (h : heap) : loc * heap :=
  let l := fresh (dom h) in (l, <[l := o]> h).

(** The schema [{type: string}] with nothing else set. *)
Definition stringSchema : Schema :=
  mkSchema (Some ["string"]) "" "" None [] None [] [] [] None.

Definition convertToSchemaRef (schema : ConfigSchema) : SchemaRef :=
  match schema with
  | SchemaMap type_ format description =>
      mkSchemaRef ""
        (Some (mkSchema ((fun t => [t]) <$> type_) (default "" format)
                 (default "" description) None [] None [] [] [] None))
  | SchemaOther => mkSchemaRef "" (Some stringSchema)
  end.

(** The schema object [ToOpenAPI3Parameter] attaches to the parameter. *)
Definition schemaOfConfig (p : ParameterConfig) : SchemaRef :=
  match ParameterConfig_Schema p with
  | Some s => convertToSchemaRef s
  | None => mkSchemaRef "" (Some stringSchema)
  end.

Definition paramOfConfig (p : ParameterConfig) (schema : loc) : Param :=
  {| Param_Name := ParameterConfig_Name p;
     Param_In := ParameterConfig_In p;
     Param_Description := ParameterConfig_Description p;
     Param_Required := ParameterConfig_Required p;
     Param_Deprecated := ParameterConfig_Deprecated p;
     Param_AllowEmptyValue := ParameterConfig_AllowEmptyValue p;
     Param_Schema := Some schema |}.

Definition ToOpenAPI3Parameter (p : ParameterConfig) (h : heap) : Param * heap :=
  let r := alloc (schemaOfConfig p) h in
  (paramOfConfig p r.1, r.2).

(** ** merger.go: parameter injection and removal *)

(** One round of the injection loop of [modifyParameters]. *)
Definition injectParam (acc : list ParameterRef * heap) (paramCfg : ParameterConfig)
    : list ParameterRef * heap :=
  let r := ToOpenAPI3Parameter paramCfg acc.2 in
  let param := r.1 in
  let exists_ :=
    existsb (fun existingParam =>
      match ParameterRef_Value existingParam with
      | Some v => String.eqb (Param_Name v) (Param_Name param)
                  && String.eqb (Param_In v) (Param_In param)
      | None => false
      end) acc.1 in
  (if exists_ then acc.1 else acc.1 ++ [mkParameterRef "" (Some param)], r.2).

Definition isExcluded (filters : list ParamFilter) (param : Param) : bool :=
  existsb (fun filter =>
    String.eqb (ParamFilter_Name filter) (Param_Name param)
    && (negb (nonEmpty (ParamFilter_In filter))
        || String.eqb (ParamFilter_In filter) (Param_In param))) filters.

(** The removal loop: an entry without a value is kept. *)
Definition keptParam (filters : list ParamFilter) (paramRef : ParameterRef) : bool :=
  match ParameterRef_Value paramRef with
  | None => true
  | Some param => negb (isExcluded filters param)
  end.

Definition removeExcluded (filters : list ParamFilter) (params : list ParameterRef)
    : list ParameterRef :=
  filter (fun paramRef => keptParam filters paramRef = true) params.

Definition injectAll (input : InputConfig) (params : list ParameterRef) (h : heap)
    : list ParameterRef * heap :=
  if hasLen (IncludeExtraParameters input)
  then foldl injectParam (params, h) (IncludeExtraParameters input)
  else (params, h).

Definition removeAll (input : InputConfig) (params : list ParameterRef)
    : list ParameterRef :=
  if hasLen (ExcludeParameters input)
  then removeExcluded (ExcludeParameters input) params
  else params.

(** The body of the loop over the operations of a path item. *)
Definition modifyOperationParameters (input : InputConfig) (op : Operation) (h : heap)
    : Operation * heap :=
  let r := injectAll input (Operation_Parameters op) h in
  ({| Operation_Tags := Operation_Tags op;
      Operation_Parameters := removeAll input r.1;
      Operation_RequestBody := Operation_RequestBody op;
      Operation_Responses := Operation_Responses op;
      Operation_Callbacks := Operation_Callbacks op |}, r.2).

Definition modifyOptionalOperation (input : InputConfig) (o : option Operation)
    (h : heap) : option Operation * heap :=
  match o with
  | None => (None, h)
  | Some op => let r := modifyOperationParameters input op h in (Some r.1, r.2)
  end.

(** The operations of a path item are modified through their pointers, one
    method after the other; the order only decides the addresses of the
    schema objects created on the way. *)
Definition modifyPathItemParameters (input : InputConfig) (p : PathItem) (h : heap)
    : PathItem * heap :=
  let r1 := modifyOptionalOperation input (PathItem_Get p) h in
  let r2 := modifyOptionalOperation input (PathItem_Post p) r1.2 in
  let r3 := modifyOptionalOperation input (PathItem_Put p) r2.2 in
  let r4 := modifyOptionalOperation input (PathItem_Delete p) r3.2 in
  let r5 := modifyOptionalOperation input (PathItem_Patch p) r4.2 in
  let r6 := modifyOptionalOperation input (PathItem_Head p) r5.2 in
  let r7 := modifyOptionalOperation input (PathItem_Options p) r6.2 in
  let r8 := modifyOptionalOperation input (PathItem_Trace p) r7.2 in
  (mkPathItem r1.1 r2.1 r3.1 r4.1 r5.1 r6.1 r7.1 r8.1 (PathItem_Parameters p), r8.2).

Definition modifyParametersStep (input : InputConfig)
    (acc : gmap string PathItem * heap) (entry : string * PathItem)
    : gmap string PathItem * heap :=
  let r := modifyPathItemParameters input entry.2 acc.2 in
  (<[entry.1 := r.1]> acc.1, r.2).

Definition modifyParameters (spec : T) (input : InputConfig)
    (order : list (string * PathItem)) (h : heap) : T * heap :=
  match T_Paths spec with
  | None => (spec, h)
  | Some paths =>
      let r := foldl (modifyParametersStep input) (paths, h) order in
      (set_Paths spec (Some r.1), r.2)
  end.

(** ** merger.go: output ordering *)

Record Config := mkConfig {
  TagOrder : list string;
  PathsOrder : list string }.

(** The values of the [map[string]interface{}] that [createSortedSpec]
    decodes the composite into: the JSON image of a path item, or nil. *)
Inductive JSONValue :=
  | JNull
  | JPathItem (p : PathItem).

(** The inner loop of the sort in [sortPaths], for one [i]: [x] is the
    current [remainingPaths[i]], swapped with every later smaller entry. *)
Fixpoint swapPass (x : string) (rest : list string) : string * list string :=
  match rest with
  | [] => (x, [])
  | y :: rest' =>
      if String.ltb y x
      then let r := swapPass y rest' in (r.1, x :: r.2)
      else let r := swapPass x rest' in (r.1, y :: r.2)
  end.

(** The outer loop; [n] counts the positions still to fill. *)
Fixpoint exchangeSort (n : nat) (l : list string) : list string :=
  match n, l with
  | S n', x :: rest => let r := swapPass x rest in r.1 :: exchangeSort n' r.2
  | _, _ => l
  end.

(** The slice [sortedPaths] of [sortPaths]: for each priority path every
    equal key of [allPaths], then the other keys, sorted. *)
Definition sortedPathKeys (pathsOrder allPaths : list string) : list string :=
  let priority :=
    flat_map (fun priorityPath =>
                filter (fun path => path = priorityPath) allPaths) pathsOrder in
  let remainingPaths :=
    filter (fun path => existsb (String.eqb path) pathsOrder = false) allPaths in
  priority ++ exchangeSort (length remainingPaths) remainingPaths.

Definition mapIndex (paths : gmap string JSONValue) (path : string) : JSONValue :=
  match paths !! path with Some v => v | None => JNull end.

(** [sortPaths]: [allPaths] is the order in which the keys of [paths] are
    collected; the result [orderedPaths] is again a Go map. *)
Definition sortPaths (cfg : Config) (paths : gmap string JSONValue)
    (allPaths : list string) : gmap string JSONValue :=
  foldl (fun orderedPaths path => <[path := mapIndex paths path]> orderedPaths)
    ∅ (sortedPathKeys (PathsOrder cfg) allPaths).

(** [createSortedSpec], the paths of its result: the composite is encoded
    and decoded again, which leaves [m.master] as it is, and the decoded
    path map goes through [sortPaths]. *)
Definition createSortedSpec (cfg : Config) (master : Master) (allPaths : list string)
    : gmap string JSONValue :=
  sortPaths cfg (JPathItem <$> master_Paths master) allPaths.

(** encoding/json writes the entries of a map in the sorted order of the
    keys: the order of the path keys in the output file. *)
Fixpoint insertKey (k : string) (l : list string) : list string :=
  match l with
  | [] => [k]
  | x :: l' => if String.leb k x then k :: l else x :: insertKey k l'
  end.

Definition encodedKeys (m : gmap string JSONValue) : list string :=
  foldr insertKey [] (map_to_list m).*1.

(** ** refs.go: rewriting references *)

(** [if x.Ref != "" { if newRef, ok := renames[x.Ref]; ok { x.Ref = newRef } }] *)
Definition renameRef (renames : gmap string string) (ref : string) : string :=
  if nonEmpty ref
  then match renames !! ref with
       | Some newRef => newRef
       | None => ref
       end
  else ref.

(** A loop that threads the store through the elements of a slice or map. *)
Definition visitAll (f : option loc -> heap -> option heap)
    : list (option loc) -> heap -> option heap :=
  fix go l h :=
    match l with
    | [] => Some h
    | x :: l' => h' ← f x h; go l' h'
    end.

(** [updateSchemaRefRefs].  The Go function is recursive without a bound:
    [fuel] bounds the depth of the calls, and [None] says that the bound
    was hit.  A nil pointer returns at once; the [Ref] of the object is
    rewritten in the store before its value is entered. *)
Fixpoint updateSchemaRefRefs (fuel : nat) (renames : gmap string string)
    (schemaRef : option loc) (h : heap) {struct fuel} : option heap :=
  match schemaRef with
  | None => Some h
  | Some l =>
      match fuel with
      | O => None
      | S fuel' =>
          match h !! l with
          | None => Some h
          | Some o =>
              let h0 :=
                <[l := mkSchemaRef (renameRef renames (SchemaRef_Ref o))
                         (SchemaRef_Value o)]> h in
              match SchemaRef_Value o with
              | None => Some h0
              | Some schema =>
                  h1 ← updateSchemaRefRefs fuel' renames (Schema_Items schema) h0;
                  h2 ← visitAll (updateSchemaRefRefs fuel' renames)
                         (Schema_Properties schema).*2 h1;
                  h3 ← updateSchemaRefRefs fuel' renames
                         (Schema_AdditionalProperties schema) h2;
                  h4 ← visitAll (updateSchemaRefRefs fuel' renames)
                         (Schema_AllOf schema) h3;
                  h5 ← visitAll (updateSchemaRefRefs fuel' renames)
                         (Schema_OneOf schema) h4;
                  h6 ← visitAll (updateSchemaRefRefs fuel' renames)
                         (Schema_AnyOf schema) h5;
                  updateSchemaRefRefs fuel' renames (Schema_Not schema) h6
              end
          end
      end
  end.

(** A loop over a slice or map whose elements are rewritten in place. *)
Definition mapM {A B} (f : A -> heap -> option (B * heap))
    : list A -> heap -> option (list B * heap) :=
  fix go l h :=
    match l with
    | [] => Some ([], h)
    | x :: l' =>
        '(y, h1) ← f x h;
        '(ys, h2) ← go l' h1;
        Some (y :: ys, h2)
    end.

(** The same for a nil-able pointer. *)
Definition optM {A B} (f : A -> heap -> option (B * heap))
    (o : option A) (h : heap) : option (option B * heap) :=
  match o with
  | None => Some (None, h)
  | Some x => '(y, h1) ← f x h; Some (Some y, h1)
  end.

(** The same for the values of a map. *)
Definition valuesM {A B} (f : A -> heap -> option (B * heap))
    : list (string * A) -> heap -> option (list (string * B) * heap) :=
  mapM (fun kv h => '(y, h1) ← f kv.2 h; Some ((kv.1, y), h1)).

Definition updateParameterRefRefs (fuel : nat) (renames : gmap string string)
    (paramRef : ParameterRef) (h : heap) : option (ParameterRef * heap) :=
  let ref := renameRef renames (ParameterRef_Ref paramRef) in
  match ParameterRef_Value paramRef with
  | Some v =>
      h1 ← updateSchemaRefRefs fuel renames (Param_Schema v) h;
      Some (mkParameterRef ref (Some v), h1)
  | None => Some (mkParameterRef ref None, h)
  end.

Definition updateMediaTypeRefs (fuel : nat) (renames : gmap string string)
    (mediaType : MediaType) (h : heap) : option (MediaType * heap) :=
  h1 ← updateSchemaRefRefs fuel renames (MediaType_Schema mediaType) h;
  Some (mediaType, h1).

Definition updateRequestBodyRefRefs (fuel : nat) (renames : gmap string string)
    (bodyRef : RequestBodyRef) (h : heap) : option (RequestBodyRef * heap) :=
  let ref := renameRef renames (RequestBodyRef_Ref bodyRef) in
  match RequestBodyRef_Value bodyRef with
  | Some v =>
      '(content, h1) ← valuesM (updateMediaTypeRefs fuel renames)
                         (RequestBody_Content v) h;
      Some (mkRequestBodyRef ref (Some (mkRequestBody content)), h1)
  | None => Some (mkRequestBodyRef ref None, h)
  end.

Definition updateHeaderRefRefs (fuel : nat) (renames : gmap string string)
    (headerRef : HeaderRef) (h : heap) : option (HeaderRef * heap) :=
  let ref := renameRef renames (HeaderRef_Ref headerRef) in
  match HeaderRef_Value headerRef with
  | Some v =>
      h1 ← updateSchemaRefRefs fuel renames (Header_Schema v) h;
      Some (mkHeaderRef ref (Some v), h1)
  | None => Some (mkHeaderRef ref None, h)
  end.

Definition updateResponseRefRefs (fuel : nat) (renames : gmap string string)
    (respRef : ResponseRef) (h : heap) : option (ResponseRef * heap) :=
  let ref := renameRef renames (ResponseRef_Ref respRef) in
  match ResponseRef_Value respRef with
  | Some v =>
      '(content, h1) ← valuesM (updateMediaTypeRefs fuel renames)
                         (Response_Content v) h;
      '(headers, h2) ← valuesM (updateHeaderRefRefs fuel renames)
                         (Response_Headers v) h1;
      Some (mkResponseRef ref (Some (mkResponse headers content)), h2)
  | None => Some (mkResponseRef ref None, h)
  end.

(** [updatePathItemRefs], [updateOperationRefs] and [updateCallbackRefRefs]
    call each other along the document tree. *)
Fixpoint updatePathItemRefs (fuel : nat) (renames : gmap string string)
    (pathItem : PathItem) (h : heap) {struct pathItem} : option (PathItem * heap) :=
  match pathItem with
  | mkPathItem get post put delete patch head options trace parameters =>
      '(get', h1) ← optM (updateOperationRefs fuel renames) get h;
      '(post', h2) ← optM (updateOperationRefs fuel renames) post h1;
      '(put', h3) ← optM (updateOperationRefs fuel renames) put h2;
      '(delete', h4) ← optM (updateOperationRefs fuel renames) delete h3;
      '(patch', h5) ← optM (updateOperationRefs fuel renames) patch h4;
      '(head', h6) ← optM (updateOperationRefs fuel renames) head h5;
      '(options', h7) ← optM (updateOperationRefs fuel renames) options h6;
      '(trace', h8) ← optM (updateOperationRefs fuel renames) trace h7;
      '(parameters', h9) ← mapM (updateParameterRefRefs fuel renames) parameters h8;
      Some (mkPathItem get' post' put' delete' patch' head' options' trace'
              parameters', h9)
  end
with updateOperationRefs (fuel : nat) (renames : gmap string string)
    (op : Operation) (h : heap) {struct op} : option (Operation * heap) :=
  match op with
  | mkOperation tags parameters requestBody responses callbacks =>
      '(parameters', h1) ← mapM (updateParameterRefRefs fuel renames) parameters h;
      '(requestBody', h2) ← optM (updateRequestBodyRefRefs fuel renames) requestBody h1;
      '(responses', h3) ← valuesM (updateResponseRefRefs fuel renames) responses h2;
      '(callbacks', h4) ← valuesM (updateCallbackRefRefs fuel renames) callbacks h3;
      Some (mkOperation tags parameters' requestBody' responses' callbacks', h4)
  end
with updateCallbackRefRefs (fuel : nat) (renames : gmap string string)
    (callbackRef : CallbackRef) (h : heap) {struct callbackRef}
    : option (CallbackRef * heap) :=
  match callbackRef with
  | mkCallbackRef ref value =>
      match value with
      | None => Some (mkCallbackRef (renameRef renames ref) None, h)
      | Some items =>
          '(items', h1) ← valuesM (updatePathItemRefs fuel renames) items h;
          Some (mkCallbackRef (renameRef renames ref) (Some items'), h1)
      end
  end.

(** A [range] over a map whose values are rewritten in place. *)
Definition rangeM {A} (f : A -> heap -> option (A * heap))
    (m : gmap string A) (order : list (string * A)) (h : heap)
    : option (gmap string A * heap) :=
  '(kvs, h1) ← valuesM f order h;
  Some (foldl (fun acc kv => <[kv.1 := kv.2]> acc) m kvs, h1).

Definition updateComponentsRefs (fuel : nat) (renames : gmap string string)
    (components : Components) (o : ComponentsOrder) (h : heap)
    : option (Components * heap) :=
  h1 ← visitAll (updateSchemaRefRefs fuel renames) (order_Schemas o).*2 h;
  '(parameters, h2) ← rangeM (updateParameterRefRefs fuel renames)
                        (Components_Parameters components) (order_Parameters o) h1;
  '(responses, h3) ← rangeM (updateResponseRefRefs fuel renames)
                       (Components_Responses components) (order_Responses o) h2;
  '(requestBodies, h4) ← rangeM (updateRequestBodyRefRefs fuel renames)
                           (Components_RequestBodies components)
                           (order_RequestBodies o) h3;
  '(headers, h5) ← rangeM (updateHeaderRefRefs fuel renames)
                     (Components_Headers components) (order_Headers o) h4;
  '(callbacks, h6) ← rangeM (updateCallbackRefRefs fuel renames)
                       (Components_Callbacks components) (order_Callbacks o) h5;
  Some ({| Components_Schemas := Components_Schemas components;
           Components_Parameters := parameters;
           Components_Headers := headers;
           Components_RequestBodies := requestBodies;
           Components_Responses := responses;
           Components_SecuritySchemes := Components_SecuritySchemes components;
           Components_Examples := Components_Examples components;
           Components_Links := Components_Links components;
           Components_Callbacks := callbacks |}, h6).

Definition updateRefs (fuel : nat) (renames : gmap string string) (spec : T)
    (pathOrder : list (string * PathItem)) (o : ComponentsOrder) (h : heap)
    : option (T * heap) :=
  if Nat.eqb (size renames) 0 then Some (spec, h)
  else
    '(paths, h1) ←
      match T_Paths spec with
      | Some paths =>
          '(paths', h1) ← rangeM (updatePathItemRefs fuel renames) paths pathOrder h;
          Some (Some paths', h1)
      | None => Some (None, h)
      end;
    '(components, h2) ←
      match T_Components spec with
      | Some components =>
          '(components', h2) ← updateComponentsRefs fuel renames components o h1;
          Some (Some components', h2)
      | None => Some (None, h1)
      end;
    Some ({| T_Paths := paths; T_Components := components; T_Tags := T_Tags spec |}, h2).

(** ** merger.go: the conflict resolver *)

(** One of the renaming loops of [applyDisputePrefix]: the components of a
    kind move to their prefixed names, and the rename map learns the
    reference of each. *)
Definition renameKind {V} (refPrefix prefix : string) (m : gmap string V)
    (order : list (string * V)) (renames : gmap string string)
    : gmap string V * gmap string string :=
  if Nat.eqb (size m) 0 then (m, renames)
  else
    foldl (fun acc e =>
             let newName := prefix +:+ e.1 in
             (<[newName := e.2]> acc.1,
              <[refPrefix +:+ e.1 := refPrefix +:+ newName]> acc.2))
      (∅, renames) order.

(** The loop for schemas also maps the reference form of the previous
    format. *)
Definition renameSchemas (prefix : string) (m : gmap string (option loc))
    (order : list (string * option loc)) (renames : gmap string string)
    : gmap string (option loc) * gmap string string :=
  if Nat.eqb (size m) 0 then (m, renames)
  else
    foldl (fun acc e =>
             let newName := prefix +:+ e.1 in
             (<[newName := e.2]> acc.1,
              <["#/definitions/" +:+ e.1 := "#/components/schemas/" +:+ newName]>
                (<["#/components/schemas/" +:+ e.1
                   := "#/components/schemas/" +:+ newName]> acc.2)))
      (∅, renames) order.

(** The components and the rename map after the five renaming loops;
    [o] gives the order of each loop. *)
Definition renameComponents (prefix : string) (c : Components) (o : ComponentsOrder)
    : Components * gmap string string :=
  let r1 := renameSchemas prefix (Components_Schemas c) (order_Schemas o) ∅ in
  let r2 := renameKind "#/components/responses/" prefix
              (Components_Responses c) (order_Responses o) r1.2 in
  let r3 := renameKind "#/components/parameters/" prefix
              (Components_Parameters c) (order_Parameters o) r2.2 in
  let r4 := renameKind "#/components/securitySchemes/" prefix
              (Components_SecuritySchemes c) (order_SecuritySchemes o) r3.2 in
  let r5 := renameKind "#/components/requestBodies/" prefix
              (Components_RequestBodies c) (order_RequestBodies o) r4.2 in
  ({| Components_Schemas := r1.1;
      Components_Parameters := r3.1;
      Components_Headers := Components_Headers c;
      Components_RequestBodies := r5.1;
      Components_Responses := r2.1;
      Components_SecuritySchemes := r4.1;
      Components_Examples := Components_Examples c;
      Components_Links := Components_Links c;
      Components_Callbacks := Components_Callbacks c |}, r5.2).

(** [applyDisputePrefix]: [renameOrder] is the order of the renaming loops,
    [pathOrder] and [refsOrder] the orders in which [updateRefs] ranges
    over the paths and over the renamed components. *)
Definition applyDisputePrefix (fuel : nat) (spec : T) (prefix : string)
    (renameOrder : ComponentsOrder) (pathOrder : list (string * PathItem))
    (refsOrder : ComponentsOrder) (h : heap) : option (T * heap) :=
  match T_Components spec with
  | None => Some (spec, h)
  | Some components =>
      let r := renameComponents prefix components renameOrder in
      updateRefs fuel r.2 (set_Components spec (Some r.1)) pathOrder refsOrder h
  end.

(** ** Sample documents *)

Definition emptyOperation : Operation := mkOperation [] [] None [] [].

Definition emptyPathItem : PathItem :=
  mkPathItem None None None None None None None None [].

Definition opTagged (tag : string) : Operation := mkOperation [tag] [] None [] [].

Definition itemGet (op : Operation) : PathItem :=
  mkPathItem (Some op) None None None None None None None [].

Definition itemPost (op : Operation) : PathItem :=
  mkPathItem None (Some op) None None None None None None [].

Definition stripV1 : PathModificationConfig :=
  {| StripStart := "/v1"; Prepend := "" |}.

Definition inputOf (pm : option PathModificationConfig)
    (sel : option OperationSelectionConfig) : InputConfig :=
  mkInputConfig "spec.json" None pm sel [] [].

(** Two paths that differ only by the prefix a [stripStart] removes. *)
Definition twoUsersPaths : gmap string PathItem :=
  <["/v1/users" := itemGet (opTagged "v1")]>
    (<["/users" := itemPost (opTagged "plain")]> ∅).

Definition twoUsersSpec : T := mkT (Some twoUsersPaths) None [].

Definition emptyComponents : Components :=
  mkComponents ∅ ∅ ∅ ∅ ∅ ∅ ∅ ∅ ∅.

Definition emptyOrder : ComponentsOrder :=
  mkComponentsOrder [] [] [] [] [] [] [] [] [].

Definition plainInput : InputConfig := mkInputConfig "spec.json" None None None [] [].

(** A composite that holds [/users] with POST, and a document that brings
    [/users] with GET. *)
Definition usersPostMaster : Master :=
  mkMaster {[ "/users" := itemPost (opTagged "create") ]} emptyComponents [].

Definition usersGetSpec : T :=
  mkT (Some {[ "/users" := itemGet (opTagged "list") ]}) None [].

(** A composite with the paths [/a] and [/b], and a configuration that
    asks for [/b] first. *)
Definition abMaster : Master :=
  mkMaster (<["/a" := itemGet (opTagged "a")]> {[ "/b" := itemGet (opTagged "b") ]})
    emptyComponents [].

Definition bFirst : Config := mkConfig [] ["/b"].
Definition noOrder : Config := mkConfig [] [].

Definition schemasOnly (schemas : gmap string (option loc)) : Components :=
  mkComponents schemas ∅ ∅ ∅ ∅ ∅ ∅ ∅ ∅.

(** Four schema objects that are references; the last two are equal. *)
Definition refHeap : heap :=
  <[1 := mkSchemaRef "#/components/schemas/Person" None]>
    (<[2 := mkSchemaRef "#/components/schemas/Account" None]>
       (<[3 := mkSchemaRef "#/components/schemas/Animal" None]>
          (<[4 := mkSchemaRef "#/components/schemas/Animal" None]> ∅))).

(** A composite with [User] and [Pet]; a document whose [User] differs and
    whose [Pet] is equal; a document in which both differ. *)
Definition userPetMaster : Master :=
  mkMaster ∅ (schemasOnly (<["User" := Some 1]> {[ "Pet" := Some 3 ]})) [].

Definition userPetComponents : Components :=
  schemasOnly (<["User" := Some 2]> {[ "Pet" := Some 4 ]}).

Definition userPetSpec : T := mkT None (Some userPetComponents) [].

Definition bothDifferComponents : Components :=
  schemasOnly (<["User" := Some 2]> {[ "Pet" := Some 2 ]}).

Definition bothDifferSpec : T := mkT None (Some bothDifferComponents) [].

(** Stand-ins for the library functions, for the documents above and
    below: their schemas are compared by reference string, their paths are
    found by exact key, and their filters have no glob pattern. *)
Definition noMarshal : heap -> loc -> string := fun _ _ => "".
Definition noTemplated : gmap string PathItem -> string -> option string :=
  fun _ _ => None.
Definition asciiEqualFold : string -> string -> bool :=
  fun a b => String.eqb (ToUpper a) (ToUpper b).
Definition noGlob : string -> option (string -> bool) := fun _ => None.

(** A stand-in for the templated search of kin-openapi: two keys name the
    same path when they are equal once the names of their path variables
    are erased, and the search returns the first such key of the map. *)
Fixpoint eraseVariables (inVariable : bool) (s : string) : string :=
  match s with
  | EmptyString => EmptyString
  | String c s' =>
      let c1 := String c EmptyString in
      if inVariable
      then if String.eqb c1 "}" then String c (eraseVariables false s')
           else eraseVariables true s'
      else String c (eraseVariables (String.eqb c1 "{") s')
  end.

Definition templatedSearch (m : gmap string PathItem) (key : string) : option string :=
  snd <$> list_find (fun k => eraseVariables false k = eraseVariables false key)
            (map_to_list m).*1.

(** The document of the operation-selection test: [/users] tagged
    [Users], [/admin] tagged [Admin], and the tag [Admin] excluded. *)
Definition adminPaths : gmap string PathItem :=
  <["/users" := itemGet (opTagged "Users")]>
    {[ "/admin" := itemGet (opTagged "Admin") ]}.

Definition adminSpec : T := mkT (Some adminPaths) None [].

Definition excludeAdmin : OperationSelectionConfig :=
  mkOperationSelectionConfig [] ["Admin"] [] [].

Definition adminInput : InputConfig := inputOf None (Some excludeAdmin).

(** An operation with the parameter [limit], an input that injects
    [X-Tenant] and [debug] and removes [debug]. *)
Definition limitParam : ParameterRef :=
  mkParameterRef "" (Some (mkParam "limit" "query" "" false false false None)).

Definition itemsOperation : Operation := mkOperation [] [limitParam] None [] [].

Definition itemsPaths : gmap string PathItem :=
  {[ "/items" := itemGet itemsOperation ]}.

Definition itemsSpec : T := mkT (Some itemsPaths) None [].

Definition tenantInput : InputConfig :=
  mkInputConfig "spec.json" None None None
    [ mkParameterConfig "X-Tenant" "header" "tenant" true false false None;
      mkParameterConfig "debug" "query" "" false false false None ]
    [ mkParamFilter "debug" "" ].

(** The second document of the dispute-prefix test: the response of
    [/other-items] refers to the schema [Item], and the loader has resolved
    the reference to the value of the component. *)
Definition itemSchema : Schema :=
  mkSchema (Some ["object"]) "" "" None [("name", Some 2)] None [] [] [] None.

Definition itemHeap : heap :=
  <[1 := mkSchemaRef "" (Some itemSchema)]>
    (<[2 := mkSchemaRef "" (Some stringSchema)]>
       (<[3 := mkSchemaRef "#/components/schemas/Item" (Some itemSchema)]> ∅)).

Definition jsonResponse (schema : loc) : ResponseRef :=
  mkResponseRef ""
    (Some (mkResponse [] [("application/json", mkMediaType (Some schema))])).

Definition itemComponents : Components := schemasOnly {[ "Item" := Some 1 ]}.

Definition itemPaths : gmap string PathItem :=
  {[ "/other-items" :=
       itemGet (mkOperation [] [] None [("200", jsonResponse 3)] []) ]}.

Definition itemSpec : T := mkT (Some itemPaths) (Some itemComponents) [].

(** A document with the schemas [B], [AB] and [C], to be prefixed with
    [A].  [C] has a property that refers to [B] (object 4); the response of
    [/c] refers to [C] (object 5, resolved to the value of [C], so that it
    shares object 4); the parameter of the operation refers to [B]
    (object 6). *)
Definition cSchema : Schema :=
  mkSchema (Some ["object"]) "" "" None [("b", Some 4)] None [] [] [] None.

Definition chainHeap : heap :=
  <[1 := mkSchemaRef "" (Some stringSchema)]>
    (<[2 := mkSchemaRef "" (Some stringSchema)]>
       (<[3 := mkSchemaRef "" (Some cSchema)]>
          (<[4 := mkSchemaRef "#/components/schemas/B" (Some stringSchema)]>
             (<[5 := mkSchemaRef "#/components/schemas/C" (Some cSchema)]>
                (<[6 := mkSchemaRef "#/components/schemas/B" (Some stringSchema)]> ∅))))).

Definition chainComponents : Components :=
  schemasOnly (<["B" := Some 1]> (<["AB" := Some 2]> {[ "C" := Some 3 ]})).

Definition chainPaths : gmap string PathItem :=
  {[ "/c" :=
       itemGet
         (mkOperation []
            [mkParameterRef ""
               (Some (mkParam "b" "query" "" false false false (Some 6)))]
            None [("200", jsonResponse 5)] []) ]}.

Definition chainSpec : T := mkT (Some chainPaths) (Some chainComponents) [].

(** ** The schema object graph *)

(** The pointers [updateSchemaRefRefs] follows out of a schema, in the
    order it follows them. *)
Definition schemaChildren (s : Schema) : list (option loc) :=
  Schema_Items s :: (Schema_Properties s).*2
    ++ Schema_AdditionalProperties s :: Schema_AllOf s
    ++ Schema_OneOf s ++ Schema_AnyOf s ++ [Schema_Not s].

Definition children (o : SchemaRef) : list (option loc) :=
  match SchemaRef_Value o with
  | Some s => schemaChildren s
  | None => []
  end.

(** [q] is one of the objects the object at [p] points to through items,
    properties, additionalProperties, allOf, oneOf, anyOf or not. *)
Definition edge (h : heap) (p q : loc) : Prop :=
  exists o, h !! p = Some o /\ Some q ∈ children o.

(** No object is reachable from itself. *)
Definition acyclic (h : heap) : Prop := forall p, ~ tc (edge h) p p.

(** [q] is reachable from one of the pointers [roots]. *)
Definition reachable (h : heap) (roots : list (option loc)) (q : loc) : Prop :=
  exists r, Some r ∈ roots /\ rtc (edge h) r q.

(** Two stores hold the same objects up to their [Ref] strings. *)
Definition sameShape (h h' : heap) : Prop :=
  forall q, SchemaRef_Value <$> h !! q = SchemaRef_Value <$> h' !! q.

(** A recursive schema as the loader leaves it: the component [Tree] is an
    object whose [items] is a reference to [Tree], resolved to the value of
    the component itself. *)
Definition treeSchema : Schema :=
  mkSchema (Some ["array"]) "" "" (Some 2) [] None [] [] [] None.

Definition treeHeap : heap :=
  <[1 := mkSchemaRef "" (Some treeSchema)]>
    (<[2 := mkSchemaRef "#/components/schemas/Tree" (Some treeSchema)]> ∅).

(** A schema graph without cycle: [Pets] is an array of [Pet]. *)
Definition petsHeap : heap :=
  <[1 := mkSchemaRef ""
           (Some (mkSchema (Some ["array"]) "" "" (Some 2) [] None [] [] [] None))]>
    (<[2 := mkSchemaRef "#/components/schemas/Pet"
              (Some (mkSchema (Some ["object"]) "" "" None [("name", Some 3)]
                       None [] [] [] None))]>
       (<[3 := mkSchemaRef "" (Some stringSchema)]> ∅)).

(** A check that [rank] decreases along every edge of the store. *)
Definition rankedb (h : heap) (rank : loc -> nat) : bool :=
  forallb (fun e : loc * SchemaRef =>
             forallb (fun c : option loc =>
                        match c with
                        | Some q => rank q <? rank e.1
                        | None => true
                        end) (children e.2))
    (map_to_list h).

(** ** What the traversal of [updateRefs] computes

    The traversal does two things that do not depend on each other: the
    [Ref] strings stored in the document tree are replaced, and the schema
    objects the tree points to are visited in the store.  [rewrite...] is
    the first, [roots...] lists the pointers of the second in the order of
    the visit. *)

Definition rewriteParameterRef (renames : gmap string string) (p : ParameterRef)
    : ParameterRef :=
  mkParameterRef (renameRef renames (ParameterRef_Ref p)) (ParameterRef_Value p).

Definition rootsParameterRef (p : ParameterRef) : list (option loc) :=
  match ParameterRef_Value p with
  | Some v => [Param_Schema v]
  | None => []
  end.

Definition rootsContent (content : list (string * MediaType)) : list (option loc) :=
  map (fun kv => MediaType_Schema kv.2) content.

Definition rewriteRequestBodyRef (renames : gmap string string) (b : RequestBodyRef)
    : RequestBodyRef :=
  mkRequestBodyRef (renameRef renames (RequestBodyRef_Ref b)) (RequestBodyRef_Value b).

Definition rootsRequestBodyRef (b : RequestBodyRef) : list (option loc) :=
  match RequestBodyRef_Value b with
  | Some v => rootsContent (RequestBody_Content v)
  | None => []
  end.

Definition rewriteHeaderRef (renames : gmap string string) (x : HeaderRef) : HeaderRef :=
  mkHeaderRef (renameRef renames (HeaderRef_Ref x)) (HeaderRef_Value x).

Definition rootsHeaderRef (x : HeaderRef) : list (option loc) :=
  match HeaderRef_Value x with
  | Some v => [Header_Schema v]
  | None => []
  end.

Definition onValues {A B} (f : A -> B) (l : list (string * A)) : list (string * B) :=
  map (fun kv => (kv.1, f kv.2)) l.

Definition rewriteResponseRef (renames : gmap string string) (r : ResponseRef)
    : ResponseRef :=
  mkResponseRef (renameRef renames (ResponseRef_Ref r))
    (match ResponseRef_Value r with
     | Some v =>
         Some (mkResponse (onValues (rewriteHeaderRef renames) (Response_Headers v))
                 (Response_Content v))
     | None => None
     end).

Definition rootsResponseRef (r : ResponseRef) : list (option loc) :=
  match ResponseRef_Value r with
  | Some v =>
      rootsContent (Response_Content v)
        ++ flat_map (fun kv => rootsHeaderRef kv.2) (Response_Headers v)
  | None => []
  end.

Definition optMap {A B} (f : A -> B) (o : option A) : option B :=
  match o with Some x => Some (f x) | None => None end.

Definition optRoots {A} (f : A -> list (option loc)) (o : option A) : list (option loc) :=
  match o with Some x => f x | None => [] end.

Fixpoint rewritePathItem (renames : gmap string string) (p : PathItem) : PathItem :=
  match p with
  | mkPathItem get post put delete patch head options trace parameters =>
      mkPathItem
        (optMap (rewriteOperation renames) get)
        (optMap (rewriteOperation renames) post)
        (optMap (rewriteOperation renames) put)
        (optMap (rewriteOperation renames) delete)
        (optMap (rewriteOperation renames) patch)
        (optMap (rewriteOperation renames) head)
        (optMap (rewriteOperation renames) options)
        (optMap (rewriteOperation renames) trace)
        (map (rewriteParameterRef renames) parameters)
  end
with rewriteOperation (renames : gmap string string) (op : Operation) : Operation :=
  match op with
  | mkOperation tags parameters requestBody responses callbacks =>
      mkOperation tags
        (map (rewriteParameterRef renames) parameters)
        (optMap (rewriteRequestBodyRef renames) requestBody)
        (onValues (rewriteResponseRef renames) responses)
        (map (fun kv : string * CallbackRef =>
                let (k, c) := kv in (k, rewriteCallbackRef renames c)) callbacks)
  end
with rewriteCallbackRef (renames : gmap string string) (c : CallbackRef) : CallbackRef :=
  match c with
  | mkCallbackRef ref value =>
      mkCallbackRef (renameRef renames ref)
        (match value with
         | Some items =>
             Some (map (fun kv : string * PathItem =>
                          let (k, p) := kv in (k, rewritePathItem renames p)) items)
         | None => None
         end)
  end.

Fixpoint rootsPathItem (p : PathItem) : list (option loc) :=
  match p with
  | mkPathItem get post put delete patch head options trace parameters =>
      optRoots rootsOperation get ++ optRoots rootsOperation post
        ++ optRoots rootsOperation put ++ optRoots rootsOperation delete
        ++ optRoots rootsOperation patch ++ optRoots rootsOperation head
        ++ optRoots rootsOperation options ++ optRoots rootsOperation trace
        ++ flat_map rootsParameterRef parameters
  end
with rootsOperation (op : Operation) : list (option loc) :=
  match op with
  | mkOperation tags parameters requestBody responses callbacks =>
      flat_map rootsParameterRef parameters
        ++ optRoots rootsRequestBodyRef requestBody
        ++ flat_map (fun kv => rootsResponseRef kv.2) responses
        ++ flat_map (fun kv : string * CallbackRef =>
                       let (_, c) := kv in rootsCallbackRef c) callbacks
  end
with rootsCallbackRef (c : CallbackRef) : list (option loc) :=
  match c with
  | mkCallbackRef _ value =>
      match value with
      | Some items =>
          flat_map (fun kv : string * PathItem =>
                      let (_, p) := kv in rootsPathItem p) items
      | None => []
      end
  end.

(** The pointers [updateRefs] visits, for the orders in which it ranges
    over the paths and the components. *)
Definition rootsComponents (o : ComponentsOrder) : list (option loc) :=
  (order_Schemas o).*2
    ++ flat_map (fun kv => rootsParameterRef kv.2) (order_Parameters o)
    ++ flat_map (fun kv => rootsResponseRef kv.2) (order_Responses o)
    ++ flat_map (fun kv => rootsRequestBodyRef kv.2) (order_RequestBodies o)
    ++ flat_map (fun kv => rootsHeaderRef kv.2) (order_Headers o)
    ++ flat_map (fun kv => rootsCallbackRef kv.2) (order_Callbacks o).

Definition rootsPaths (pathOrder : list (string * PathItem)) : list (option loc) :=
  flat_map (fun kv => rootsPathItem kv.2) pathOrder.

(** The components with every [Ref] of their trees rewritten. *)
Definition rewriteComponents (renames : gmap string string) (c : Components)
    : Components :=
  {| Components_Schemas := Components_Schemas c;
     Components_Parameters := rewriteParameterRef renames <$> Components_Parameters c;
     Components_Headers := rewriteHeaderRef renames <$> Components_Headers c;
     Components_RequestBodies :=
       rewriteRequestBodyRef renames <$> Components_RequestBodies c;
     Components_Responses := rewriteResponseRef renames <$> Components_Responses c;
     Components_SecuritySchemes := Components_SecuritySchemes c;
     Components_Examples := Components_Examples c;
     Components_Links := Components_Links c;
     Components_Callbacks := rewriteCallbackRef renames <$> Components_Callbacks c |}.

(** The order [order] of a range over the paths of [spec]. *)
Definition pathsRange (spec : T) (pathOrder : list (string * PathItem)) : Prop :=
  match T_Paths spec with
  | Some paths => range_of paths pathOrder
  | None => pathOrder = []
  end.

(** The document with every [Ref] of its tree rewritten. *)
Definition rewriteSpec (renames : gmap string string) (spec : T) : T :=
  {| T_Paths :=
       match T_Paths spec with
       | Some paths => Some (rewritePathItem renames <$> paths)
       | None => None
       end;
     T_Components :=
       match T_Components spec with
       | Some c => Some (rewriteComponents renames c)
       | None => None
       end;
     T_Tags := T_Tags spec |}.

(** ** Induction over path items, operations and callbacks *)

Definition optP {A} (X : A -> Prop) (o : option A) : Prop :=
  match o with Some x => X x | None => True end.

Section PathItem_induction.

Variable P : PathItem -> Prop.
Variable Q : Operation -> Prop.
Variable R : CallbackRef -> Prop.

Hypothesis HP : forall get post put delete patch head options trace parameters,
  optP Q get -> optP Q post -> optP Q put -> optP Q delete -> optP Q patch ->
  optP Q head -> optP Q options -> optP Q trace ->
  P (mkPathItem get post put delete patch head options trace parameters).

Hypothesis HQ : forall tags parameters requestBody responses callbacks,
  Forall (fun kv : string * CallbackRef => R kv.2) callbacks ->
  Q (mkOperation tags parameters requestBody responses callbacks).

Hypothesis HR : forall ref value,
  optP (Forall (fun kv : string * PathItem => P kv.2)) value ->
  R (mkCallbackRef ref value).

Fixpoint PathItem_nested_ind (p : PathItem) : P p :=
  match p with
  | mkPathItem get post put delete patch head options trace parameters =>
      let opt (o : option Operation) : optP Q o :=
        match o return optP Q o with
        | Some op => Operation_nested_ind op
        | None => I
        end in
      HP get post put delete patch head options trace parameters
        (opt get) (opt post) (opt put) (opt delete) (opt patch) (opt head)
        (opt options) (opt trace)
  end
with Operation_nested_ind (op : Operation) : Q op :=
  match op with
  | mkOperation tags parameters requestBody responses callbacks =>
      HQ tags parameters requestBody responses callbacks
        ((fix go (l : list (string * CallbackRef))
            : Forall (fun kv : string * CallbackRef => R kv.2) l :=
            match l return Forall _ l with
            | [] => @List.Forall_nil _ _
            | kv :: l' =>
                @List.Forall_cons _ _ kv l'
                  (match kv return R kv.2 with
                   | (_, c) => CallbackRef_nested_ind c
                   end) (go l')
            end) callbacks)
  end
with CallbackRef_nested_ind (c : CallbackRef) : R c :=
  match c with
  | mkCallbackRef ref value =>
      HR ref value
        (match value return optP (Forall (fun kv : string * PathItem => P kv.2)) value with
         | Some items =>
             (fix go (l : list (string * PathItem))
                : Forall (fun kv : string * PathItem => P kv.2) l :=
                match l return Forall _ l with
                | [] => @List.Forall_nil _ _
                | kv :: l' =>
                    @List.Forall_cons _ _ kv l'
                      (match kv return P kv.2 with
                       | (_, p) => PathItem_nested_ind p
                       end) (go l')
                end) items
         | None => I
         end)
  end.

End PathItem_induction.

(** ** The rename map, reference by reference *)

(** The name [n] with [ref = refPrefix +:+ n], if any. *)
Definition stripRef (refPrefix ref : string) : option string :=
  if HasPrefix ref refPrefix
  then Some (string_drop (String.length refPrefix) ref)
  else None.

(** The new reference of [ref] when it is [src] followed by one of
    [names]. *)
Definition kindTarget (src dst prefix : string) (names : gset string) (ref : string)
    : option string :=
  match stripRef src ref with
  | Some n => if decide (n ∈ names) then Some (dst +:+ prefix +:+ n) else None
  | None => None
  end.

Definition orElse {A} (a b : option A) : option A :=
  match a with Some x => Some x | None => b end.

(** The entry of the rename map of [applyDisputePrefix] for [ref]. *)
Definition renameTarget (prefix : string) (c : Components) (ref : string)
    : option string :=
  orElse (kindTarget "#/components/requestBodies/" "#/components/requestBodies/"
            prefix (dom (Components_RequestBodies c)) ref)
    (orElse (kindTarget "#/components/securitySchemes/" "#/components/securitySchemes/"
               prefix (dom (Components_SecuritySchemes c)) ref)
       (orElse (kindTarget "#/components/parameters/" "#/components/parameters/"
                  prefix (dom (Components_Parameters c)) ref)
          (orElse (kindTarget "#/components/responses/" "#/components/responses/"
                     prefix (dom (Components_Responses c)) ref)
             (orElse (kindTarget "#/definitions/" "#/components/schemas/"
                        prefix (dom (Components_Schemas c)) ref)
                (kindTarget "#/components/schemas/" "#/components/schemas/"
                   prefix (dom (Components_Schemas c)) ref))))).

(** No component of a renamed kind is named as another one of its kind
    with the prefix in front. *)
Definition noPrefixedName {V} (prefix : string) (m : gmap string V) : Prop :=
  forall n, is_Some (m !! n) -> m !! (prefix +:+ n) = None.

Definition noPrefixedNames (prefix : string) (c : Components) : Prop :=
  noPrefixedName prefix (Components_Schemas c) /\
  noPrefixedName prefix (Components_Responses c) /\
  noPrefixedName prefix (Components_Parameters c) /\
  noPrefixedName prefix (Components_SecuritySchemes c) /\
  noPrefixedName prefix (Components_RequestBodies c).

(** The components after the renaming loops: the five kinds under their
    prefixed names. *)
Definition prefixedComponents (prefix : string) (c : Components) : Components :=
  {| Components_Schemas := kmap (String.append prefix) (Components_Schemas c);
     Components_Parameters := kmap (String.append prefix) (Components_Parameters c);
     Components_Headers := Components_Headers c;
     Components_RequestBodies := kmap (String.append prefix) (Components_RequestBodies c);
     Components_Responses := kmap (String.append prefix) (Components_Responses c);
     Components_SecuritySchemes :=
       kmap (String.append prefix) (Components_SecuritySchemes c);
     Components_Examples := Components_Examples c;
     Components_Links := Components_Links c;
     Components_Callbacks := Components_Callbacks c |}.

(** ** Canonical orders and checks *)

(** The order of [map_to_list] for every map of the components. *)
Definition orderOf (c : Components) : ComponentsOrder :=
  {| order_Schemas := map_to_list (Components_Schemas c);
     order_Responses := map_to_list (Components_Responses c);
     order_Parameters := map_to_list (Components_Parameters c);
     order_SecuritySchemes := map_to_list (Components_SecuritySchemes c);
     order_RequestBodies := map_to_list (Components_RequestBodies c);
     order_Examples := map_to_list (Components_Examples c);
     order_Headers := map_to_list (Components_Headers c);
     order_Links := map_to_list (Components_Links c);
     order_Callbacks := map_to_list (Components_Callbacks c) |}.

Definition noPrefixedNameb {V} (prefix : string) (m : gmap string V) : bool :=
  forallb (fun n => isNil (m !! (prefix +:+ n))) (map_to_list m).*1.

Definition noPrefixedNamesb (prefix : string) (c : Components) : bool :=
  noPrefixedNameb prefix (Components_Schemas c)
  && noPrefixedNameb prefix (Components_Responses c)
  && noPrefixedNameb prefix (Components_Parameters c)
  && noPrefixedNameb prefix (Components_SecuritySchemes c)
  && noPrefixedNameb prefix (Components_RequestBodies c).

(** The rename map of the dispute prefix [A] on the chain document, and
    the schemas under their new names. *)
Definition chainRenames : gmap string string :=
  (renameComponents "A" chainComponents (orderOf chainComponents)).2.

Definition chainPrefixedSchemas : gmap string (option loc) :=
  {[ "AB" := Some 1; "AAB" := Some 2; "AC" := Some 3 ]}.
(** * The notions the statements are written with *)

(** The key the specification describes: strip [stripStart] only when it is
    a prefix of the path, prepend [prepend], then ensure a leading slash. *)
Definition stripped (stripStart path : string) (s : string) : Prop :=
  (exists rest, path = stripStart +:+ rest /\ s = rest) \/
  ((forall rest, path <> stripStart +:+ rest) /\ s = path).

(** [s] with a slash in front unless it has one. *)
Definition withSlash (s : string) : string :=
  if HasPrefix s "/" then s else "/" +:+ s.

(** What the inner loop leaves of the operation [o] stored under [method]. *)
Definition keepOp (sel : OperationSelectionConfig) (path method : string)
    (o : option Operation) : option Operation :=
  match o with
  | Some op => if shouldIncludeOperation path method op sel then Some op else None
  | None => None
  end.

(** One step of the inner loop on the field of its own method: [seen] is
    the operation read from the map of [getOperationsMap], [cur] the field. *)
Definition stepField (sel : OperationSelectionConfig) (path method : string)
    (seen cur : option Operation) : option Operation :=
  match seen with
  | Some op => if shouldIncludeOperation path method op sel then cur else None
  | None => cur
  end.

(** The filtered path map, entry by entry. *)
Definition filteredEntry (sel : OperationSelectionConfig) (k : string)
    (p : PathItem) : option PathItem :=
  let p' := filterPathItem sel k p in
  if isPathItemEmpty p' then None else Some p'.

(** The operation a path item holds for a method name. *)
Definition opAt (method : string) (p : PathItem) : option Operation :=
  if String.eqb method "GET" then PathItem_Get p
  else if String.eqb method "POST" then PathItem_Post p
  else if String.eqb method "PUT" then PathItem_Put p
  else if String.eqb method "DELETE" then PathItem_Delete p
  else if String.eqb method "PATCH" then PathItem_Patch p
  else if String.eqb method "HEAD" then PathItem_Head p
  else if String.eqb method "OPTIONS" then PathItem_Options p
  else if String.eqb method "TRACE" then PathItem_Trace p
  else None.

(** Two entries of a parameter list count as the same parameter when both
    have a value and the values agree on name and location. *)
Definition sameParamRef (a b : ParameterRef) : bool :=
  match ParameterRef_Value a, ParameterRef_Value b with
  | Some va, Some vb => sameParam va vb
  | _, _ => false
  end.

(** Two entries of a parameter list have a value each, and the two values
    have the same name and the same location. *)
Definition sameNameLocation (a b : ParameterRef) : Prop :=
  exists va vb,
    ParameterRef_Value a = Some va /\ ParameterRef_Value b = Some vb /\
    Param_Name va = Param_Name vb /\ Param_In va = Param_In vb.

(** The path loop of [mergeSpec] never gets a path item from the templated
    search: for a key of the document that a path map lacks, the search
    finds nothing.  The path maps are those the loop can hold, the keys of
    the composite together with some keys of the document.  With the
    search of kin-openapi this says that no key of the document that the
    composite lacks is, up to the names of its path variables, another key
    of the composite or of the document. *)
Definition noTemplatedMatch (master docPaths : gmap string PathItem) : Prop :=
  forall m key,
    dom master ⊆ dom m -> dom m ⊆ dom master ∪ dom docPaths ->
    is_Some (docPaths !! key) -> m !! key = None ->
    Find_templated m key = None.

(** What the merge stores under a path of the document: the merge with the
    composite's item when it has one, the document's item otherwise. *)
Definition mergedEntry (old : option PathItem) (src : PathItem) : PathItem :=
  match old with
  | Some dest => mergePathItem dest src
  | None => src
  end.

(** [e] has a value with the name and location of the configured [c]. *)
Definition sameKeyCfg (c : ParameterConfig) (e : ParameterRef) : bool :=
  match ParameterRef_Value e with
  | Some v => String.eqb (Param_Name v) (ParameterConfig_Name c)
              && String.eqb (Param_In v) (ParameterConfig_In c)
  | None => false
  end.




(** Two configured parameters have the same name and location. *)
Definition sameCfgKey (c' c : ParameterConfig) : bool :=
  String.eqb (ParameterConfig_Name c') (ParameterConfig_Name c)
  && String.eqb (ParameterConfig_In c') (ParameterConfig_In c).

(** What the injection loop did to the list [ps] of an operation, between
    the store [h] it started from and a later store [H]. *)
Definition injection_of (cfgs : list ParameterConfig)
    (ps injected : list ParameterRef) (h H : heap) : Prop :=
  (forall c, c ∈ cfgs -> existsb (sameKeyCfg c) (ps ++ injected) = true) /\
  (forall q, q ∈ injected ->
     exists c l, c ∈ cfgs /\
       q = mkParameterRef "" (Some (paramOfConfig c l)) /\
       h !! l = None /\ H !! l = Some (schemaOfConfig c) /\
       existsb (sameKeyCfg c) ps = false) /\
  (forall pre c post, cfgs = pre ++ c :: post ->
     existsb (sameKeyCfg c) ps = false ->
     (forall c', c' ∈ pre -> sameCfgKey c' c = false) ->
     exists l, mkParameterRef "" (Some (paramOfConfig c l)) ∈ injected /\
               H !! l = Some (schemaOfConfig c)).

(** The entry [e] of the incoming schemas meets a different schema under
    its name in [schemas]. *)
Definition collides (h : heap) (schemas : gmap string (option loc))
    (e : string * option loc) : bool :=
  match schemas !! e.1 with
  | Some existing => negb (schemasEqual h existing e.2)
  | None => false
  end.

(** The incoming schema [name] differs from the composite's. *)
Definition colliding (h : heap) (masterSchemas docSchemas : gmap string (option loc))
    (name : string) : Prop :=
  exists e s, masterSchemas !! name = Some e /\ docSchemas !! name = Some s /\
              schemasEqual h e s = false.

(** The object with its reference rewritten. *)
Definition renamed (renames : gmap string string) (o : SchemaRef) : SchemaRef :=
  mkSchemaRef (renameRef renames (SchemaRef_Ref o)) (SchemaRef_Value o).

(** [f] on [x] is: visit the pointers [roots x], return [rw x]. *)
Definition splits {A B} (fuel : nat) (renames : gmap string string)
    (f : A -> heap -> option (B * heap))
    (roots : A -> list (option loc)) (rw : A -> B) (x : A) : Prop :=
  forall h,
    f x h = h' ← visitAll (updateSchemaRefRefs fuel renames) (roots x) h;
            Some (rw x, h').

(** Every object of [h] is the object of [h0], as it was or rewritten. *)
Definition rewrittenFrom (renames : gmap string string) (h0 h : heap) : Prop :=
  forall q, h !! q = h0 !! q \/
            exists o, h0 !! q = Some o /\ h !! q = Some (renamed renames o).

(** The object at [q] has been rewritten. *)
Definition doneAt (renames : gmap string string) (h0 h : heap) (q : loc) : Prop :=
  forall o, h0 !! q = Some o -> h !! q = Some (renamed renames o).

(** What a visit [g] that reaches the objects [R] does. *)
Definition visitSpec (renames : gmap string string) (h0 : heap)
    (R : loc -> Prop) (g : heap -> option heap) : Prop :=
  forall h h', rewrittenFrom renames h0 h -> g h = Some h' ->
    rewrittenFrom renames h0 h' /\
    (forall q, doneAt renames h0 h q -> doneAt renames h0 h' q) /\
    (forall q, R q -> doneAt renames h0 h' q) /\
    (forall q, ~ R q -> h' !! q = h !! q).


(** ** merger.go: the global base path *)

Fixpoint string_take (n : nat) (s : string) : string :=
  match n, s with
  | S n', String c s' => String c (string_take n' s')
  | _, _ => EmptyString
  end.

(** [strings.HasSuffix]:
    [len(s) >= len(suffix) && s[len(s)-len(suffix):] == suffix]. *)
Definition HasSuffix (s suffix : string) : bool :=
  (String.length suffix <=? String.length s)
  && String.eqb (string_drop (String.length s - String.length suffix) s) suffix.

(** [strings.TrimSuffix]: [s] without the trailing [suffix], or [s] itself. *)
Definition TrimSuffix (s suffix : string) : string :=
  if HasSuffix s suffix
  then string_take (String.length s - String.length suffix) s
  else s.

(** The base path as [applyBasePath] uses it: a slash in front if there is
    none, one slash at the end taken off. *)
Definition normalizedBasePath (basePath : string) : string :=
  let basePath :=
    if negb (HasPrefix basePath "/") then "/" +:+ basePath else basePath in
  TrimSuffix basePath "/".

(** [applyBasePath]: [basePath] is [m.cfg.BasePath], [paths] the path map
    of the composite (never nil: [Merge] creates it), [order] the order of
    the loop. *)
Definition applyBasePath (basePath : string) (paths : gmap string PathItem)
    (order : list (string * PathItem)) : gmap string PathItem :=
  let basePath := normalizedBasePath basePath in
  foldl (fun newPaths entry => <[basePath +:+ entry.1 := entry.2]> newPaths)
    ∅ order.

(** The first step of [applyOverrides]. *)
Definition applyOverridesBasePath (basePath : string) (master : Master)
    (order : list (string * PathItem)) : Master :=
  if nonEmpty basePath
  then {| master_Paths := applyBasePath basePath (master_Paths master) order;
          master_Components := master_Components master;
          master_Tags := master_Tags master |}
  else master.

(** ** merger.go: the order of the tags *)

(** The first loop of [sortTags]: the map from names to tags; a later tag
    replaces an earlier one of the same name. *)
Definition tagMapOf (tags : list Tag) : gmap string Tag :=
  foldl (fun tagMap tag => <[Tag_Name tag := tag]> tagMap) ∅ tags.

(** The second loop, one name of [tagOrder]: the tag of that name, if the
    map still has one, is appended and taken out of the map. *)
Definition orderedTagsStep (acc : list Tag * gmap string Tag) (tagName : string)
    : list Tag * gmap string Tag :=
  match acc.2 !! tagName with
  | Some tag => (acc.1 ++ [tag], delete tagName acc.2)
  | None => acc
  end.

(** The test of the third loop: [_, ok := tagMap[tag.Name]]. *)
Definition inTagMap (tagMap : gmap string Tag) (tag : Tag) : bool :=
  match tagMap !! Tag_Name tag with
  | Some _ => true
  | None => false
  end.

Definition sortTags (tagOrder : list string) (tags : list Tag) : list Tag :=
  match tags with
  | [] => tags
  | _ :: _ =>
      let r := foldl orderedTagsStep ([], tagMapOf tags) tagOrder in
      r.1 ++ filter (fun tag => inTagMap r.2 tag = true) tags
  end.

(** [sortOutput]: the tags are sorted when a tag order is configured. *)
Definition sortOutput (cfg : Config) (master : Master) : Master :=
  if hasLen (TagOrder cfg)
  then {| master_Paths := master_Paths master;
          master_Components := master_Components master;
          master_Tags := sortTags (TagOrder cfg) (master_Tags master) |}
  else master.

(** ** The sort in [sortPaths] *)

(** Every element of the list is at most (byte-wise) every later one. *)
Fixpoint ascending (l : list string) : Prop :=
  match l with
  | [] => True
  | x :: l' => (forall y, y ∈ l' -> String.leb x y = true) /\ ascending l'
  end.

(** ** What the reference rewriting leaves in the store *)

(** [ref] is the reference of a component that [c] has, of one of the five
    kinds that [applyDisputePrefix] renames. *)
Definition componentRef (c : Components) (ref : string) : Prop :=
  (exists n, ref = "#/components/schemas/" +:+ n
             /\ is_Some (Components_Schemas c !! n)) \/
  (exists n, ref = "#/components/responses/" +:+ n
             /\ is_Some (Components_Responses c !! n)) \/
  (exists n, ref = "#/components/parameters/" +:+ n
             /\ is_Some (Components_Parameters c !! n)) \/
  (exists n, ref = "#/components/securitySchemes/" +:+ n
             /\ is_Some (Components_SecuritySchemes c !! n)) \/
  (exists n, ref = "#/components/requestBodies/" +:+ n
             /\ is_Some (Components_RequestBodies c !! n)).

(** [h'] holds the objects of [h], at the same addresses and with the same
    values; a [Ref] that differs satisfies [P]. *)
Definition refsChanged (P : string -> Prop) (h h' : heap) : Prop :=
  forall l,
    match h !! l, h' !! l with
    | Some o, Some o' =>
        SchemaRef_Value o' = SchemaRef_Value o /\
        (SchemaRef_Ref o' = SchemaRef_Ref o \/ P (SchemaRef_Ref o'))
    | None, None => True
    | _, _ => False
    end.

(** The document has no callback: none in an operation of its paths, none
    among its components. *)
Definition withoutCallbacks (spec : T) : Prop :=
  (forall paths k p method op,
     T_Paths spec = Some paths -> paths !! k = Some p ->
     opAt method p = Some op -> Operation_Callbacks op = []) /\
  (forall c, T_Components spec = Some c -> Components_Callbacks c = ∅).

(** ** config.go and merger.go: descriptions and the info override *)

Record DescriptionTitleConfig := mkDescriptionTitleConfig {
  DescriptionTitleConfig_Value : string;
  DescriptionTitleConfig_HeadingLevel : Z }.

Record DescriptionConfig := mkDescriptionConfig {
  DescriptionConfig_Append : bool;
  DescriptionConfig_Title : option DescriptionTitleConfig }.

Record ContactConfig := mkContactConfig {
  ContactConfig_Name : string;
  ContactConfig_URL : string;
  ContactConfig_Email : string }.

Record LicenseConfig := mkLicenseConfig {
  LicenseConfig_Name : string;
  LicenseConfig_URL : string }.

Record InfoConfig := mkInfoConfig {
  InfoConfig_Title : string;
  InfoConfig_Description : string;
  InfoConfig_Version : string;
  InfoConfig_TermsOfService : string;
  InfoConfig_Contact : option ContactConfig;
  InfoConfig_License : option LicenseConfig }.

(** [openapi3.Contact], [openapi3.License], [openapi3.Info] *)
Record Contact := mkContact {
  Contact_Name : string;
  Contact_URL : string;
  Contact_Email : string }.

Record License := mkLicense {
  License_Name : string;
  License_URL : string }.

Record Info := mkInfo {
  Info_Title : string;
  Info_Description : string;
  Info_Version : string;
  Info_TermsOfService : string;
  Info_Contact : option Contact;
  Info_License : option License }.

(** The line feed of ["\n"]. *)
Definition newline : string := String (Ascii.ascii_of_nat 10) EmptyString.

(** [strings.Repeat] for a count that is not negative. *)
Fixpoint Repeat (s : string) (count : nat) : string :=
  match count with
  | O => ""
  | S n => s +:+ Repeat s n
  end.

(** [formatDescription]: the heading level is an [int]; outside of 1..6 it
    is replaced by 2. *)
Definition formatDescription (desc : string) (cfg : DescriptionConfig) : string :=
  if negb (nonEmpty desc) then ""
  else
    match DescriptionConfig_Title cfg with
    | Some title =>
        if nonEmpty (DescriptionTitleConfig_Value title)
        then
          let level := DescriptionTitleConfig_HeadingLevel title in
          let level := if (level <? 1)%Z || (6 <? level)%Z then 2%Z else level in
          let heading := Repeat "#" (Z.to_nat level) in
          heading +:+ " " +:+ DescriptionTitleConfig_Value title
            +:+ newline +:+ newline +:+ desc
        else desc
    | None => desc
    end.

(** The end of the loop body of [Merge]: [description] is
    [input.Description], [info] is [spec.Info] (nil or not), and
    [mergedDescriptions] the slice collected so far. *)
Definition collectDescription (description : option DescriptionConfig)
    (info : option Info) (mergedDescriptions : list string) : list string :=
  match description, info with
  | Some cfg, Some i =>
      if DescriptionConfig_Append cfg
      then
        let desc := formatDescription (Info_Description i) cfg in
        if nonEmpty desc then mergedDescriptions ++ [desc] else mergedDescriptions
      else mergedDescriptions
  | _, _ => mergedDescriptions
  end.

(** [ToOpenAPI3Info] *)
Definition ToOpenAPI3Info (c : option InfoConfig) : option Info :=
  match c with
  | None => None
  | Some c =>
      Some {| Info_Title := InfoConfig_Title c;
              Info_Description := InfoConfig_Description c;
              Info_Version := InfoConfig_Version c;
              Info_TermsOfService := InfoConfig_TermsOfService c;
              Info_Contact :=
                match InfoConfig_Contact c with
                | Some k => Some {| Contact_Name := ContactConfig_Name k;
                                    Contact_URL := ContactConfig_URL k;
                                    Contact_Email := ContactConfig_Email k |}
                | None => None
                end;
              Info_License :=
                match InfoConfig_License c with
                | Some l => Some {| License_Name := LicenseConfig_Name l;
                                    License_URL := LicenseConfig_URL l |}
                | None => None
                end |}
  end.

(** The info of the composite as [Merge] creates it. *)
Definition initialInfo : Info :=
  mkInfo "Merged API" "" "1.0.0" "" None None.

(** [applyOverrides], the info override: a field of the configuration
    replaces the field of the composite when it is set. *)
Definition applyInfoOverride (cfgInfo : option InfoConfig) (masterInfo : Info) : Info :=
  match cfgInfo with
  | None => masterInfo
  | Some _ =>
      match ToOpenAPI3Info cfgInfo with
      | None => masterInfo
      | Some info =>
          {| Info_Title :=
               if nonEmpty (Info_Title info) then Info_Title info
               else Info_Title masterInfo;
             Info_Description :=
               if nonEmpty (Info_Description info) then Info_Description info
               else Info_Description masterInfo;
             Info_Version :=
               if nonEmpty (Info_Version info) then Info_Version info
               else Info_Version masterInfo;
             Info_TermsOfService :=
               if nonEmpty (Info_TermsOfService info) then Info_TermsOfService info
               else Info_TermsOfService masterInfo;
             Info_Contact :=
               match Info_Contact info with
               | Some k => Some k
               | None => Info_Contact masterInfo
               end;
             Info_License :=
               match Info_License info with
               | Some l => Some l
               | None => Info_License masterInfo
               end |}
      end
  end.

(** [applyOverrides], the merged descriptions: they are joined with blank
    lines and put after the description the composite has. *)
Definition appendDescriptions (mergedDescriptions : list string) (masterInfo : Info)
    : Info :=
  match mergedDescriptions with
  | [] => masterInfo
  | _ :: _ =>
      let existingDesc := Info_Description masterInfo in
      let existingDesc :=
        if nonEmpty existingDesc then existingDesc +:+ newline +:+ newline
        else existingDesc in
      {| Info_Title := Info_Title masterInfo;
         Info_Description :=
           existingDesc +:+ String.concat (newline +:+ newline) mergedDescriptions;
         Info_Version := Info_Version masterInfo;
         Info_TermsOfService := Info_TermsOfService masterInfo;
         Info_Contact := Info_Contact masterInfo;
         Info_License := Info_License masterInfo |}
  end.

(** ** config.go: validation of the configuration *)

(** The loop of [Validate] over the inputs, from index [i] on. *)
Fixpoint validateInputs (i : nat) (inputs : list InputConfig) : result unit :=
  match inputs with
  | [] => Ok tt
  | input :: rest =>
      if negb (nonEmpty (InputFile input))
      then Err ("input[" +:+ pretty i +:+ "]: inputFile is required")
      else validateInputs (S i) rest
  end.

(** [Config.Validate]: [inputs] is [c.Inputs] and [output] is [c.Output]. *)
Definition Validate (inputs : list InputConfig) (output : string) : result unit :=
  if negb (hasLen inputs) then Err "at least one input file is required"
  else if negb (nonEmpty output) then Err "output file path is required"
  else validateInputs 0 inputs.

(** [IsURL] *)
Definition IsURL (path : string) : bool :=
  HasPrefix path "http://" || HasPrefix path "https://".

(** ** merger.go: GitHub URLs *)

(** [strings.Contains] *)
Definition Contains (s substr : string) : bool :=
  match String.index 0 substr s with
  | Some _ => true
  | None => false
  end.

Definition isGitHubURL (url : string) : bool :=
  Contains url "github.com"
  || Contains url "githubusercontent.com"
  || Contains url "github.io".

(** The characters [/] and line feed. *)
Definition slash : Ascii.ascii := Ascii.ascii_of_nat 47.
Definition linefeed : Ascii.ascii := Ascii.ascii_of_nat 10.

(** The longest prefix of [s] without a slash, and what follows it: the
    only way in which [[^/]+] can match in front of a slash. *)
Fixpoint untilSlash (s : string) : string * string :=
  match s with
  | EmptyString => (EmptyString, EmptyString)
  | String c s' =>
      if Ascii.eqb c slash then (EmptyString, s)
      else let r := untilSlash s' in (String c r.1, r.2)
  end.

(** [s] has no line feed: it can be matched by [.+] up to the end. *)
Fixpoint noLinefeed (s : string) : bool :=
  match s with
  | EmptyString => true
  | String c s' => negb (Ascii.eqb c linefeed) && noLinefeed s'
  end.

(** [FindStringSubmatch] for the two expressions of [convertGitHubURL],
    [^https://github\.com/([^/]+)/([^/]+)/blob/(.+)$] and the same with
    [tree] ([kind]): the three groups, when the expression matches.  The
    classes [[^/]] cannot cross a slash, so the owner is the text up to the
    first slash, the repository the text up to the second, both not empty;
    then comes [/blob/], and the rest, not empty and without line feed,
    runs to the end of the text. *)
Definition matchGitHubURL (kind url : string) : option (string * string * string) :=
  if HasPrefix url "https://github.com/"
  then
    let r := untilSlash (TrimPrefix url "https://github.com/") in
    if nonEmpty r.1 && HasPrefix r.2 "/"
    then
      let r' := untilSlash (TrimPrefix r.2 "/") in
      if nonEmpty r'.1 && HasPrefix r'.2 ("/" +:+ kind +:+ "/")
      then
        let pathWithBranch := TrimPrefix r'.2 ("/" +:+ kind +:+ "/") in
        if nonEmpty pathWithBranch && noLinefeed pathWithBranch
        then Some (r.1, r'.1, pathWithBranch)
        else None
      else None
    else None
  else None.

(** [fmt.Sprintf("https://raw.githubusercontent.com/%s/%s/%s", ...)] *)
Definition rawGitHubURL (owner repo pathWithBranch : string) : string :=
  "https://raw.githubusercontent.com/" +:+ owner +:+ "/" +:+ repo
    +:+ "/" +:+ pathWithBranch.

Definition convertGitHubURL (url : string) : string :=
  match matchGitHubURL "blob" url with
  | Some (owner, repo, pathWithBranch) => rawGitHubURL owner repo pathWithBranch
  | None =>
      match matchGitHubURL "tree" url with
      | Some (owner, repo, pathWithBranch) => rawGitHubURL owner repo pathWithBranch
      | None => url
      end
  end.

(** [s] has no slash. *)
Fixpoint noSlash (s : string) : bool :=
  match s with
  | EmptyString => true
  | String c s' => negb (Ascii.eqb c slash) && noSlash s'
  end.

(** ** merger.go: one round of the loop of [Merge] *)

(** The orders of the loops of one round. *)
Record RoundOrders := mkRoundOrders {
  order_filter : list (string * PathItem);
  order_modifyPaths : list (string * PathItem);
  order_modifyParameters : list (string * PathItem);
  order_rename : ComponentsOrder;
  order_refsPaths : list (string * PathItem);
  order_refs : ComponentsOrder;
  order_mergePaths : list (string * PathItem);
  order_merge : ComponentsOrder }.

(** The stages a loaded document goes through before it is merged. *)
Definition processSpec (fuel : nat) (spec : T) (input : InputConfig)
    (o : RoundOrders) (h : heap) : option (T * heap) :=
  let spec := filterOperations spec input (order_filter o) in
  let spec := modifyPaths spec input (order_modifyPaths o) in
  let r := modifyParameters spec input (order_modifyParameters o) h in
  match Dispute input with
  | Some d =>
      if nonEmpty (Dispute_Prefix d)
      then applyDisputePrefix fuel r.1 (Dispute_Prefix d) (order_rename o)
             (order_refsPaths o) (order_refs o) r.2
      else Some r
  | None => Some r
  end.

(** The round for one input, from the loaded document to the composite. *)
Definition processInput (fuel : nat) (master : Master) (spec : T)
    (input : InputConfig) (o : RoundOrders) (h : heap)
    : option (result Master * heap) :=
  '(spec', h') ← processSpec fuel spec input o h;
  Some (mergeInput h' master spec' input (order_mergePaths o) (order_merge o), h').

(** The composite as [Merge] creates it. *)
Definition initialMaster : Master :=
  mkMaster ∅ (mkComponents ∅ ∅ ∅ ∅ ∅ ∅ ∅ ∅ ∅) [].

(** ** More sample documents and configurations *)

(** The path [/admin] excluded by its key. *)
Definition excludeAdminPath : OperationSelectionConfig :=
  mkOperationSelectionConfig [] [] [] [mkPathFilter "/admin" ""].

Definition adminPathInput : InputConfig := inputOf None (Some excludeAdminPath).

(** The prefix [/api] prepended, and stripped. *)
Definition prependApi : PathModificationConfig :=
  {| StripStart := ""; Prepend := "/api" |}.

Definition stripApi : PathModificationConfig :=
  {| StripStart := "/api"; Prepend := "" |}.

(** The tag [Admin] excluded and the prefix [/v1] stripped. *)
Definition adminStripInput : InputConfig :=
  inputOf (Some stripV1) (Some excludeAdmin).

Definition usersOnlyOrder : list (string * PathItem) :=
  [("/users", itemGet (opTagged "Users"))].

Definition adminRound : RoundOrders :=
  mkRoundOrders (map_to_list adminPaths) usersOnlyOrder usersOnlyOrder
    emptyOrder [] emptyOrder [] emptyOrder.

(** Tags [users] and [pets] in the composite; a document that brings
    [pets] again, with another description, and [orders]. *)
Definition usersPetsTags : list Tag := [mkTag "users" ""; mkTag "pets" ""].

Definition petsOrdersTags : list Tag := [mkTag "pets" "second"; mkTag "orders" ""].

Definition taggedMaster : Master := mkMaster ∅ emptyComponents usersPetsTags.

Definition petsFirst : Config := mkConfig ["pets"; "none"] [].

Definition usersPaths : gmap string PathItem :=
  {[ "/users" := itemGet (opTagged "list") ]}.

Definition itemMaster : Master := mkMaster itemPaths itemComponents [].

(** A document with [/users] and the templated path [/users/{id}]. *)
Definition userByIdPaths : gmap string PathItem :=
  <["/users" := itemGet (opTagged "list")]>
    {[ "/users/{id}" := itemGet (opTagged "get") ]}.

Definition userByIdSpec : T := mkT (Some userByIdPaths) (Some emptyComponents) [].

(** * Properties *)

(** ** Strings *)

Lemma HasPrefix_app (p rest : string) : HasPrefix (p +:+ rest) p = true.
Proof.
  unfold HasPrefix. induction p as [|a p IH]; simpl.
  - by destruct rest.
  - destruct (Ascii.ascii_dec a a); [exact IH | done].
Qed.

Lemma HasPrefix_inv (s p : string) :
  HasPrefix s p = true -> exists rest, s = p +:+ rest.
Proof.
  unfold HasPrefix. revert s. induction p as [|a p IH]; intros s H.
  - by exists s.
  - destruct s as [|b s]; simpl in H; [done|].
    destruct (Ascii.ascii_dec a b) as [->|]; [|done].
    destruct (IH _ H) as [rest ->]. by exists rest.
Qed.

Lemma HasPrefix_spec (s p : string) :
  HasPrefix s p = true <-> exists rest, s = p +:+ rest.
Proof.
  split; [apply HasPrefix_inv|]. intros [rest ->]. apply HasPrefix_app.
Qed.

Lemma string_drop_app (p rest : string) :
  string_drop (String.length p) (p +:+ rest) = rest.
Proof. induction p as [|a p IH]; simpl; [by destruct rest | exact IH]. Qed.

Lemma TrimPrefix_app (p rest : string) : TrimPrefix (p +:+ rest) p = rest.
Proof. unfold TrimPrefix. by rewrite HasPrefix_app, string_drop_app. Qed.

Lemma TrimPrefix_not (s p : string) : HasPrefix s p = false -> TrimPrefix s p = s.
Proof. unfold TrimPrefix. by intros ->. Qed.

Lemma nonEmpty_false (s : string) : nonEmpty s = false -> s = "".
Proof.
  unfold nonEmpty. intros H. apply negb_false_iff in H.
  by apply String.eqb_eq in H.
Qed.

(** ** Path rewriter *)

Lemma app_inj_l (p a b : string) : p +:+ a = p +:+ b -> a = b.
Proof. induction p; simpl; intros H; [done|]. injection H. auto. Qed.

Lemma stripped_fun (stripStart path s1 s2 : string) :
  stripped stripStart path s1 -> stripped stripStart path s2 -> s1 = s2.
Proof.
  intros [(r1 & E1 & ->)|[N1 ->]] [(r2 & E2 & ->)|[N2 ->]]; try done.
  - rewrite E1 in E2. by apply app_inj_l in E2.
  - by destruct (N2 r1).
  - by destruct (N1 r2).
Qed.

Lemma rewritePathKey_stripped (mod_ : PathModificationConfig) (path : string) :
  exists s, stripped (StripStart mod_) path s /\
            rewritePathKey mod_ path = withSlash (Prepend mod_ +:+ s).
Proof.
  unfold rewritePathKey, withSlash.
  set (inner := if nonEmpty (StripStart mod_) && HasPrefix path (StripStart mod_)
                then TrimPrefix path (StripStart mod_) else path).
  assert (Hin : stripped (StripStart mod_) path inner).
  { subst inner. destruct (nonEmpty (StripStart mod_)) eqn:Hne; simpl.
    - destruct (HasPrefix path (StripStart mod_)) eqn:Hp.
      + apply HasPrefix_inv in Hp as [rest ->]. left. exists rest.
        by rewrite TrimPrefix_app.
      + right. split; [|done]. intros rest ->. by rewrite HasPrefix_app in Hp.
    - apply nonEmpty_false in Hne. rewrite Hne. left. by exists path. }
  exists inner. split; [done|].
  destruct (nonEmpty (Prepend mod_)) eqn:Hpre.
  - by destruct (HasPrefix _ "/").
  - apply nonEmpty_false in Hpre. rewrite Hpre.
    change ("" +:+ inner) with inner. by destruct (HasPrefix inner "/").
Qed.

Lemma modifyPathsLoop_snoc mod_ order e :
  modifyPathsLoop mod_ (order ++ [e])
  = <[rewritePathKey mod_ e.1 := e.2]> (modifyPathsLoop mod_ order).
Proof. unfold modifyPathsLoop. by rewrite foldl_app. Qed.

(** The entry of the result under a key is the last entry of the run whose
    key rewrites to it. *)
Lemma modifyPathsLoop_lookup mod_ (order : list (string * PathItem)) (k : string) :
  modifyPathsLoop mod_ order !! k
  = snd <$> last (filter (fun e => rewritePathKey mod_ e.1 = k) order).
Proof.
  induction order as [|e order IH] using rev_ind; [done|].
  rewrite modifyPathsLoop_snoc, filter_app, lookup_insert.
  rewrite filter_cons, filter_nil. case_decide as Hk; simpl.
  - by rewrite last_snoc.
  - by rewrite app_nil_r.
Qed.

Lemma modifyPathsLoop_dom mod_ (order : list (string * PathItem)) (k : string) :
  is_Some (modifyPathsLoop mod_ order !! k)
  <-> exists e, e ∈ order /\ rewritePathKey mod_ e.1 = k.
Proof.
  rewrite modifyPathsLoop_lookup, fmap_is_Some.
  split.
  - intros [e He]. apply last_Some in He as [l' Hl'].
    assert (e ∈ filter (fun e => rewritePathKey mod_ e.1 = k) order) as Hin.
    { rewrite Hl'. apply elem_of_app. right. by left. }
    apply list_elem_of_filter in Hin as [? ?]. by exists e.
  - intros (e & He & Hk).
    assert (e ∈ filter (fun e => rewritePathKey mod_ e.1 = k) order) as Hin
      by by apply list_elem_of_filter.
    apply last_is_Some. intros Hnil. rewrite Hnil in Hin.
    by apply elem_of_nil in Hin.
Qed.

Lemma range_of_elem {V} (m : gmap string V) order k v :
  range_of m order -> (k, v) ∈ order <-> m !! k = Some v.
Proof. unfold range_of. intros ->. apply elem_of_map_to_list. Qed.

(** C4. Every path key is rewritten to: the key with [stripStart] removed
    from the front only when the key begins with it (byte-wise), then
    [prepend] put in front, then a leading slash added when there is none;
    the keys of the rewritten document are exactly these images; and
    [stripStart = "/health"] turns the path [/health] into [/]. *)
Theorem C4_modifyPaths_rewrites_keys (spec : T) (input : InputConfig)
    (mod_ : PathModificationConfig) (paths : gmap string PathItem)
    (order : list (string * PathItem)) :
  PathModification input = Some mod_ ->
  T_Paths spec = Some paths ->
  range_of paths order ->
  (forall path, exists s,
      stripped (StripStart mod_) path s /\
      rewritePathKey mod_ path = withSlash (Prepend mod_ +:+ s)) /\
  (exists newPaths,
      T_Paths (modifyPaths spec input order) = Some newPaths /\
      forall k, is_Some (newPaths !! k) <->
                exists path, is_Some (paths !! path) /\ k = rewritePathKey mod_ path) /\
  rewritePathKey {| StripStart := "/health"; Prepend := "" |} "/health" = "/".
Proof.
  intros Hmod Hpaths Hrange. split; [|split].
  - intros path. apply rewritePathKey_stripped.
  - exists (modifyPathsLoop mod_ order). unfold modifyPaths.
    rewrite Hmod, Hpaths. split; [done|]. intros k.
    rewrite modifyPathsLoop_dom. split.
    + intros ([path item] & Hin & Hk). exists path.
      apply (range_of_elem _ _ _ _ Hrange) in Hin. simpl in *. eauto.
    + intros (path & [item Hitem] & ->). exists (path, item). split; [|done].
      by apply (range_of_elem _ _ _ _ Hrange).
  - reflexivity.
Qed.

(** C10. The path rewriter does not keep the number of paths: the entry
    under a new key is the one of the last processed path that rewrites to
    it, whatever was stored before, and no error is reported (the stage
    returns a document).  With [stripStart = "/v1"], the document with
    paths [/v1/users] and [/users] comes out with the single path [/users],
    holding the path item that was processed last. *)
Theorem C10_modifyPaths_overwrites :
  (forall mod_ (order : list (string * PathItem)) k,
      modifyPathsLoop mod_ order !! k
      = snd <$> last (filter (fun e => rewritePathKey mod_ e.1 = k) order)) /\
  "/v1/users" <> "/users" /\
  rewritePathKey stripV1 "/v1/users" = rewritePathKey stripV1 "/users" /\
  size twoUsersPaths = 2 /\
  (forall order, range_of twoUsersPaths order ->
     exists item,
       T_Paths (modifyPaths twoUsersSpec (inputOf (Some stripV1) None) order)
       = Some {[ "/users" := item ]} /\
       (snd <$> last order) = Some item) /\
  T_Paths (modifyPaths twoUsersSpec (inputOf (Some stripV1) None)
             [("/v1/users", itemGet (opTagged "v1"));
              ("/users", itemPost (opTagged "plain"))])
  = Some {[ "/users" := itemPost (opTagged "plain") ]} /\
  T_Paths (modifyPaths twoUsersSpec (inputOf (Some stripV1) None)
             [("/users", itemPost (opTagged "plain"));
              ("/v1/users", itemGet (opTagged "v1"))])
  = Some {[ "/users" := itemGet (opTagged "v1") ]}.
Proof.
  split; [apply modifyPathsLoop_lookup|].
  split; [done|]. split; [reflexivity|]. split; [reflexivity|].
  split; [|split; reflexivity].
  intros order Hrange. unfold range_of in Hrange.
  assert (Hl : map_to_list twoUsersPaths
               = [("/users", itemPost (opTagged "plain"));
                  ("/v1/users", itemGet (opTagged "v1"))]) by reflexivity.
  rewrite Hl in Hrange. symmetry in Hrange.
  apply Permutation_length_2_inv in Hrange as [-> | ->]; eexists; split; reflexivity.
Qed.

(** ** Operation filter *)

Ltac step_field :=
  intros; unfold filterStep, stepField; simpl;
  match goal with
  | |- context [match ?o with Some _ => _ | None => _ end] =>
      destruct o as [?op|]; [|reflexivity]
  end;
  match goal with
  | |- context [shouldIncludeOperation ?p ?m ?op ?sel] =>
      destruct (shouldIncludeOperation p m op sel); reflexivity
  end.

Lemma filterStep_GET sel path a b c d e f g h ps o :
  filterStep sel path (mkPathItem a b c d e f g h ps) ("GET", o)
  = mkPathItem (stepField sel path "GET" o a) b c d e f g h ps.
Proof. step_field. Qed.

Lemma filterStep_POST sel path a b c d e f g h ps o :
  filterStep sel path (mkPathItem a b c d e f g h ps) ("POST", o)
  = mkPathItem a (stepField sel path "POST" o b) c d e f g h ps.
Proof. step_field. Qed.

Lemma filterStep_PUT sel path a b c d e f g h ps o :
  filterStep sel path (mkPathItem a b c d e f g h ps) ("PUT", o)
  = mkPathItem a b (stepField sel path "PUT" o c) d e f g h ps.
Proof. step_field. Qed.

Lemma filterStep_DELETE sel path a b c d e f g h ps o :
  filterStep sel path (mkPathItem a b c d e f g h ps) ("DELETE", o)
  = mkPathItem a b c (stepField sel path "DELETE" o d) e f g h ps.
Proof. step_field. Qed.

Lemma filterStep_PATCH sel path a b c d e f g h ps o :
  filterStep sel path (mkPathItem a b c d e f g h ps) ("PATCH", o)
  = mkPathItem a b c d (stepField sel path "PATCH" o e) f g h ps.
Proof. step_field. Qed.

Lemma filterStep_HEAD sel path a b c d e f g h ps o :
  filterStep sel path (mkPathItem a b c d e f g h ps) ("HEAD", o)
  = mkPathItem a b c d e (stepField sel path "HEAD" o f) g h ps.
Proof. step_field. Qed.

Lemma filterStep_OPTIONS sel path a b c d e f g h ps o :
  filterStep sel path (mkPathItem a b c d e f g h ps) ("OPTIONS", o)
  = mkPathItem a b c d e f (stepField sel path "OPTIONS" o g) h ps.
Proof. step_field. Qed.

Lemma filterStep_TRACE sel path a b c d e f g h ps o :
  filterStep sel path (mkPathItem a b c d e f g h ps) ("TRACE", o)
  = mkPathItem a b c d e f g (stepField sel path "TRACE" o h) ps.
Proof. step_field. Qed.

Lemma stepField_same sel path method o :
  stepField sel path method o o = keepOp sel path method o.
Proof. unfold stepField, keepOp. by destruct o. Qed.

Lemma filterPathItem_fields sel path p :
  filterPathItem sel path p
  = mkPathItem
      (keepOp sel path "GET" (PathItem_Get p))
      (keepOp sel path "POST" (PathItem_Post p))
      (keepOp sel path "PUT" (PathItem_Put p))
      (keepOp sel path "DELETE" (PathItem_Delete p))
      (keepOp sel path "PATCH" (PathItem_Patch p))
      (keepOp sel path "HEAD" (PathItem_Head p))
      (keepOp sel path "OPTIONS" (PathItem_Options p))
      (keepOp sel path "TRACE" (PathItem_Trace p))
      (PathItem_Parameters p).
Proof.
  destruct p as [a b c d e f g h ps].
  unfold filterPathItem, filterPathItemOver, getOperationsMap.
  cbn [foldl PathItem_Get PathItem_Post PathItem_Put PathItem_Delete
       PathItem_Patch PathItem_Head PathItem_Options PathItem_Trace
       PathItem_Parameters].
  rewrite filterStep_GET, filterStep_POST, filterStep_PUT, filterStep_DELETE,
    filterStep_PATCH, filterStep_HEAD, filterStep_OPTIONS, filterStep_TRACE.
  by rewrite !stepField_same.
Qed.

Lemma keepOp_idem sel path method o :
  keepOp sel path method (keepOp sel path method o) = keepOp sel path method o.
Proof.
  unfold keepOp. destruct o as [op|]; [|done].
  destruct (shouldIncludeOperation path method op sel) eqn:E; [|done].
  by rewrite E.
Qed.

Lemma filterPathItem_idem sel path p :
  filterPathItem sel path (filterPathItem sel path p) = filterPathItem sel path p.
Proof.
  rewrite (filterPathItem_fields sel path (filterPathItem sel path p)).
  rewrite (filterPathItem_fields sel path p). simpl.
  by rewrite !keepOp_idem.
Qed.

(** The two components of the outer loop's state evolve independently. *)
Lemma filterLoop_fst sel order ps rm :
  (foldl (filterLoopStep sel) (ps, rm) order).1
  = foldl (fun ps e => <[e.1 := filterPathItem sel e.1 e.2]> ps) ps order.
Proof.
  revert ps rm. induction order as [|e order IH]; intros ps rm; [done|].
  simpl. unfold filterLoopStep at 2. simpl. apply IH.
Qed.

Lemma filterLoop_snd sel order ps rm :
  (foldl (filterLoopStep sel) (ps, rm) order).2
  = rm ++ (filter (fun e => isPathItemEmpty (filterPathItem sel e.1 e.2) = true) order).*1.
Proof.
  revert ps rm. induction order as [|e order IH]; intros ps rm.
  - simpl. by rewrite app_nil_r.
  - simpl. unfold filterLoopStep at 2. simpl. rewrite IH.
    rewrite filter_cons. destruct (isPathItemEmpty _) eqn:E.
    + rewrite decide_True by done. by rewrite <- app_assoc.
    + rewrite decide_False by (by intros ?). done.
Qed.

Lemma foldl_insert_lookup {V} (f : string -> V -> V) (order : list (string * V))
    (ps : gmap string V) (k : string) :
  NoDup order.*1 ->
  foldl (fun ps e => <[e.1 := f e.1 e.2]> ps) ps order !! k
  = match list_find (fun e => e.1 = k) order with
    | Some (_, e) => Some (f k e.2)
    | None => ps !! k
    end.
Proof.
  revert ps. induction order as [|e order IH]; intros ps Hnd; [done|].
  apply NoDup_cons in Hnd as [Hnotin Hnd]. simpl.
  rewrite IH by done. case_decide as Hk; simpl.
  - subst k. destruct (list_find _ order) as [[i e']|] eqn:Hf; simpl.
    + apply list_find_Some in Hf as (Hl & He' & _).
      exfalso. apply Hnotin. rewrite <- He'.
      apply list_elem_of_fmap. exists e'. split; [done|].
      by eapply list_elem_of_lookup_2.
    + by rewrite lookup_insert_eq.
  - destruct (list_find _ order) as [[i e']|] eqn:Hf; simpl; [done|].
    by rewrite lookup_insert_ne.
Qed.

Lemma deletePaths_lookup ps rm k :
  deletePaths ps rm !! k = if decide (k ∈ rm) then None else ps !! k.
Proof.
  unfold deletePaths. revert ps. induction rm as [|r rm IH]; intros ps; simpl.
  - done.
  - rewrite IH. destruct (decide (k ∈ rm)) as [Hin|Hnin].
    + rewrite decide_True; [done|]. by right.
    + destruct (decide (k = r)) as [->|Hne].
      * rewrite decide_True by by left. apply lookup_delete_eq.
      * rewrite decide_False by (intros [?|?]%elem_of_cons; done).
        by rewrite lookup_delete_ne.
Qed.

Lemma range_of_NoDup {V} (m : gmap string V) order :
  range_of m order -> NoDup order.*1.
Proof. unfold range_of. intros ->. apply NoDup_fst_map_to_list. Qed.

Lemma range_of_find {V} (m : gmap string V) order k :
  range_of m order ->
  (snd <$> list_find (fun e : string * V => e.1 = k) order)
  = (fun v => (k, v)) <$> m !! k.
Proof.
  intros Hr. destruct (m !! k) as [v|] eqn:Hm; simpl.
  - apply (range_of_elem _ _ _ _ Hr) in Hm.
    destruct (list_find _ order) as [[i [k' v']]|] eqn:Hf; simpl.
    + apply list_find_Some in Hf as (Hl & Hk & _). simpl in Hk. subst k'.
      apply list_elem_of_lookup_2 in Hl.
      apply (range_of_elem _ _ _ _ Hr) in Hl, Hm. congruence.
    + apply list_find_None in Hf. rewrite Forall_forall in Hf.
      by destruct (Hf _ Hm).
  - destruct (list_find _ order) as [[i [k' v']]|] eqn:Hf; simpl; [|done].
    apply list_find_Some in Hf as (Hl & Hk & _). simpl in Hk. subst k'.
    apply list_elem_of_lookup_2 in Hl.
    apply (range_of_elem _ _ _ _ Hr) in Hl. congruence.
Qed.

Lemma filterOperations_lookup sel (paths : gmap string PathItem) order k :
  range_of paths order ->
  let r := foldl (filterLoopStep sel) (paths, []) order in
  deletePaths r.1 r.2 !! k = paths !! k ≫= filteredEntry sel k.
Proof.
  intros Hr r. subst r. rewrite deletePaths_lookup, filterLoop_fst, filterLoop_snd.
  rewrite foldl_insert_lookup by by eapply range_of_NoDup.
  pose proof (range_of_find paths order k Hr) as Hfind. simpl.
  destruct (paths !! k) as [p|] eqn:Hp; simpl in *.
  - destruct (list_find _ order) as [[i e]|]; [|done]. simpl in Hfind.
    injection Hfind as ->. simpl. unfold filteredEntry.
    destruct (isPathItemEmpty (filterPathItem sel k p)) eqn:E.
    + rewrite decide_True; [done|].
      apply list_elem_of_fmap. exists (k, p). split; [done|].
      apply list_elem_of_filter. split; [done|].
      by apply (range_of_elem _ _ _ _ Hr).
    + rewrite decide_False; [done|].
      intros ([k' p'] & Hk & Hin)%list_elem_of_fmap. simpl in Hk. subst k'.
      apply list_elem_of_filter in Hin as [Hemp Hin]. simpl in Hemp.
      apply (range_of_elem _ _ _ _ Hr) in Hin. congruence.
  - destruct (list_find _ order) as [[i e]|]; [done|].
    rewrite decide_False; [done|].
    intros ([k' p'] & Hk & Hin)%list_elem_of_fmap. simpl in Hk. subst k'.
    apply list_elem_of_filter in Hin as [_ Hin].
    apply (range_of_elem _ _ _ _ Hr) in Hin. congruence.
Qed.

Lemma filteredEntry_idem sel k p p' :
  filteredEntry sel k p = Some p' -> filteredEntry sel k p' = Some p'.
Proof.
  unfold filteredEntry. destruct (isPathItemEmpty (filterPathItem sel k p)) eqn:E; [done|].
  intros [= <-]. rewrite filterPathItem_idem. by rewrite E.
Qed.

Lemma filterOperations_paths spec input sel paths order :
  OperationSelection input = Some sel ->
  T_Paths spec = Some paths ->
  range_of paths order ->
  exists paths',
    filterOperations spec input order = set_Paths spec (Some paths') /\
    forall k, paths' !! k = paths !! k ≫= filteredEntry sel k.
Proof.
  intros Hsel Hpaths Hr. unfold filterOperations. rewrite Hsel, Hpaths.
  eexists. split; [reflexivity|]. intros k.
  by apply filterOperations_lookup.
Qed.

(** C5. After the operation filter has run with a selection configuration,
    no path of the document holds a path item without operations: a path
    all of whose operations were removed is deleted from the mapping, and
    every other path keeps its filtered path item. *)
Theorem C5_filterOperations_drops_empty_paths (spec : T) (input : InputConfig)
    (sel : OperationSelectionConfig) (paths : gmap string PathItem)
    (order : list (string * PathItem)) :
  OperationSelection input = Some sel ->
  T_Paths spec = Some paths ->
  range_of paths order ->
  exists paths',
    T_Paths (filterOperations spec input order) = Some paths' /\
    (forall k p, paths' !! k = Some p -> isPathItemEmpty p = false) /\
    (forall k p, paths !! k = Some p ->
       isPathItemEmpty (filterPathItem sel k p) = true -> paths' !! k = None) /\
    (forall k p, paths !! k = Some p ->
       isPathItemEmpty (filterPathItem sel k p) = false ->
       paths' !! k = Some (filterPathItem sel k p)).
Proof.
  intros Hsel Hpaths Hr.
  destruct (filterOperations_paths spec input sel paths order Hsel Hpaths Hr)
    as (paths' & -> & Hlk).
  exists paths'. split; [done|]. split; [|split].
  - intros k p. rewrite Hlk. destruct (paths !! k) as [p0|]; [|done]. simpl.
    unfold filteredEntry.
    destruct (isPathItemEmpty (filterPathItem sel k p0)) eqn:E; [done|].
    by intros [= <-].
  - intros k p Hp He. rewrite Hlk, Hp. simpl. unfold filteredEntry. by rewrite He.
  - intros k p Hp He. rewrite Hlk, Hp. simpl. unfold filteredEntry. by rewrite He.
Qed.

(** C8. The operation filter is idempotent: running it a second time with
    the same configuration, whatever the order in which either run visits
    the paths, gives the document of the first run. *)
Theorem C8_filterOperations_idempotent (spec : T) (input : InputConfig)
    (order1 order2 : list (string * PathItem)) :
  (forall paths, T_Paths spec = Some paths -> range_of paths order1) ->
  (forall paths', T_Paths (filterOperations spec input order1) = Some paths' ->
                  range_of paths' order2) ->
  filterOperations (filterOperations spec input order1) input order2
  = filterOperations spec input order1.
Proof.
  intros H1 H2.
  destruct (OperationSelection input) as [sel|] eqn:Hsel;
    [|unfold filterOperations; by rewrite !Hsel].
  destruct (T_Paths spec) as [paths|] eqn:Hpaths;
    [|unfold filterOperations; by rewrite !Hsel, !Hpaths].
  destruct (filterOperations_paths spec input sel paths order1 Hsel Hpaths (H1 _ eq_refl))
    as (paths' & E1 & Hlk1).
  rewrite E1 in H2 |- *.
  destruct (filterOperations_paths (set_Paths spec (Some paths')) input sel paths' order2
              Hsel eq_refl (H2 _ eq_refl)) as (paths'' & -> & Hlk2).
  unfold set_Paths. simpl. do 2 f_equal. apply map_eq. intros k.
  rewrite Hlk2. destruct (paths' !! k) as [p'|] eqn:Hp'; [|done]. simpl.
  rewrite Hlk1 in Hp'. destruct (paths !! k) as [p|]; [|done]. simpl in Hp'.
  by eapply filteredEntry_idem.
Qed.

(** The map built by [getOperationsMap] is ranged over in any order: the
    steps of the inner loop commute. *)
Lemma foldl_comm_perm {A B} (f : B -> A -> B) (l1 l2 : list A) :
  (forall b x y, f (f b x) y = f (f b y) x) ->
  l1 ≡ₚ l2 -> forall b, foldl f b l1 = foldl f b l2.
Proof.
  intros Hc. induction 1 as [|x l1 l2 _ IH|x y l|l1 l2 l3 _ IH1 _ IH2]; intros b; simpl.
  - done.
  - apply IH.
  - by rewrite Hc.
  - by rewrite IH1, IH2.
Qed.

Lemma removeOperation_comm p m1 m2 :
  removeOperation (removeOperation p m1) m2
  = removeOperation (removeOperation p m2) m1.
Proof.
  unfold removeOperation. repeat case_match; reflexivity.
Qed.

Lemma filterStep_comm sel path p e1 e2 :
  filterStep sel path (filterStep sel path p e1) e2
  = filterStep sel path (filterStep sel path p e2) e1.
Proof.
  unfold filterStep. destruct e1 as [m1 [o1|]], e2 as [m2 [o2|]]; simpl; try done.
  destruct (shouldIncludeOperation path m1 o1 sel),
           (shouldIncludeOperation path m2 o2 sel); try done.
  apply removeOperation_comm.
Qed.

Lemma filterPathItemOver_perm sel path p ops :
  ops ≡ₚ getOperationsMap p ->
  filterPathItemOver sel path p ops = filterPathItem sel path p.
Proof.
  intros Hp. unfold filterPathItem, filterPathItemOver.
  apply foldl_comm_perm; [|done]. intros. apply filterStep_comm.
Qed.

(** ** Composite merger: paths *)

Lemma opAt_getOperationsMap p :
  getOperationsMap p = map (fun m => (m, opAt m p))
    ["GET"; "POST"; "PUT"; "DELETE"; "PATCH"; "HEAD"; "OPTIONS"; "TRACE"].
Proof. reflexivity. Qed.

Lemma mergePathItem_opAt method dest src :
  opAt method (mergePathItem dest src)
  = match opAt method dest with
    | Some o => Some o
    | None => opAt method src
    end.
Proof.
  unfold opAt, mergePathItem; simpl.
  repeat case_match; try done; unfold pickOp in *; repeat case_match; congruence.
Qed.

Lemma mergeParam_unfold dst p :
  mergeParam dst p = if existsb (fun e => sameParamRef e p) dst then dst else dst ++ [p].
Proof. reflexivity. Qed.

Lemma mergeParams_spec (src dst : list ParameterRef) :
  exists added,
    foldl mergeParam dst src = dst ++ added /\
    added `sublist_of` src /\
    (forall p, p ∈ src ->
       p ∈ added \/ exists e, e ∈ dst ++ added /\ sameParamRef e p = true) /\
    (forall pre p post, added = pre ++ p :: post ->
       forall e, e ∈ dst ++ pre -> sameParamRef e p = false).
Proof.
  revert dst. induction src as [|q src IH]; intros dst.
  - exists []. simpl. rewrite app_nil_r. split; [done|]. split; [done|].
    split; [by intros ? ?%elem_of_nil|]. intros pre p post H. by destruct pre.
  - simpl. rewrite mergeParam_unfold.
    destruct (existsb (fun e => sameParamRef e q) dst) eqn:Hex.
    + destruct (IH dst) as (added & E & Hsub & Hrep & Huniq).
      exists added. split; [done|]. split; [by apply sublist_cons|].
      split; [|done]. intros p [->|Hin]%elem_of_cons; [|by apply Hrep].
      right. apply existsb_exists in Hex as (e & He & Hs).
      exists e. split; [|done]. apply elem_of_app. left. by apply list_elem_of_In.
    + destruct (IH (dst ++ [q])) as (added & E & Hsub & Hrep & Huniq).
      exists (q :: added). split; [by rewrite E, <- app_assoc|].
      split; [by apply sublist_skip|]. split.
      * intros p [->|Hin]%elem_of_cons; [left; by left|].
        destruct (Hrep p Hin) as [Ha|(e & He & Hs)]; [left; by right|].
        right. exists e. split; [|done]. by rewrite <- app_assoc in He.
      * intros pre p post Hpre e He. destruct pre as [|q' pre]; simpl in Hpre.
        -- injection Hpre as <- <-. rewrite app_nil_r in He.
           destruct (sameParamRef e q) eqn:Hs; [|done].
           assert (existsb (fun e => sameParamRef e q) dst = true); [|congruence].
           apply existsb_exists. exists e. split; [|done]. by apply list_elem_of_In.
        -- injection Hpre as <- ->. apply (Huniq pre p post eq_refl).
           by rewrite <- app_assoc.
Qed.

Lemma sameParamRef_iff a b : sameParamRef a b = true <-> sameNameLocation a b.
Proof.
  unfold sameParamRef, sameNameLocation, sameParam. split.
  - destruct (ParameterRef_Value a) as [va|], (ParameterRef_Value b) as [vb|];
      try done.
    intros [Hn Hi]%andb_true_iff. exists va, vb.
    repeat split; by apply String.eqb_eq.
  - intros (va & vb & -> & -> & Hn & Hi).
    apply andb_true_iff. split; by apply String.eqb_eq.
Qed.

Lemma sameParamRef_false_iff a b : sameParamRef a b = false <-> ~ sameNameLocation a b.
Proof.
  rewrite <- sameParamRef_iff. by destruct (sameParamRef a b).
Qed.

(** When the templated search finds nothing, [Paths.Find] is the lookup. *)
Lemma Paths_Find_exact paths k :
  (paths !! k = None -> Find_templated paths k = None) ->
  Paths_Find paths k = (fun item => (k, item)) <$> paths !! k.
Proof.
  intros H. unfold Paths_Find. destruct (paths !! k); [done|]. by rewrite H.
Qed.

Lemma mergePathStep_hit paths p dest src :
  paths !! p = Some dest ->
  mergePathStep paths (p, src) = <[p := mergePathItem dest src]> paths.
Proof. intros H. unfold mergePathStep, Paths_Find. simpl. by rewrite H. Qed.

(** [Paths.Find] returns an item of the map, with its key. *)
Lemma Paths_Find_Some paths key k' item :
  Paths_Find paths key = Some (k', item) -> paths !! k' = Some item.
Proof.
  unfold Paths_Find. destruct (paths !! key) as [item0|] eqn:E.
  - by intros [= <- <-].
  - destruct (Find_templated paths key) as [k0|]; [|done].
    destruct (paths !! k0) as [item0|] eqn:E0; [|done].
    by intros [= <- <-].
Qed.

Lemma Paths_Find_None paths key : Paths_Find paths key = None -> paths !! key = None.
Proof. unfold Paths_Find. by destruct (paths !! key). Qed.

(** Whatever [Paths.Find] returns, a step of the path loop keeps every
    path of the composite and every operation it has. *)
Lemma mergePathStep_keeps paths e k x :
  paths !! k = Some x ->
  exists x', mergePathStep paths e !! k = Some x' /\
    (forall method o, opAt method x = Some o -> opAt method x' = Some o) /\
    (forall q, q ∈ PathItem_Parameters x -> q ∈ PathItem_Parameters x').
Proof.
  intros Hk. unfold mergePathStep.
  destruct (Paths_Find paths e.1) as [[k' existing]|] eqn:Ef.
  - apply Paths_Find_Some in Ef. destruct (decide (k' = k)) as [->|Hne].
    + assert (existing = x) as -> by congruence.
      exists (mergePathItem x e.2). split; [apply lookup_insert_eq|]. split.
      * intros method o Ho. by rewrite mergePathItem_opAt, Ho.
      * intros q Hq.
        destruct (mergeParams_spec (PathItem_Parameters e.2) (PathItem_Parameters x))
          as (added & E & _).
        unfold mergePathItem. cbn [PathItem_Parameters]. rewrite E.
        apply elem_of_app. by left.
    + exists x. split; [by rewrite lookup_insert_ne|done].
  - apply Paths_Find_None in Ef. exists x. split; [|done].
    rewrite lookup_insert_ne; [done|]. intros Heq. rewrite Heq in Ef. congruence.
Qed.

Lemma mergePaths_keeps (order : list (string * PathItem)) paths k x :
  paths !! k = Some x ->
  exists x', mergePaths paths order !! k = Some x' /\
    (forall method o, opAt method x = Some o -> opAt method x' = Some o) /\
    (forall q, q ∈ PathItem_Parameters x -> q ∈ PathItem_Parameters x').
Proof.
  unfold mergePaths. revert paths x.
  induction order as [|e order IH]; intros paths x Hk.
  - by exists x.
  - destruct (mergePathStep_keeps paths e k x Hk) as (x1 & Hk1 & Hops1 & Hps1).
    destruct (IH _ x1 Hk1) as (x2 & Hk2 & Hops2 & Hps2).
    exists x2. split; [exact Hk2|]. split.
    + intros method o Ho. by apply Hops2, Hops1.
    + intros q Hq. by apply Hps2, Hps1.
Qed.

(** Whatever [Paths.Find] returns, an operation of a path of the composite
    after the loop was there before, under the same path, or is an
    operation of a path item of the document. *)
Lemma mergePaths_origin (master docPaths : gmap string PathItem)
    (order : list (string * PathItem)) (paths : gmap string PathItem) :
  (forall e, e ∈ order -> docPaths !! e.1 = Some e.2) ->
  (forall k x method o, paths !! k = Some x -> opAt method x = Some o ->
     (exists x0, master !! k = Some x0 /\ opAt method x0 = Some o) \/
     (exists k' src', docPaths !! k' = Some src' /\ opAt method src' = Some o)) ->
  forall k x method o,
    mergePaths paths order !! k = Some x -> opAt method x = Some o ->
    (exists x0, master !! k = Some x0 /\ opAt method x0 = Some o) \/
    (exists k' src', docPaths !! k' = Some src' /\ opAt method src' = Some o).
Proof.
  unfold mergePaths. revert paths.
  induction order as [|e order IH]; intros paths Hdoc Hinv; [exact Hinv|].
  simpl. apply IH; [intros e' He'; apply Hdoc; by right|].
  assert (He : docPaths !! e.1 = Some e.2) by (apply Hdoc; by left).
  intros k x method o Hk Ho. unfold mergePathStep in Hk.
  destruct (Paths_Find paths e.1) as [[k' existing]|] eqn:Ef.
  - apply Paths_Find_Some in Ef. destruct (decide (k' = k)) as [->|Hne].
    + rewrite lookup_insert_eq in Hk. injection Hk as <-.
      rewrite mergePathItem_opAt in Ho.
      destruct (opAt method existing) as [o'|] eqn:Eo.
      * injection Ho as ->. by apply (Hinv k existing method o).
      * right. by exists e.1, e.2.
    + rewrite lookup_insert_ne in Hk by done. by apply (Hinv k x method o).
  - destruct (decide (e.1 = k)) as [Heq|Hne].
    + rewrite Heq, lookup_insert_eq in Hk. injection Hk as <-.
      right. by exists e.1, e.2.
    + rewrite lookup_insert_ne in Hk by done. by apply (Hinv k x method o).
Qed.

Lemma dom_insert_keys (paths : gmap string PathItem) k0 x (keys : list string)
    (d : gset string) :
  d ⊆ dom (<[k0 := x]> paths) ∪ list_to_set keys ->
  d ⊆ dom paths ∪ list_to_set (k0 :: keys).
Proof.
  intros H k Hk. specialize (H k Hk). rewrite dom_insert in H.
  rewrite list_to_set_cons.
  apply elem_of_union in H as [H|H].
  - apply elem_of_union in H as [H|H].
    + apply elem_of_union. right. apply elem_of_union. by left.
    + apply elem_of_union. by left.
  - apply elem_of_union. right. apply elem_of_union. by right.
Qed.

(** The path loop, key by key, when the lookups of the loop are exact. *)
Lemma mergePaths_lookup (order : list (string * PathItem)) (paths : gmap string PathItem) k :
  NoDup order.*1 ->
  (forall m key,
     dom paths ⊆ dom m -> dom m ⊆ dom paths ∪ list_to_set order.*1 ->
     key ∈ order.*1 -> m !! key = None -> Find_templated m key = None) ->
  mergePaths paths order !! k
  = match list_find (fun e => e.1 = k) order with
    | Some (_, e) => Some (mergedEntry (paths !! k) e.2)
    | None => paths !! k
    end.
Proof.
  unfold mergePaths. revert paths.
  induction order as [|[k0 src] order IH]; intros paths Hnd Hno; [done|].
  apply NoDup_cons in Hnd as [Hnotin Hnd]. simpl.
  assert (Hstep : mergePathStep paths (k0, src)
                  = <[k0 := mergedEntry (paths !! k0) src]> paths).
  { unfold mergePathStep. simpl. rewrite Paths_Find_exact.
    - by destruct (paths !! k0).
    - apply Hno; [done|apply union_subseteq_l|by left]. }
  rewrite Hstep, IH; [|done|].
  - case_decide as Hk; simpl.
    + subst k. destruct (list_find _ order) as [[i e']|] eqn:Hf; simpl.
      * apply list_find_Some in Hf as (Hl & He' & _).
        exfalso. apply Hnotin. rewrite <- He'.
        apply list_elem_of_fmap. exists e'. split; [done|].
        by eapply list_elem_of_lookup_2.
      * by rewrite lookup_insert_eq.
    + destruct (list_find _ order) as [[i e']|] eqn:Hf; simpl;
        by rewrite lookup_insert_ne.
  - intros m key Hsub Hsup Hkey. apply Hno; [| |by right].
    + etrans; [|exact Hsub]. rewrite dom_insert. apply union_subseteq_r.
    + by apply (dom_insert_keys paths k0 (mergedEntry (paths !! k0) src)).
Qed.

Lemma range_of_keys {V} (m : gmap string V) (order : list (string * V)) key :
  range_of m order -> key ∈ order.*1 <-> is_Some (m !! key).
Proof.
  intros Hr. rewrite list_elem_of_fmap. split.
  - intros ([k v] & -> & Hin). apply (range_of_elem _ _ _ _ Hr) in Hin. by exists v.
  - intros [v Hv]. exists (key, v). split; [done|]. by apply (range_of_elem _ _ _ _ Hr).
Qed.

(** The same in terms of the document's path map. *)
Lemma mergePaths_range (master docPaths : gmap string PathItem)
    (order : list (string * PathItem)) (k : string) :
  range_of docPaths order ->
  noTemplatedMatch master docPaths ->
  mergePaths master order !! k
  = match docPaths !! k with
    | Some src => Some (mergedEntry (master !! k) src)
    | None => master !! k
    end.
Proof.
  intros Hr Hno. rewrite mergePaths_lookup.
  - pose proof (range_of_find docPaths order k Hr) as Hf.
    destruct (docPaths !! k) as [src|].
    + destruct (list_find _ order) as [[i e]|]; [|done]. simpl in Hf.
      by injection Hf as ->.
    + by destruct (list_find _ order) as [[i e]|].
  - by eapply range_of_NoDup.
  - intros m key Hsub Hsup Hkey. apply Hno; [done| |by apply (range_of_keys _ order)].
    intros k' Hk'. specialize (Hsup k' Hk').
    apply elem_of_union in Hsup as [H|H]; apply elem_of_union; [by left|right].
    apply elem_of_list_to_set in H. apply elem_of_dom.
    by apply (range_of_keys _ order).
Qed.

(** C3. A path of the incoming document that the composite already has is
    merged into the composite's path item.  The loop body, on any state of
    the composite that holds the path, stores the merge of the two path
    items under it.  In the merged path item each method has the
    composite's operation when the composite has one, else the incoming
    one; its path-level parameters are the composite's, in place,
    followed by the incoming parameters that no earlier entry equals in
    name and location (an entry without a value equals none).  After the
    whole path loop the path is still there, with every operation the
    composite had for it and an operation for every method of the incoming
    path item, and each of its operations is the composite's or an
    operation of the document, whatever [Paths.Find] resolves the other
    keys of the document to; when all its lookups are exact, the path holds exactly
    the merge of the two path items.  Merging [/users] GET into a
    composite with [/users] POST gives the single path [/users] with
    both. *)
Theorem C3_mergePathItem_union (master : gmap string PathItem)
    (docPaths : gmap string PathItem) (order : list (string * PathItem))
    (p : string) (dest src : PathItem) :
  range_of docPaths order ->
  master !! p = Some dest ->
  docPaths !! p = Some src ->
  mergePathStep master (p, src) = <[p := mergePathItem dest src]> master /\
  (forall method,
     opAt method (mergePathItem dest src)
     = match opAt method dest with
       | Some o => Some o
       | None => opAt method src
       end) /\
  (exists added,
     PathItem_Parameters (mergePathItem dest src) = PathItem_Parameters dest ++ added /\
     added `sublist_of` PathItem_Parameters src /\
     (forall q, q ∈ PathItem_Parameters src ->
        q ∈ added \/
        exists e, e ∈ PathItem_Parameters dest ++ added /\ sameNameLocation e q) /\
     (forall pre q post, added = pre ++ q :: post ->
        forall e, e ∈ PathItem_Parameters dest ++ pre -> ~ sameNameLocation e q)) /\
  (exists final,
     mergePaths master order !! p = Some final /\
     (forall method o, opAt method dest = Some o -> opAt method final = Some o) /\
     (forall method, is_Some (opAt method src) -> is_Some (opAt method final)) /\
     (forall method o, opAt method final = Some o ->
        opAt method dest = Some o \/
        exists k' src', docPaths !! k' = Some src' /\ opAt method src' = Some o) /\
     (forall q, q ∈ PathItem_Parameters dest -> q ∈ PathItem_Parameters final) /\
     (noTemplatedMatch master docPaths -> final = mergePathItem dest src)) /\
  (forall h input o,
     master_Paths <$>
       (match mergeSpec h usersPostMaster usersGetSpec input
                [("/users", itemGet (opTagged "list"))] o with
        | Ok m => Some m
        | Err _ => None
        end)
     = Some {[ "/users" :=
                 mkPathItem (Some (opTagged "list")) (Some (opTagged "create"))
                   None None None None None None [] ]}).
Proof.
  intros Hr Hm Hd. split; [by apply mergePathStep_hit|]. split; [|split; [|split]].
  - intros method. apply mergePathItem_opAt.
  - destruct (mergeParams_spec (PathItem_Parameters src) (PathItem_Parameters dest))
      as (added & E & Hsub & Hrep & Huniq).
    exists added. split; [exact E|]. split; [exact Hsub|]. split.
    + intros q Hq. destruct (Hrep q Hq) as [Ha|(e & He & Hs)]; [by left|].
      right. exists e. split; [done|]. by apply sameParamRef_iff.
    + intros pre q post Eadd e He. apply sameParamRef_false_iff.
      by apply (Huniq pre q post Eadd).
  - assert (Hin : (p, src) ∈ order) by by apply (range_of_elem _ _ _ _ Hr).
    apply list_elem_of_split in Hin as (pre & post & Eorder).
    destruct (mergePaths_keeps pre master p dest Hm) as (d1 & Hd1 & Hops1 & Hps1).
    assert (Estep : mergePaths master order
                    = mergePaths (<[p := mergePathItem d1 src]> (mergePaths master pre))
                        post).
    { rewrite Eorder. unfold mergePaths. rewrite foldl_app. simpl.
      by rewrite (mergePathStep_hit _ p d1 src). }
    destruct (mergePaths_keeps post (<[p := mergePathItem d1 src]> (mergePaths master pre))
                p (mergePathItem d1 src) (lookup_insert_eq _ _ _))
      as (final & Hfinal & Hops2 & Hps2).
    exists final. split; [by rewrite Estep|]. split; [|split; [|split; [|split]]].
    + intros method o Ho. apply Hops2. rewrite mergePathItem_opAt.
      by rewrite (Hops1 method o Ho).
    + intros method [o Ho].
      destruct (opAt method d1) as [o1|] eqn:E1.
      * exists o1. apply Hops2. by rewrite mergePathItem_opAt, E1.
      * exists o. apply Hops2. by rewrite mergePathItem_opAt, E1.
    + intros method o Ho. rewrite <- Estep in Hfinal.
      destruct (mergePaths_origin master docPaths order master) with
        (k := p) (x := final) (method := method) (o := o)
        as [(x0 & Hx0 & Hox0)|Hdoc]; try done.
      * intros [k v] Hin. by apply (range_of_elem _ _ _ _ Hr).
      * intros k x method' o' Hk Ho'. left. by exists x.
      * left. by assert (x0 = dest) as -> by congruence.
      * by right.
    + intros q Hq. apply Hps2.
      destruct (mergeParams_spec (PathItem_Parameters src) (PathItem_Parameters d1))
        as (added & E & _).
      unfold mergePathItem. cbn [PathItem_Parameters]. rewrite E.
      apply elem_of_app. left. by apply Hps1.
    + intros Hno. pose proof (mergePaths_range master docPaths order p Hr Hno) as Hl.
      rewrite Estep, Hd, Hm, Hfinal in Hl. simpl in Hl. by injection Hl.
  - intros h input o. unfold mergeSpec. simpl.
    unfold mergePaths. simpl. rewrite mergePathStep_hit with (dest := itemPost (opTagged "create")).
    + by rewrite insert_singleton_eq.
    + apply lookup_singleton_eq.
Qed.

(** ** Parameter injector/remover *)

Lemma existsb_elem_of {A} (f : A -> bool) (l : list A) :
  existsb f l = true <-> exists x, x ∈ l /\ f x = true.
Proof.
  rewrite existsb_exists. split; intros (x & Hx & Hf); exists x; split; try done.
  - by apply list_elem_of_In.
  - by apply list_elem_of_In.
Qed.

Lemma existsb_false_elem_of {A} (f : A -> bool) (l : list A) :
  existsb f l = false <-> forall x, x ∈ l -> f x = false.
Proof.
  split.
  - intros H x Hx. destruct (f x) eqn:E; [|done].
    assert (existsb f l = true); [|congruence].
    apply existsb_elem_of. by exists x.
  - intros H. destruct (existsb f l) eqn:E; [|done].
    apply existsb_elem_of in E as (x & Hx & Hf). rewrite (H x Hx) in Hf. done.
Qed.

Lemma isExcluded_iff filters v :
  isExcluded filters v = true <->
  exists f, f ∈ filters /\ ParamFilter_Name f = Param_Name v /\
            (ParamFilter_In f = "" \/ ParamFilter_In f = Param_In v).
Proof.
  unfold isExcluded. rewrite existsb_elem_of.
  split; intros (f & Hf & H); exists f; (split; [done|]).
  - apply andb_true_iff in H as [Hn Hi]. apply String.eqb_eq in Hn.
    split; [done|]. apply orb_true_iff in Hi as [Hi|Hi].
    + left. apply negb_true_iff in Hi. by apply nonEmpty_false.
    + right. by apply String.eqb_eq.
  - destruct H as [Hn Hi]. apply andb_true_iff. split; [by apply String.eqb_eq|].
    apply orb_true_iff. destruct Hi as [Hi|Hi].
    + left. by rewrite Hi.
    + right. by apply String.eqb_eq.
Qed.


Lemma alloc_fresh o (h : heap) : h !! (alloc o h).1 = None.
Proof. unfold alloc. simpl. apply not_elem_of_dom, is_fresh. Qed.

Lemma alloc_subseteq o (h : heap) : h ⊆ (alloc o h).2.
Proof. unfold alloc. simpl. apply insert_subseteq, not_elem_of_dom, is_fresh. Qed.

Lemma alloc_lookup o (h : heap) : (alloc o h).2 !! (alloc o h).1 = Some o.
Proof. unfold alloc. simpl. apply lookup_insert_eq. Qed.

Lemma injectParam_unfold ps h c :
  injectParam (ps, h) c
  = (if existsb (sameKeyCfg c) ps then ps
     else ps ++ [mkParameterRef "" (Some (paramOfConfig c (alloc (schemaOfConfig c) h).1))],
     (alloc (schemaOfConfig c) h).2).
Proof. reflexivity. Qed.

Lemma existsb_app_false {A} (f : A -> bool) l1 l2 :
  existsb f (l1 ++ l2) = false -> existsb f l1 = false /\ existsb f l2 = false.
Proof. rewrite existsb_app. by intros [? ?]%orb_false_iff. Qed.

Lemma inject_spec (cfgs : list ParameterConfig) (ps : list ParameterRef) (h : heap) :
  exists injected h1,
    foldl injectParam (ps, h) cfgs = (ps ++ injected, h1) /\
    h ⊆ h1 /\
    injection_of cfgs ps injected h h1.
Proof.
  revert ps h. induction cfgs as [|c cfgs IH]; intros ps h.
  - exists [], h. simpl. rewrite app_nil_r. split; [done|]. split; [done|].
    split; [by intros ? ?%elem_of_nil|]. split; [by intros ? ?%elem_of_nil|].
    intros pre c post E. by destruct pre.
  - simpl. rewrite injectParam_unfold.
    set (a := alloc (schemaOfConfig c) h).
    pose proof (alloc_fresh (schemaOfConfig c) h) as Hfresh.
    pose proof (alloc_subseteq (schemaOfConfig c) h) as Hsub.
    pose proof (alloc_lookup (schemaOfConfig c) h) as Hlook.
    fold a in Hfresh, Hsub, Hlook.
    destruct (existsb (sameKeyCfg c) ps) eqn:Hex.
    + destruct (IH ps a.2) as (injected & h1 & E & Hh & (A & B & C)).
      exists injected, h1. split; [done|]. split; [by etrans|].
      split; [|split].
      * intros c0 [->|Hin]%elem_of_cons; [|by apply A].
        rewrite existsb_app, Hex. done.
      * intros q Hq. destruct (B q Hq) as (c0 & l & Hc0 & -> & Hl & Hl1 & He).
        exists c0, l. repeat split; try done; [by right|].
        destruct (h !! l) eqn:E0; [|done].
        eapply lookup_weaken in E0; [|exact Hsub]. congruence.
      * intros pre c0 post Ecfg He Hpre. destruct pre as [|c1 pre]; simpl in Ecfg.
        -- injection Ecfg as <- <-. congruence.
        -- injection Ecfg as <- ->. apply (C pre c0 post eq_refl He).
           intros c' Hc'. apply Hpre. by right.
    + set (q0 := mkParameterRef "" (Some (paramOfConfig c a.1))).
      destruct (IH (ps ++ [q0]) a.2) as (injected & h1 & E & Hh & (A & B & C)).
      exists (q0 :: injected), h1.
      split; [by rewrite E, <- app_assoc|]. split; [by etrans|].
      split; [|split].
      * intros c0 [->|Hin]%elem_of_cons.
        -- rewrite existsb_app. apply orb_true_iff. right. simpl.
           unfold sameKeyCfg. simpl. by rewrite !String.eqb_refl.
        -- specialize (A c0 Hin). by rewrite <- app_assoc in A.
      * intros q [->|Hq]%elem_of_cons.
        -- exists c, a.1. repeat split; try done; [by left|].
           by eapply lookup_weaken.
        -- destruct (B q Hq) as (c0 & l & Hc0 & -> & Hl & Hl1 & He).
           exists c0, l. repeat split; try done; [by right| |].
           ++ destruct (h !! l) eqn:E0; [|done].
              eapply lookup_weaken in E0; [|exact Hsub]. congruence.
           ++ by apply existsb_app_false in He as [? _].
      * intros pre c0 post Ecfg He Hpre. destruct pre as [|c1 pre]; simpl in Ecfg.
        -- injection Ecfg as <- <-. exists a.1. split; [by left|].
           by eapply lookup_weaken.
        -- injection Ecfg as <- ->.
           destruct (C pre c0 post eq_refl) as (l & Hin & Hl).
           ++ rewrite existsb_app, He. simpl. rewrite orb_false_r.
              apply Hpre. by left.
           ++ intros c' Hc'. apply Hpre. by right.
           ++ exists l. split; [by right|done].
Qed.

Lemma injectAll_foldl input ps h :
  injectAll input ps h = foldl injectParam (ps, h) (IncludeExtraParameters input).
Proof. unfold injectAll. by destruct (IncludeExtraParameters input). Qed.

Lemma removeAll_filter input ps :
  removeAll input ps = removeExcluded (ExcludeParameters input) ps.
Proof.
  unfold removeAll. destruct (ExcludeParameters input) eqn:E; [|done]. simpl.
  unfold removeExcluded. induction ps as [|p ps IH]; [done|].
  rewrite filter_cons, decide_True, <- IH; [done|].
  unfold keptParam. by destruct (ParameterRef_Value p).
Qed.

(** What the stage does to one operation. *)
Lemma modifyOperationParameters_spec input op h :
  exists injected,
    Operation_Parameters (modifyOperationParameters input op h).1
    = removeExcluded (ExcludeParameters input) (Operation_Parameters op ++ injected) /\
    h ⊆ (modifyOperationParameters input op h).2 /\
    injection_of (IncludeExtraParameters input) (Operation_Parameters op) injected
      h (modifyOperationParameters input op h).2.
Proof.
  unfold modifyOperationParameters. simpl. rewrite removeAll_filter, injectAll_foldl.
  destruct (inject_spec (IncludeExtraParameters input) (Operation_Parameters op) h)
    as (injected & h1 & -> & Hh & Hinj).
  by exists injected.
Qed.

Lemma modifyOptionalOperation_subseteq input o h :
  h ⊆ (modifyOptionalOperation input o h).2.
Proof.
  destruct o as [op|]; simpl; [|done].
  by destruct (modifyOperationParameters_spec input op h) as (? & _ & ? & _).
Qed.

Lemma modifyPathItemParameters_subseteq input p h :
  h ⊆ (modifyPathItemParameters input p h).2.
Proof.
  unfold modifyPathItemParameters. simpl.
  repeat (etrans; [|apply modifyOptionalOperation_subseteq]). done.
Qed.




Arguments modifyPathItemParameters : simpl never.

Lemma modifyParametersLoop_spec input (order : list (string * PathItem))
    (acc : gmap string PathItem) (h : heap) :
  NoDup order.*1 ->
  h ⊆ (foldl (modifyParametersStep input) (acc, h) order).2 /\
  (forall k p, (k, p) ∈ order ->
     exists hi, h ⊆ hi /\
       (modifyPathItemParameters input p hi).2
         ⊆ (foldl (modifyParametersStep input) (acc, h) order).2 /\
       (foldl (modifyParametersStep input) (acc, h) order).1 !! k
       = Some (modifyPathItemParameters input p hi).1) /\
  (forall k, k ∉ order.*1 ->
     (foldl (modifyParametersStep input) (acc, h) order).1 !! k = acc !! k).
Proof.
  revert acc h. induction order as [|[k0 p0] order IH]; intros acc h Hnd.
  - split; [done|]. split; [by intros ?? ?%elem_of_nil|done].
  - rewrite fmap_cons in Hnd. apply NoDup_cons in Hnd as [Hnotin Hnd].
    change (foldl (modifyParametersStep input) (acc, h) ((k0, p0) :: order))
      with (foldl (modifyParametersStep input)
              (<[k0 := (modifyPathItemParameters input p0 h).1]> acc,
               (modifyPathItemParameters input p0 h).2) order).
    set (r0 := modifyPathItemParameters input p0 h).
    pose proof (modifyPathItemParameters_subseteq input p0 h) as Hsub. fold r0 in Hsub.
    destruct (IH (<[k0 := r0.1]> acc) r0.2 Hnd) as (Hh & Hin & Hout).
    split; [by etrans|]. split.
    + intros k p [[= -> ->]|Hkp]%elem_of_cons.
      * exists h. split; [done|]. split; [exact Hh|].
        rewrite Hout by done. apply lookup_insert_eq.
      * destruct (Hin k p Hkp) as (hi & ? & ? & ?).
        exists hi. split; [by etrans|done].
    + intros k Hk. rewrite fmap_cons in Hk. apply not_elem_of_cons in Hk as [Hne Hk].
      rewrite Hout by done. simpl in Hne. by rewrite lookup_insert_ne.
Qed.

Lemma removeExcluded_elem filters ps q :
  q ∈ removeExcluded filters ps <-> q ∈ ps /\ keptParam filters q = true.
Proof. unfold removeExcluded. rewrite list_elem_of_filter. tauto. Qed.






(** ** Output ordering *)

Lemma swapPass_perm x rest :
  (swapPass x rest).1 :: (swapPass x rest).2 ≡ₚ x :: rest.
Proof.
  revert x. induction rest as [|y rest IH]; intros x; simpl; [done|].
  destruct (String.ltb y x); simpl.
  - rewrite Permutation_swap. by rewrite IH.
  - rewrite Permutation_swap. rewrite IH. apply Permutation_swap.
Qed.

Lemma exchangeSort_perm n l : exchangeSort n l ≡ₚ l.
Proof.
  revert l. induction n as [|n IH]; intros l; [by destruct l|].
  destruct l as [|x rest]; [done|]. simpl.
  rewrite IH. apply swapPass_perm.
Qed.

Lemma sortedPathKeys_elem pathsOrder allPaths k :
  k ∈ sortedPathKeys pathsOrder allPaths <-> k ∈ allPaths.
Proof.
  unfold sortedPathKeys. rewrite elem_of_app, exchangeSort_perm.
  rewrite list_elem_of_filter. split.
  - intros [Hin|[_ Hin]]; [|done].
    apply list_elem_of_In, in_flat_map in Hin as (pp & _ & Hin).
    by apply list_elem_of_In, list_elem_of_filter in Hin as [_ ?].
  - intros Hin. destruct (existsb (String.eqb k) pathsOrder) eqn:E; [|by right].
    left. apply existsb_exists in E as (pp & Hpp & Heq).
    apply String.eqb_eq in Heq. subst pp.
    apply list_elem_of_In, in_flat_map. exists k. split; [done|].
    apply list_elem_of_In, list_elem_of_filter. done.
Qed.

Lemma orderedPaths_lookup (paths : gmap string JSONValue) (keys : list string) k :
  foldl (fun (orderedPaths : gmap string JSONValue) path =>
           <[path := mapIndex paths path]> orderedPaths) ∅ keys !! k
  = if decide (k ∈ keys) then Some (mapIndex paths k) else None.
Proof.
  induction keys as [|x keys IH] using rev_ind; [done|].
  rewrite foldl_app. simpl. destruct (decide (x = k)) as [->|Hx].
  - rewrite lookup_insert_eq. rewrite decide_True; [done|].
    apply elem_of_app. right. by left.
  - rewrite lookup_insert_ne by done. rewrite IH. destruct (decide (k ∈ keys)) as [Hin|Hnin].
    + rewrite decide_True; [done|]. apply elem_of_app. by left.
    + rewrite decide_False; [done|].
      intros [?|?%list_elem_of_singleton]%elem_of_app; done.
Qed.

(** The map [sortPaths] returns is the map it was given, whatever the
    priority list. *)
Lemma sortPaths_same cfg (paths : gmap string JSONValue) (allPaths : list string) :
  allPaths ≡ₚ (map_to_list paths).*1 ->
  sortPaths cfg paths allPaths = paths.
Proof.
  intros Hp. apply map_eq. intros k. unfold sortPaths.
  rewrite orderedPaths_lookup. unfold mapIndex.
  destruct (paths !! k) as [v|] eqn:Hk.
  - rewrite decide_True; [done|]. apply sortedPathKeys_elem. rewrite Hp.
    apply list_elem_of_fmap. exists (k, v). split; [done|].
    by apply elem_of_map_to_list.
  - rewrite decide_False; [done|]. rewrite sortedPathKeys_elem, Hp.
    intros ([k' v] & -> & Hin)%list_elem_of_fmap.
    apply elem_of_map_to_list in Hin. simpl in Hk. congruence.
Qed.

(** C7 (the code does not do what the claim says).  [sortPaths] computes
    the order the claim describes in its local slice, with a priority path
    repeated in the configuration repeated in the slice, and then stores
    the entries in a Go map: the map it returns is the map it was given,
    for every priority list.  With the paths [/a] and [/b] and the priority
    list [/b], the result is the same as with no priority list, and the
    encoded keys are [/a], [/b]. *)
Theorem C7_sortPaths_priority_lost :
  (forall cfg (paths : gmap string JSONValue) allPaths,
      allPaths ≡ₚ (map_to_list paths).*1 -> sortPaths cfg paths allPaths = paths) /\
  sortedPathKeys ["/b"] ["/a"; "/b"] = ["/b"; "/a"] /\
  sortedPathKeys ["/b"; "/b"] ["/a"; "/b"] = ["/b"; "/b"; "/a"] /\
  createSortedSpec bFirst abMaster ["/a"; "/b"]
    = createSortedSpec noOrder abMaster ["/a"; "/b"] /\
  createSortedSpec bFirst abMaster ["/b"; "/a"]
    = createSortedSpec noOrder abMaster ["/a"; "/b"] /\
  encodedKeys (createSortedSpec bFirst abMaster ["/a"; "/b"]) = ["/a"; "/b"].
Proof.
  split; [apply sortPaths_same|]. repeat split; reflexivity.
Qed.

(** ** Composite merger: components *)

Lemma mergeFirstWins_union {V} (order : list (string * V)) (dst : gmap string V) :
  mergeFirstWins dst order = dst ∪ list_to_map order.
Proof.
  unfold mergeFirstWins. revert dst.
  induction order as [|[k v] order IH]; intros dst; simpl.
  - by rewrite (right_id_L ∅ (∪)).
  - rewrite IH. apply map_eq. intros i. rewrite !lookup_union.
    destruct (dst !! k) as [w|] eqn:Hk.
    + destruct (decide (k = i)) as [->|Hne].
      * rewrite Hk, lookup_insert_eq. by destruct (list_to_map order !! i).
      * by rewrite lookup_insert_ne.
    + destruct (decide (k = i)) as [->|Hne].
      * rewrite Hk, !lookup_insert_eq.
        destruct (list_to_map order !! i); reflexivity.
      * by rewrite !lookup_insert_ne.
Qed.

Lemma range_of_list_to_map {V} (m : gmap string V) order :
  range_of m order -> list_to_map order = m.
Proof.
  intros Hr. rewrite <- (list_to_map_to_list m).
  apply list_to_map_proper; [by eapply range_of_NoDup | exact Hr].
Qed.

Lemma mergeFirstWins_range {V} (dst src : gmap string V) order :
  range_of src order -> mergeFirstWins dst order = dst ∪ src.
Proof. intros Hr. by rewrite mergeFirstWins_union, (range_of_list_to_map src). Qed.

Lemma mergeSchemas_spec (h : heap) (order : list (string * option loc))
    (schemas : gmap string (option loc)) :
  NoDup order.*1 ->
  (exists pre e post,
      order = pre ++ e :: post /\
      collides h schemas e = true /\
      Forall (fun x => collides h schemas x = false) pre /\
      mergeSchemas h false schemas order = Err (collisionError e.1)) \/
  (Forall (fun x => collides h schemas x = false) order /\
   mergeSchemas h false schemas order = Ok (mergeFirstWins schemas order)).
Proof.
  revert schemas. induction order as [|[name schema] order IH]; intros schemas Hnd.
  - right. by split.
  - rewrite fmap_cons in Hnd. apply NoDup_cons in Hnd as [Hnotin Hnd].
    simpl in Hnotin. simpl.
    destruct (schemas !! name) as [existing|] eqn:Hname.
    + destruct (schemasEqual h existing schema) eqn:Heq; simpl.
      * destruct (IH schemas Hnd) as [(pre & e & post & -> & Hc & Hpre & Hm)|[Hall Hm]].
        -- left. exists ((name, schema) :: pre), e, post. split; [done|].
           split; [done|]. split; [|done]. constructor; [|done].
           unfold collides. simpl. by rewrite Hname, Heq.
        -- right. split.
           ++ constructor; [|done]. unfold collides. simpl. by rewrite Hname, Heq.
           ++ exact Hm.
      * left. exists [], (name, schema), order. split; [done|].
        split; [|done]. unfold collides. simpl. by rewrite Hname, Heq.
    + assert (Hsame : forall x, x ∈ order ->
                collides h (<[name := schema]> schemas) x = collides h schemas x).
      { intros [k v] Hin. unfold collides. simpl. rewrite lookup_insert_ne; [done|].
        intros ->. apply Hnotin. apply list_elem_of_fmap. by exists (k, v). }
      destruct (IH (<[name := schema]> schemas) Hnd)
        as [(pre & e & post & -> & Hc & Hpre & Hm)|[Hall Hm]].
      * left. exists ((name, schema) :: pre), e, post. split; [done|].
        split; [|split; [|done]].
        -- rewrite <- Hsame; [done|]. apply elem_of_app. right. by left.
        -- constructor; [unfold collides; simpl; by rewrite Hname|].
           rewrite Forall_forall in Hpre |- *. intros x Hx.
           rewrite <- Hsame; [by apply Hpre|]. apply elem_of_app. by left.
      * right. split.
        -- constructor; [unfold collides; simpl; by rewrite Hname|].
           rewrite Forall_forall in Hall |- *. intros x Hx.
           rewrite <- Hsame; [by apply Hall|done].
        -- exact Hm.
Qed.

(** With a dispute prefix no collision is reported. *)
Lemma mergeSchemas_disputed (h : heap) (order : list (string * option loc))
    (schemas : gmap string (option loc)) :
  mergeSchemas h true schemas order = Ok (mergeFirstWins schemas order).
Proof.
  revert schemas. induction order as [|[name schema] order IH]; intros schemas; [done|].
  simpl. unfold mergeFirstWins. simpl.
  destruct (schemas !! name) as [existing|] eqn:Hname.
  - rewrite andb_false_r. apply IH.
  - apply IH.
Qed.

Lemma collides_colliding h ms ds order name s :
  range_of ds order -> (name, s) ∈ order ->
  collides h ms (name, s) = true <-> colliding h ms ds name.
Proof.
  intros Hr Hin. apply (range_of_elem _ _ _ _ Hr) in Hin.
  unfold collides, colliding. simpl. split.
  - destruct (ms !! name) as [e|]; [|done]. intros H%negb_true_iff. by exists e, s.
  - intros (e & s' & -> & Hs' & Heq). rewrite Hin in Hs'. injection Hs' as <-.
    by rewrite Heq.
Qed.

Lemma mergeComponents_schemas h master input o :
  mergeComponents h master input o
  = match mergeSchemas h (hasDisputePrefix input) (Components_Schemas master)
            (order_Schemas o) with
    | Err e => Err e
    | Ok schemas =>
        Ok {| Components_Schemas := schemas;
              Components_Responses :=
                mergeFirstWins (Components_Responses master) (order_Responses o);
              Components_Parameters :=
                mergeFirstWins (Components_Parameters master) (order_Parameters o);
              Components_SecuritySchemes :=
                mergeFirstWins (Components_SecuritySchemes master)
                  (order_SecuritySchemes o);
              Components_RequestBodies :=
                mergeFirstWins (Components_RequestBodies master) (order_RequestBodies o);
              Components_Examples :=
                mergeFirstWins (Components_Examples master) (order_Examples o);
              Components_Headers :=
                mergeFirstWins (Components_Headers master) (order_Headers o);
              Components_Links :=
                mergeFirstWins (Components_Links master) (order_Links o);
              Components_Callbacks :=
                mergeFirstWins (Components_Callbacks master) (order_Callbacks o) |}
    end.
Proof. reflexivity. Qed.

(** C1 (amended).  When a document without dispute prefix brings a schema
    that differs from the composite's schema of the same name, the merge
    of that document fails with a collision error that names the first
    such schema the loop meets (so the only one, when there is only one).
    When the document has a dispute prefix, or every incoming schema whose
    name the composite has is equal to the composite's, the merge of the
    document succeeds and the composite keeps its own schema under every
    name it had, next to the new ones. *)
Theorem C1_schema_collision (h : heap) (master : Master) (spec : T)
    (input : InputConfig) (comps : Components)
    (pathOrder : list (string * PathItem)) (o : ComponentsOrder) :
  T_Components spec = Some comps ->
  range_of_components comps o ->
  let ms := Components_Schemas (master_Components master) in
  let ds := Components_Schemas comps in
  (hasDisputePrefix input = false ->
   (exists name, colliding h ms ds name) ->
   exists pre name schema post,
     order_Schemas o = pre ++ (name, schema) :: post /\
     colliding h ms ds name /\
     (forall x, x ∈ pre -> ~ colliding h ms ds x.1) /\
     mergeSpec h master spec input pathOrder o = Err (collisionError name) /\
     mergeInput h master spec input pathOrder o
     = Err ("failed to merge " +:+ InputFile input +:+ ": " +:+ collisionError name)) /\
  (forall name, hasDisputePrefix input = false ->
     colliding h ms ds name ->
     (forall name', colliding h ms ds name' -> name' = name) ->
     mergeSpec h master spec input pathOrder o = Err (collisionError name)) /\
  (hasDisputePrefix input = true \/ (forall name, ~ colliding h ms ds name) ->
   exists merged,
     mergeSpec h master spec input pathOrder o = Ok merged /\
     Components_Schemas (master_Components merged) = ms ∪ ds /\
     (forall name e, ms !! name = Some e ->
        Components_Schemas (master_Components merged) !! name = Some e)).
Proof.
  intros Hcomps Hrange ms ds.
  pose proof Hrange as (Hr & _).
  pose proof (range_of_NoDup _ _ Hr) as Hnd.
  assert (Hfail : hasDisputePrefix input = false ->
    (exists name, colliding h ms ds name) ->
    exists pre name schema post,
      order_Schemas o = pre ++ (name, schema) :: post /\
      colliding h ms ds name /\
      (forall x, x ∈ pre -> ~ colliding h ms ds x.1) /\
      mergeSpec h master spec input pathOrder o = Err (collisionError name)).
  { intros Hnp (name & Hcol).
    destruct (mergeSchemas_spec h (order_Schemas o) ms Hnd)
      as [(pre & [n s] & post & Eo & Hc & Hpre & Hm)|[Hall Hm]].
    - exists pre, n, s, post. split; [done|].
      assert (Hin : forall x, x ∈ pre ++ (n, s) :: post -> x ∈ order_Schemas o)
        by (intros x; by rewrite Eo).
      split; [|split].
      + eapply collides_colliding; [exact Hr| |done].
        apply Hin, elem_of_app. right. by left.
      + intros [k v] Hx Hcx. rewrite Forall_forall in Hpre.
        specialize (Hpre _ Hx). simpl in Hcx.
        eapply collides_colliding in Hcx; [|exact Hr|apply Hin, elem_of_app; by left].
        congruence.
      + unfold mergeSpec. rewrite Hcomps, mergeComponents_schemas, Hnp.
        fold ms. by rewrite Hm.
    - exfalso. destruct Hcol as (e & s & He & Hs & Heq).
      assert (Hin : (name, s) ∈ order_Schemas o) by by apply (range_of_elem _ _ _ _ Hr).
      rewrite Forall_forall in Hall. specialize (Hall _ Hin).
      unfold collides in Hall. simpl in Hall. fold ms in He.
      rewrite He, Heq in Hall. done. }
  split; [|split].
  - intros Hnp Hex. destruct (Hfail Hnp Hex) as (pre & name & s & post & ? & ? & ? & Hm).
    exists pre, name, s, post. repeat split; try done.
    unfold mergeInput. by rewrite Hm.
  - intros name Hnp Hcol Honly.
    destruct (Hfail Hnp (ex_intro _ name Hcol)) as (pre & n & s & post & _ & Hc & _ & Hm).
    by rewrite <- (Honly n Hc).
  - intros Hok.
    assert (Hm : mergeSchemas h (hasDisputePrefix input) ms (order_Schemas o)
                 = Ok (ms ∪ ds)).
    { rewrite <- (mergeFirstWins_range ms ds (order_Schemas o) Hr).
      destruct Hok as [Hp|Hnone].
      - rewrite Hp. apply mergeSchemas_disputed.
      - destruct (hasDisputePrefix input); [apply mergeSchemas_disputed|].
        destruct (mergeSchemas_spec h (order_Schemas o) ms Hnd)
          as [(pre & [n s] & post & Eo & Hc & _ & _)|[_ Hm]]; [|done].
        exfalso. apply (Hnone n).
        eapply collides_colliding; [exact Hr| |done].
        rewrite Eo. apply elem_of_app. right. by left. }
    unfold mergeSpec. rewrite Hcomps, mergeComponents_schemas. fold ms.
    rewrite Hm. eexists. split; [reflexivity|]. simpl. split; [done|].
    intros name e He. by apply lookup_union_Some_l.
Qed.

(** ** The traversal of the schema graph *)

Lemma visitAll_app f l1 l2 h :
  visitAll f (l1 ++ l2) h = h' ← visitAll f l1 h; visitAll f l2 h'.
Proof.
  revert h. induction l1 as [|x l1 IH]; intros h; simpl; [done|].
  destruct (f x h) as [h'|]; simpl; [apply IH|done].
Qed.

Lemma visitAll_cons f x l h :
  visitAll f (x :: l) h = h' ← f x h; visitAll f l h'.
Proof. reflexivity. Qed.

Lemma visitAll_one f x h : visitAll f [x] h = f x h.
Proof. simpl. by destruct (f x h). Qed.

(** One call of [updateSchemaRefRefs]: the object is rewritten, then its
    children are visited in turn. *)
Lemma updateSchemaRefRefs_step fuel renames l h :
  updateSchemaRefRefs (S fuel) renames (Some l) h
  = match h !! l with
    | None => Some h
    | Some o =>
        visitAll (updateSchemaRefRefs fuel renames) (children o)
          (<[l := renamed renames o]> h)
    end.
Proof.
  cbn [updateSchemaRefRefs]. destruct (h !! l) as [o|]; [|done].
  unfold children, renamed. destruct (SchemaRef_Value o) as [s|]; [|done].
  unfold schemaChildren.
  rewrite visitAll_cons.
  destruct (updateSchemaRefRefs fuel _ (Schema_Items s) _) as [h1|];
    cbn [mbind option_bind]; [|done].
  rewrite visitAll_app.
  destruct (visitAll _ (Schema_Properties s).*2 h1) as [h2|];
    cbn [mbind option_bind]; [|done].
  rewrite visitAll_cons.
  destruct (updateSchemaRefRefs fuel _ (Schema_AdditionalProperties s) h2) as [h3|];
    cbn [mbind option_bind]; [|done].
  rewrite visitAll_app.
  destruct (visitAll _ (Schema_AllOf s) h3) as [h4|]; cbn [mbind option_bind]; [|done].
  rewrite visitAll_app.
  destruct (visitAll _ (Schema_OneOf s) h4) as [h5|]; cbn [mbind option_bind]; [|done].
  rewrite visitAll_app.
  destruct (visitAll _ (Schema_AnyOf s) h5) as [h6|]; cbn [mbind option_bind]; [|done].
  by rewrite visitAll_one.
Qed.

Lemma updateSchemaRefRefs_nil fuel renames h :
  updateSchemaRefRefs fuel renames None h = Some h.
Proof. by destruct fuel. Qed.

Lemma updateSchemaRefRefs_zero renames l h :
  updateSchemaRefRefs 0 renames (Some l) h = None.
Proof. reflexivity. Qed.

Lemma sameShape_refl h : sameShape h h.
Proof. by intros q. Qed.

Lemma sameShape_trans h1 h2 h3 : sameShape h1 h2 -> sameShape h2 h3 -> sameShape h1 h3.
Proof. intros H1 H2 q. by rewrite H1. Qed.

Lemma sameShape_insert h l o renames :
  h !! l = Some o -> sameShape h (<[l := renamed renames o]> h).
Proof.
  intros Hl q. destruct (decide (l = q)) as [->|Hne].
  - by rewrite lookup_insert_eq, Hl.
  - by rewrite lookup_insert_ne.
Qed.

Lemma sameShape_lookup h h' q o :
  sameShape h h' -> h !! q = Some o ->
  exists o', h' !! q = Some o' /\ SchemaRef_Value o' = SchemaRef_Value o.
Proof.
  intros Hs Hq. specialize (Hs q). rewrite Hq in Hs. simpl in Hs.
  destruct (h' !! q) as [o'|]; [|done]. exists o'. split; [done|].
  simpl in Hs. congruence.
Qed.

Lemma sameShape_sym h h' : sameShape h h' -> sameShape h' h.
Proof. intros H q. by rewrite H. Qed.

Lemma sameShape_children h h' q o o' :
  sameShape h h' -> h !! q = Some o -> h' !! q = Some o' -> children o' = children o.
Proof.
  intros Hs Hq Hq'. destruct (sameShape_lookup _ _ _ _ Hs Hq) as (o'' & E & Hv).
  rewrite Hq' in E. injection E as <-. unfold children. by rewrite Hv.
Qed.

Lemma sameShape_edge h h' p q : sameShape h h' -> edge h p q -> edge h' p q.
Proof.
  intros Hs (o & Hp & Hin).
  destruct (sameShape_lookup _ _ _ _ Hs Hp) as (o' & Hp' & Hv).
  exists o'. split; [done|]. unfold children in *. by rewrite Hv.
Qed.

(** A chain of distinct objects of the store is no longer than the store. *)
Lemma NoDup_dom_length (h : heap) (path : list loc) :
  NoDup path -> (forall a, a ∈ path -> is_Some (h !! a)) -> length path <= size h.
Proof.
  intros Hnd Hin. rewrite <- size_dom.
  rewrite <- (size_list_to_set (C := gset loc) path) by done.
  apply subseteq_size. intros a Ha. apply elem_of_list_to_set in Ha.
  by apply elem_of_dom, Hin.
Qed.

(** On a store without cycle, the depth of the calls is bounded by the
    number of objects: [path] is the chain of objects whose calls are
    pending. *)
Lemma updateSchemaRefRefs_terminates (h0 : heap) (renames : gmap string string) :
  acyclic h0 ->
  forall fuel path p h,
    sameShape h0 h ->
    NoDup path ->
    (forall a, a ∈ path -> is_Some (h0 !! a)) ->
    (forall a, a ∈ path -> tc (edge h0) a p) ->
    size h0 < fuel + length path ->
    exists h', updateSchemaRefRefs fuel renames (Some p) h = Some h' /\ sameShape h0 h'.
Proof.
  intros Hacyc. induction fuel as [|fuel IH]; intros path p h Hs Hnd Hdom Hreach Hsize.
  - pose proof (NoDup_dom_length h0 path Hnd Hdom). simpl in Hsize. lia.
  - rewrite updateSchemaRefRefs_step.
    destruct (h !! p) as [o|] eqn:Hp; [|by exists h].
    destruct (sameShape_lookup _ _ _ _ (sameShape_sym _ _ Hs) Hp) as (o0 & Hp0 & Hv0).
    assert (Hch : children o = children o0) by (unfold children; by rewrite Hv0).
    assert (Hs1 : sameShape h0 (<[p := renamed renames o]> h)).
    { eapply sameShape_trans; [exact Hs|]. by apply sameShape_insert. }
    assert (Hnd' : NoDup (p :: path)).
    { constructor; [|done]. intros Hin. apply (Hacyc p). by apply Hreach. }
    assert (Hdom' : forall a, a ∈ p :: path -> is_Some (h0 !! a)).
    { intros a [->|Ha]%elem_of_cons; [by eexists|by apply Hdom]. }
    assert (Hall : forall c, c ∈ children o ->
              forall h1, sameShape h0 h1 ->
              exists h', updateSchemaRefRefs fuel renames c h1 = Some h' /\ sameShape h0 h').
    { intros [c|] Hc h1 Hs'; [|exists h1; by rewrite updateSchemaRefRefs_nil].
      apply (IH (p :: path)); try done.
      - intros a [->|Ha]%elem_of_cons.
        + apply tc_once. exists o0. split; [done|]. by rewrite <- Hch.
        + eapply tc_r; [by apply Hreach|]. exists o0. split; [done|]. by rewrite <- Hch.
      - simpl. lia. }
    revert Hall Hs1. generalize (<[p := renamed renames o]> h). generalize (children o).
    intros cs. induction cs as [|c cs IHcs]; intros h1 Hall Hs1.
    + by exists h1.
    + rewrite visitAll_cons.
      destruct (Hall c (ltac:(by left)) h1 Hs1) as (h2 & -> & Hs2). simpl.
      apply IHcs; [|done]. intros c' Hc'. apply Hall. by right.
Qed.

Lemma rankedb_edge h rank p q :
  rankedb h rank = true -> edge h p q -> rank q < rank p.
Proof.
  unfold rankedb. rewrite forallb_forall. intros Hall (o & Hp & Hq).
  specialize (Hall (p, o)). rewrite forallb_forall in Hall.
  assert (Hin : In (p, o) (map_to_list h)).
  { apply list_elem_of_In. by apply elem_of_map_to_list. }
  specialize (Hall Hin (Some q)). simpl in Hall.
  apply Nat.ltb_lt, Hall. by apply list_elem_of_In.
Qed.

Lemma rankedb_acyclic h rank : rankedb h rank = true -> acyclic h.
Proof.
  intros Hr p Hp.
  assert (Hlt : forall a b, tc (edge h) a b -> rank b < rank a).
  { induction 1 as [a b Hab|a b c Hab _ IH].
    - by eapply rankedb_edge.
    - pose proof (rankedb_edge h rank a b Hr Hab). lia. }
  specialize (Hlt p p Hp). lia.
Qed.

(** The calls on the recursive schema never return, whatever the bound. *)
Lemma treeSchema_diverges fuel renames (h : heap) ref :
  h !! 2 = Some (mkSchemaRef ref (Some treeSchema)) ->
  updateSchemaRefRefs fuel renames (Some 2) h = None.
Proof.
  revert h ref. induction fuel as [|fuel IH]; intros h ref Hh; [done|].
  rewrite updateSchemaRefRefs_step, Hh.
  change (children (mkSchemaRef ref (Some treeSchema)))
    with (Some 2 :: [None; None]).
  rewrite visitAll_cons.
  rewrite (IH _ (renameRef renames ref)); [done|]. apply lookup_insert_eq.
Qed.

Lemma visitAll_terminates (h0 : heap) (renames : gmap string string) fuel roots h :
  acyclic h0 -> sameShape h0 h -> size h0 < fuel ->
  exists h', visitAll (updateSchemaRefRefs fuel renames) roots h = Some h'
             /\ sameShape h0 h'.
Proof.
  intros Hacyc Hs Hfuel. revert h Hs.
  induction roots as [|r roots IH]; intros h Hs; [by exists h|].
  rewrite visitAll_cons.
  assert (exists h1, updateSchemaRefRefs fuel renames r h = Some h1 /\ sameShape h0 h1)
    as (h1 & -> & Hs1).
  { destruct r as [p|]; [|exists h; by rewrite updateSchemaRefRefs_nil].
    apply (updateSchemaRefRefs_terminates h0 renames Hacyc fuel [] p h); try done.
    - apply NoDup_nil_2.
    - by intros a ?%elem_of_nil.
    - by intros a ?%elem_of_nil.
    - simpl. lia. }
  simpl. by apply IH.
Qed.

(** C9. [updateSchemaRefRefs] rewrites the object it is given and calls
    itself on the objects under items, properties, additionalProperties,
    allOf, oneOf, anyOf and not, with no record of the objects it has
    seen.  On a store in which no object is reachable from itself, every
    call returns once the bound on the depth exceeds the number of
    objects.  On the store of the recursive schema [Tree], which holds an
    object reachable from itself, no bound is enough: the call never
    returns. *)
Theorem C9_updateSchemaRefRefs_termination (h : heap) (renames : gmap string string)
    (schemaRef : option loc) (fuel : nat) :
  acyclic h ->
  size h < fuel ->
  (exists h', updateSchemaRefRefs fuel renames schemaRef h = Some h') /\
  (forall l o,
     h !! l = Some o ->
     updateSchemaRefRefs (S fuel) renames (Some l) h
     = visitAll (updateSchemaRefRefs fuel renames) (children o)
         (<[l := renamed renames o]> h)) /\
  tc (edge treeHeap) 2 2 /\
  (forall fuel' renames', updateSchemaRefRefs fuel' renames' (Some 1) treeHeap = None).
Proof.
  intros Hacyc Hfuel. split; [|split; [|split]].
  - destruct (visitAll_terminates h renames fuel [schemaRef] h Hacyc
                (sameShape_refl h) Hfuel) as (h' & Hv & _).
    exists h'. by rewrite visitAll_one in Hv.
  - intros l o Hl. by rewrite updateSchemaRefRefs_step, Hl.
  - apply tc_once. eexists. split; [reflexivity|]. by left.
  - intros [|fuel'] renames'; [done|].
    rewrite updateSchemaRefRefs_step.
    change (treeHeap !! 1) with (Some (mkSchemaRef "" (Some treeSchema))).
    cbn iota.
    change (children (mkSchemaRef "" (Some treeSchema))) with (Some 2 :: [None; None]).
    rewrite visitAll_cons.
    rewrite (treeSchema_diverges fuel' renames' _ "#/components/schemas/Tree"); [done|].
    by rewrite lookup_insert_ne.
Qed.

(** ** The traversal of the document, split in its two effects *)

Section Decompose.

Variable fuel : nat.
Variable renames : gmap string string.

Local Abbreviation splits := (splits fuel renames).

Lemma mapM_splits {A B} (f : A -> heap -> option (B * heap)) roots rw (l : list A) :
  Forall (splits f roots rw) l ->
  splits (mapM f) (flat_map roots) (map rw) l.
Proof.
  induction 1 as [|x l Hx _ IH]; intros h; [done|].
  cbn [mapM flat_map map]. fold (mapM f). rewrite Hx, visitAll_app.
  destruct (visitAll _ (roots x) h) as [h1|]; cbn [mbind option_bind]; [|done].
  rewrite IH. by destruct (visitAll _ (flat_map roots l) h1).
Qed.

Lemma valuesM_splits {A B} (f : A -> heap -> option (B * heap)) roots rw
    (l : list (string * A)) :
  Forall (fun kv => splits f roots rw kv.2) l ->
  splits (valuesM f) (flat_map (fun kv => roots kv.2)) (onValues rw) l.
Proof.
  intros Hl. unfold valuesM, onValues. apply mapM_splits.
  eapply Forall_impl; [exact Hl|]. intros kv Hkv h. simpl in Hkv.
  rewrite Hkv. by destruct (visitAll _ (roots kv.2) h).
Qed.

Lemma optM_splits {A B} (f : A -> heap -> option (B * heap)) roots rw (o : option A) :
  optP (splits f roots rw) o ->
  splits (optM f) (optRoots roots) (optMap rw) o.
Proof.
  destruct o as [x|]; simpl; intros Hx h; [|done].
  cbn [optM optRoots optMap]. rewrite Hx. by destruct (visitAll _ (roots x) h).
Qed.

Lemma updateParameterRefRefs_splits p :
  splits (updateParameterRefRefs fuel renames) rootsParameterRef
    (rewriteParameterRef renames) p.
Proof.
  intros h. unfold updateParameterRefRefs, rootsParameterRef, rewriteParameterRef.
  destruct (ParameterRef_Value p) as [v|]; [|done].
  rewrite visitAll_one. by destruct (updateSchemaRefRefs _ _ _ _).
Qed.

Lemma updateMediaTypeRefs_splits m :
  splits (updateMediaTypeRefs fuel renames) (fun m => [MediaType_Schema m])
    (fun m => m) m.
Proof.
  intros h. unfold updateMediaTypeRefs. rewrite visitAll_one.
  by destruct (updateSchemaRefRefs _ _ _ _).
Qed.

Lemma onValues_id {A} (l : list (string * A)) : onValues (fun x => x) l = l.
Proof. unfold onValues. induction l as [|[k v] l IH]; simpl; [done|]. by rewrite IH. Qed.

Lemma flat_map_singleton {A B} (f : A -> B) (l : list A) :
  flat_map (fun x => [f x]) l = map f l.
Proof. induction l as [|x l IH]; simpl; [done|]. by rewrite IH. Qed.

Lemma content_splits (content : list (string * MediaType)) h :
  valuesM (updateMediaTypeRefs fuel renames) content h
  = h' ← visitAll (updateSchemaRefRefs fuel renames) (rootsContent content) h;
    Some (content, h').
Proof.
  rewrite (valuesM_splits _ (fun m => [MediaType_Schema m]) (fun m => m)).
  - rewrite onValues_id. unfold rootsContent.
    by rewrite (flat_map_singleton (fun kv : string * MediaType => MediaType_Schema kv.2)).
  - apply Forall_forall. intros kv _. apply updateMediaTypeRefs_splits.
Qed.

Lemma updateRequestBodyRefRefs_splits b :
  splits (updateRequestBodyRefRefs fuel renames) rootsRequestBodyRef
    (rewriteRequestBodyRef renames) b.
Proof.
  intros h. unfold updateRequestBodyRefRefs, rootsRequestBodyRef, rewriteRequestBodyRef.
  destruct (RequestBodyRef_Value b) as [[content]|]; [|done].
  cbn [RequestBody_Content]. rewrite content_splits.
  by destruct (visitAll _ _ _).
Qed.

Lemma updateHeaderRefRefs_splits x :
  splits (updateHeaderRefRefs fuel renames) rootsHeaderRef (rewriteHeaderRef renames) x.
Proof.
  intros h. unfold updateHeaderRefRefs, rootsHeaderRef, rewriteHeaderRef.
  destruct (HeaderRef_Value x) as [v|]; [|done].
  rewrite visitAll_one. by destruct (updateSchemaRefRefs _ _ _ _).
Qed.

Lemma updateResponseRefRefs_splits r :
  splits (updateResponseRefRefs fuel renames) rootsResponseRef
    (rewriteResponseRef renames) r.
Proof.
  intros h. unfold updateResponseRefRefs, rootsResponseRef, rewriteResponseRef.
  destruct (ResponseRef_Value r) as [[headers content]|]; [|done].
  cbn [Response_Content Response_Headers].
  rewrite content_splits, visitAll_app.
  destruct (visitAll _ (rootsContent content) h) as [h1|]; cbn [mbind option_bind]; [|done].
  rewrite (valuesM_splits _ rootsHeaderRef (rewriteHeaderRef renames)).
  - by destruct (visitAll _ _ h1).
  - apply Forall_forall. intros kv _. apply updateHeaderRefRefs_splits.
Qed.

Lemma parameters_splits (ps : list ParameterRef) :
  splits (mapM (updateParameterRefRefs fuel renames)) (flat_map rootsParameterRef)
    (map (rewriteParameterRef renames)) ps.
Proof.
  apply mapM_splits, Forall_forall. intros p _. apply updateParameterRefRefs_splits.
Qed.

Lemma updatePathItemRefs_splits p :
  splits (updatePathItemRefs fuel renames) rootsPathItem (rewritePathItem renames) p.
Proof.
  apply (PathItem_nested_ind
           (splits (updatePathItemRefs fuel renames) rootsPathItem
              (rewritePathItem renames))
           (splits (updateOperationRefs fuel renames) rootsOperation
              (rewriteOperation renames))
           (splits (updateCallbackRefRefs fuel renames) rootsCallbackRef
              (rewriteCallbackRef renames))).
  - intros get post put delete patch head options trace parameters
      H1 H2 H3 H4 H5 H6 H7 H8 h.
    cbn [updatePathItemRefs rootsPathItem rewritePathItem].
    apply optM_splits in H1, H2, H3, H4, H5, H6, H7, H8.
    rewrite H1, visitAll_app.
    destruct (visitAll _ (optRoots rootsOperation get) h) as [h1|];
      cbn [mbind option_bind]; [|done].
    rewrite H2, visitAll_app.
    destruct (visitAll _ (optRoots rootsOperation post) h1) as [h2|];
      cbn [mbind option_bind]; [|done].
    rewrite H3, visitAll_app.
    destruct (visitAll _ (optRoots rootsOperation put) h2) as [h3|];
      cbn [mbind option_bind]; [|done].
    rewrite H4, visitAll_app.
    destruct (visitAll _ (optRoots rootsOperation delete) h3) as [h4|];
      cbn [mbind option_bind]; [|done].
    rewrite H5, visitAll_app.
    destruct (visitAll _ (optRoots rootsOperation patch) h4) as [h5|];
      cbn [mbind option_bind]; [|done].
    rewrite H6, visitAll_app.
    destruct (visitAll _ (optRoots rootsOperation head) h5) as [h6|];
      cbn [mbind option_bind]; [|done].
    rewrite H7, visitAll_app.
    destruct (visitAll _ (optRoots rootsOperation options) h6) as [h7|];
      cbn [mbind option_bind]; [|done].
    rewrite H8, visitAll_app.
    destruct (visitAll _ (optRoots rootsOperation trace) h7) as [h8|];
      cbn [mbind option_bind]; [|done].
    rewrite parameters_splits.
    by destruct (visitAll _ (flat_map rootsParameterRef parameters) h8).
  - intros tags parameters requestBody responses callbacks Hcb h.
    cbn [updateOperationRefs rootsOperation rewriteOperation].
    rewrite parameters_splits, visitAll_app.
    destruct (visitAll _ (flat_map rootsParameterRef parameters) h) as [h1|];
      cbn [mbind option_bind]; [|done].
    rewrite (optM_splits _ rootsRequestBodyRef (rewriteRequestBodyRef renames));
      [|destruct requestBody; [apply updateRequestBodyRefRefs_splits|done]].
    rewrite visitAll_app.
    destruct (visitAll _ (optRoots rootsRequestBodyRef requestBody) h1) as [h2|];
      cbn [mbind option_bind]; [|done].
    rewrite (valuesM_splits _ rootsResponseRef (rewriteResponseRef renames));
      [|apply Forall_forall; intros kv _; apply updateResponseRefRefs_splits].
    rewrite visitAll_app.
    destruct (visitAll _ (flat_map _ responses) h2) as [h3|];
      cbn [mbind option_bind]; [|done].
    rewrite (valuesM_splits _ rootsCallbackRef (rewriteCallbackRef renames) _ Hcb).
    replace (flat_map (fun kv : string * CallbackRef => let (_, c) := kv in rootsCallbackRef c)
               callbacks)
      with (flat_map (fun kv : string * CallbackRef => rootsCallbackRef kv.2) callbacks)
      by (apply flat_map_ext; by intros [? ?]).
    replace (map (fun kv : string * CallbackRef =>
                    let (k, c) := kv in (k, rewriteCallbackRef renames c)) callbacks)
      with (onValues (rewriteCallbackRef renames) callbacks)
      by (apply map_ext; by intros [? ?]).
    by destruct (visitAll _ _ h3).
  - intros ref [items|] Hitems h; cbn [updateCallbackRefRefs rootsCallbackRef
                                       rewriteCallbackRef]; [|done].
    simpl in Hitems.
    rewrite (valuesM_splits _ rootsPathItem (rewritePathItem renames) _ Hitems).
    replace (flat_map (fun kv : string * PathItem => let (_, p) := kv in rootsPathItem p)
               items)
      with (flat_map (fun kv : string * PathItem => rootsPathItem kv.2) items)
      by (apply flat_map_ext; by intros [? ?]).
    replace (map (fun kv : string * PathItem =>
                    let (k, p) := kv in (k, rewritePathItem renames p)) items)
      with (onValues (rewritePathItem renames) items)
      by (apply map_ext; by intros [? ?]).
    by destruct (visitAll _ _ h).
Qed.

End Decompose.

(** ** What the visits leave in the store *)

Section Visits.

Variable renames : gmap string string.

(** Rewriting a rewritten reference changes nothing. *)
Hypothesis renameRef_idem :
  forall r, renameRef renames (renameRef renames r) = renameRef renames r.

(** The store the visits started from. *)
Variable h0 : heap.

Local Abbreviation rewrittenFrom := (rewrittenFrom renames h0).
Local Abbreviation doneAt := (doneAt renames h0).
Local Abbreviation visitSpec := (visitSpec renames h0).

Lemma renamed_idem o : renamed renames (renamed renames o) = renamed renames o.
Proof using renameRef_idem. unfold renamed. simpl. by rewrite renameRef_idem. Qed.

Lemma rewrittenFrom_refl : rewrittenFrom h0.
Proof. intros q. by left. Qed.

Lemma rewrittenFrom_sameShape h : rewrittenFrom h -> sameShape h0 h.
Proof.
  intros Hr q. destruct (Hr q) as [->|(o & -> & ->)]; [done|]. done.
Qed.

Lemma rewrittenFrom_renamed h l o :
  rewrittenFrom h -> h !! l = Some o ->
  exists o0, h0 !! l = Some o0 /\ renamed renames o = renamed renames o0.
Proof using renameRef_idem.
  intros Hr Hl. destruct (Hr l) as [E|(o0 & E0 & E)].
  - exists o. split; [by rewrite <- E|done].
  - exists o0. split; [done|]. rewrite Hl in E. injection E as ->.
    apply renamed_idem.
Qed.

Lemma rewrittenFrom_insert h l o :
  rewrittenFrom h -> h !! l = Some o ->
  rewrittenFrom (<[l := renamed renames o]> h).
Proof using renameRef_idem.
  intros Hr Hl q. destruct (decide (l = q)) as [<-|Hne].
  - destruct (rewrittenFrom_renamed h l o Hr Hl) as (o0 & E0 & E).
    right. exists o0. split; [done|]. by rewrite lookup_insert_eq, E.
  - rewrite lookup_insert_ne by done. apply Hr.
Qed.

Lemma doneAt_insert h l o q :
  rewrittenFrom h -> h !! l = Some o ->
  doneAt h q -> doneAt (<[l := renamed renames o]> h) q.
Proof using renameRef_idem.
  intros Hr Hl Hd o0 Ho0. destruct (decide (l = q)) as [<-|Hne].
  - rewrite lookup_insert_eq. specialize (Hd o0 Ho0). rewrite Hl in Hd.
    injection Hd as ->. by rewrite renamed_idem.
  - rewrite lookup_insert_ne by done. by apply Hd.
Qed.

Lemma reachable_cons r roots q :
  reachable h0 (r :: roots) q <-> reachable h0 [r] q \/ reachable h0 roots q.
Proof.
  unfold reachable. split.
  - intros (l & [E|Hin]%elem_of_cons & Hrtc).
    + left. exists l. split; [|done]. rewrite E. by left.
    + right. by exists l.
  - intros [(l & Hin & Hrtc)|(l & Hin & Hrtc)]; exists l; split; try done.
    + apply list_elem_of_singleton in Hin. rewrite Hin. by left.
    + by right.
Qed.

Lemma visitAll_spec (f : option loc -> heap -> option heap) (roots : list (option loc)) :
  (forall r, r ∈ roots -> visitSpec (reachable h0 [r]) (f r)) ->
  visitSpec (reachable h0 roots) (visitAll f roots).
Proof.
  induction roots as [|r roots IH]; intros Hf h h' Hr Hv.
  - injection Hv as <-. split; [done|]. split; [done|]. split; [|done].
    intros q (l & Hin & _). by apply elem_of_nil in Hin.
  - rewrite visitAll_cons in Hv. destruct (f r h) as [h1|] eqn:Hfr; [|done].
    simpl in Hv.
    destruct (Hf r (ltac:(by left)) h h1 Hr Hfr) as (Hr1 & Hd1 & Hreach1 & Hout1).
    destruct (IH (fun r' Hin => Hf r' (ltac:(by right))) h1 h' Hr1 Hv)
      as (Hr2 & Hd2 & Hreach2 & Hout2).
    split; [done|]. split; [by auto|]. split.
    + intros q [Hq|Hq]%reachable_cons; [by apply Hd2, Hreach1|by apply Hreach2].
    + intros q Hq. rewrite Hout2, Hout1; [done| |].
      * intros Hq'. apply Hq, reachable_cons. by left.
      * intros Hq'. apply Hq, reachable_cons. by right.
Qed.

Lemma reachable_one_inv l q :
  reachable h0 [Some l] q <-> rtc (edge h0) l q.
Proof.
  unfold reachable. split.
  - intros (r & Hin & Hrtc). apply list_elem_of_singleton in Hin. by injection Hin as <-.
  - intros Hrtc. exists l. split; [by left|done].
Qed.

Lemma updateSchemaRefRefs_spec fuel (p : option loc) :
  visitSpec (reachable h0 [p]) (updateSchemaRefRefs fuel renames p).
Proof using renameRef_idem.
  revert p. induction fuel as [|fuel IH]; intros [l|].
  - intros h h' _ Hv. by rewrite updateSchemaRefRefs_zero in Hv.
  - intros h h' Hr Hv. rewrite updateSchemaRefRefs_nil in Hv. injection Hv as <-.
    split; [done|]. split; [done|]. split; [|done].
    intros q (r & Hin & _). by apply list_elem_of_singleton in Hin.
  - intros h h' Hr Hv. rewrite updateSchemaRefRefs_step in Hv.
    destruct (h !! l) as [o|] eqn:Hl.
    + destruct (rewrittenFrom_renamed h l o Hr Hl) as (o0 & Hl0 & Eo).
      assert (Hch : children o = children o0).
      { eapply (sameShape_children h0 h); [by apply rewrittenFrom_sameShape|done|done]. }
      pose proof (rewrittenFrom_insert h l o Hr Hl) as Hr1.
      destruct (visitAll_spec (updateSchemaRefRefs fuel renames) (children o)
                  (fun r _ => IH r) _ h' Hr1 Hv) as (Hr2 & Hd2 & Hreach2 & Hout2).
      split; [done|]. split; [|split].
      * intros q Hq. by apply Hd2, doneAt_insert.
      * intros q Hq%reachable_one_inv.
        apply rtc_inv in Hq as [<-|(c & (o0' & Hl0' & Hc) & Hrtc)].
        -- apply Hd2. intros o0' Ho0'. rewrite lookup_insert_eq.
           rewrite Hl0 in Ho0'. injection Ho0' as <-. by rewrite Eo.
        -- apply Hreach2. exists c. split; [|done].
           rewrite Hl0 in Hl0'. injection Hl0' as <-. by rewrite Hch.
      * intros q Hq. rewrite Hout2.
        -- apply lookup_insert_ne. intros <-. apply Hq, reachable_one_inv. done.
        -- intros (c & Hc & Hrtc). apply Hq, reachable_one_inv.
           eapply rtc_l; [|exact Hrtc]. exists o0. split; [done|]. by rewrite <- Hch.
    + injection Hv as <-. split; [done|]. split; [done|]. split; [|done].
      intros q Hq%reachable_one_inv o0 Ho0.
      apply rtc_inv in Hq as [<-|(c & (o0' & Hl0' & Hc) & Hrtc)].
      * destruct (Hr l) as [E|(o1 & E1 & E)]; congruence.
      * destruct (Hr l) as [E|(o1 & E1 & E)]; congruence.
  - intros h h' Hr Hv. rewrite updateSchemaRefRefs_nil in Hv. injection Hv as <-.
    split; [done|]. split; [done|]. split; [|done].
    intros q (r & Hin & _). by apply list_elem_of_singleton in Hin.
Qed.

(** The store after the visit of [roots], started from [h0]: the objects
    reachable from [roots] are rewritten, the others are as they were. *)
Lemma visitAll_result fuel roots h' :
  visitAll (updateSchemaRefRefs fuel renames) roots h0 = Some h' ->
  forall q o, h0 !! q = Some o ->
    (reachable h0 roots q -> h' !! q = Some (renamed renames o)) /\
    (~ reachable h0 roots q -> h' !! q = Some o).
Proof using renameRef_idem.
  intros Hv q o Hq.
  destruct (visitAll_spec (updateSchemaRefRefs fuel renames) roots
              (fun r _ => updateSchemaRefRefs_spec fuel r) h0 h'
              rewrittenFrom_refl Hv) as (_ & _ & Hreach & Hout).
  split.
  - intros Hr. by apply Hreach.
  - intros Hr. by rewrite Hout.
Qed.

End Visits.

(** ** [updateRefs] as a rewriting of the tree and a visit of the store *)

Lemma foldl_insert_onValues {A} (rw : A -> A) (m : gmap string A) order :
  range_of m order ->
  foldl (fun acc kv => <[kv.1 := kv.2]> acc) m (onValues rw order) = rw <$> m.
Proof.
  intros Hr. unfold onValues. rewrite foldl_fmap. simpl.
  apply map_eq. intros k.
  rewrite (foldl_insert_lookup (fun _ v => rw v)) by by eapply range_of_NoDup.
  rewrite lookup_fmap.
  pose proof (range_of_find m order k Hr) as Hf.
  destruct (list_find _ order) as [[i e]|]; simpl in Hf.
  - destruct (m !! k) as [v|]; [|done]. simpl in Hf. by injection Hf as ->.
  - by destruct (m !! k).
Qed.

Lemma rangeM_splits {A} fuel renames (f : A -> heap -> option (A * heap))
    roots rw (m : gmap string A) order h :
  range_of m order ->
  (forall x, splits fuel renames f roots rw x) ->
  rangeM f m order h
  = h' ← visitAll (updateSchemaRefRefs fuel renames)
           (flat_map (fun kv => roots kv.2) order) h;
    Some (rw <$> m, h').
Proof.
  intros Hr Hf. unfold rangeM.
  rewrite (valuesM_splits fuel renames f roots rw)
    by (apply Forall_forall; intros kv _; apply Hf).
  destruct (visitAll _ _ h) as [h1|]; cbn [mbind option_bind]; [|done].
  by rewrite foldl_insert_onValues.
Qed.

Lemma updateCallbackRefRefs_splits fuel renames c :
  splits fuel renames (updateCallbackRefRefs fuel renames) rootsCallbackRef
    (rewriteCallbackRef renames) c.
Proof.
  destruct c as [ref [items|]]; intros h;
    cbn [updateCallbackRefRefs rootsCallbackRef rewriteCallbackRef]; [|done].
  rewrite (valuesM_splits fuel renames _ rootsPathItem (rewritePathItem renames))
    by (apply Forall_forall; intros kv _; apply updatePathItemRefs_splits).
  replace (flat_map (fun kv : string * PathItem => let (_, p) := kv in rootsPathItem p)
             items)
    with (flat_map (fun kv : string * PathItem => rootsPathItem kv.2) items)
    by (apply flat_map_ext; by intros [? ?]).
  replace (map (fun kv : string * PathItem =>
                  let (k, p) := kv in (k, rewritePathItem renames p)) items)
    with (onValues (rewritePathItem renames) items)
    by (apply map_ext; by intros [? ?]).
  by destruct (visitAll _ _ h).
Qed.

Lemma updateComponentsRefs_splits fuel renames c o h :
  range_of_components c o ->
  updateComponentsRefs fuel renames c o h
  = h' ← visitAll (updateSchemaRefRefs fuel renames) (rootsComponents o) h;
    Some (rewriteComponents renames c, h').
Proof.
  intros (_ & Hresp & Hparam & _ & Hbody & _ & Hhead & _ & Hcb).
  unfold updateComponentsRefs, rootsComponents.
  rewrite visitAll_app.
  destruct (visitAll _ (order_Schemas o).*2 h) as [h1|]; cbn [mbind option_bind]; [|done].
  rewrite (rangeM_splits fuel renames _ rootsParameterRef (rewriteParameterRef renames)
             _ _ _ Hparam (updateParameterRefRefs_splits fuel renames)).
  rewrite visitAll_app.
  destruct (visitAll _ (flat_map _ (order_Parameters o)) h1) as [h2|];
    cbn [mbind option_bind]; [|done].
  rewrite (rangeM_splits fuel renames _ rootsResponseRef (rewriteResponseRef renames)
             _ _ _ Hresp (updateResponseRefRefs_splits fuel renames)).
  rewrite visitAll_app.
  destruct (visitAll _ (flat_map _ (order_Responses o)) h2) as [h3|];
    cbn [mbind option_bind]; [|done].
  rewrite (rangeM_splits fuel renames _ rootsRequestBodyRef (rewriteRequestBodyRef renames)
             _ _ _ Hbody (updateRequestBodyRefRefs_splits fuel renames)).
  rewrite visitAll_app.
  destruct (visitAll _ (flat_map _ (order_RequestBodies o)) h3) as [h4|];
    cbn [mbind option_bind]; [|done].
  rewrite (rangeM_splits fuel renames _ rootsHeaderRef (rewriteHeaderRef renames)
             _ _ _ Hhead (updateHeaderRefRefs_splits fuel renames)).
  rewrite visitAll_app.
  destruct (visitAll _ (flat_map _ (order_Headers o)) h4) as [h5|];
    cbn [mbind option_bind]; [|done].
  rewrite (rangeM_splits fuel renames _ rootsCallbackRef (rewriteCallbackRef renames)
             _ _ _ Hcb (updateCallbackRefRefs_splits fuel renames)).
  by destruct (visitAll _ (flat_map _ (order_Callbacks o)) h5).
Qed.

(** [updateRefs] with a rename map that is not empty. *)
Lemma updateRefs_splits fuel renames spec c pathOrder o h :
  size renames <> 0 ->
  T_Components spec = Some c ->
  pathsRange spec pathOrder ->
  range_of_components c o ->
  updateRefs fuel renames spec pathOrder o h
  = h' ← visitAll (updateSchemaRefRefs fuel renames)
           (rootsPaths pathOrder ++ rootsComponents o) h;
    Some (rewriteSpec renames spec, h').
Proof.
  intros Hsize Hc Hp Ho. unfold updateRefs, rewriteSpec, pathsRange in *.
  destruct (Nat.eqb_spec (size renames) 0) as [|_]; [done|].
  rewrite Hc, visitAll_app. unfold rootsPaths.
  destruct (T_Paths spec) as [paths|].
  - rewrite (rangeM_splits fuel renames _ rootsPathItem (rewritePathItem renames)
               _ _ _ Hp (updatePathItemRefs_splits fuel renames)).
    destruct (visitAll _ (flat_map _ pathOrder) h) as [h1|];
      cbn [mbind option_bind]; [|done].
    rewrite updateComponentsRefs_splits by done.
    by destruct (visitAll _ (rootsComponents o) h1).
  - subst pathOrder. cbn [flat_map visitAll mbind option_bind].
    rewrite updateComponentsRefs_splits by done.
    by destruct (visitAll _ (rootsComponents o) h).
Qed.

(** With the identity as renaming, rewriting changes nothing. *)
Section RewriteId.

Variable renames : gmap string string.
Hypothesis renameRef_id : forall r, renameRef renames r = r.

Lemma rewriteParameterRef_id p : rewriteParameterRef renames p = p.
Proof using renameRef_id.
  destruct p. unfold rewriteParameterRef. simpl. by rewrite renameRef_id.
Qed.

Lemma rewriteRequestBodyRef_id b : rewriteRequestBodyRef renames b = b.
Proof using renameRef_id.
  destruct b. unfold rewriteRequestBodyRef. simpl. by rewrite renameRef_id.
Qed.

Lemma rewriteHeaderRef_id x : rewriteHeaderRef renames x = x.
Proof using renameRef_id.
  destruct x. unfold rewriteHeaderRef. simpl. by rewrite renameRef_id.
Qed.

Lemma onValues_ext_id {A} (f : A -> A) (l : list (string * A)) :
  Forall (fun kv => f kv.2 = kv.2) l -> onValues f l = l.
Proof.
  unfold onValues. induction 1 as [|[k v] l Hx _ IH]; simpl; [done|].
  simpl in Hx. by rewrite Hx, IH.
Qed.

Lemma map_ext_id {A} (f : A -> A) (l : list A) :
  (forall x, f x = x) -> map f l = l.
Proof. intros Hf. induction l as [|x l IH]; simpl; [done|]. by rewrite Hf, IH. Qed.

Lemma rewriteResponseRef_id r : rewriteResponseRef renames r = r.
Proof using renameRef_id.
  destruct r as [ref [[headers content]|]]; unfold rewriteResponseRef; simpl;
    rewrite renameRef_id; [|done].
  rewrite onValues_ext_id; [done|].
  apply Forall_forall. intros kv _. apply rewriteHeaderRef_id.
Qed.

Lemma optMap_id {A} (f : A -> A) (o : option A) :
  optP (fun x => f x = x) o -> optMap f o = o.
Proof. destruct o as [x|]; simpl; [|done]. by intros ->. Qed.

Lemma rewritePathItem_id p : rewritePathItem renames p = p.
Proof using renameRef_id.
  apply (PathItem_nested_ind
           (fun p => rewritePathItem renames p = p)
           (fun op => rewriteOperation renames op = op)
           (fun c => rewriteCallbackRef renames c = c)).
  - intros get post put delete patch head options trace parameters
      H1 H2 H3 H4 H5 H6 H7 H8.
    cbn [rewritePathItem].
    rewrite !optMap_id by done.
    by rewrite (map_ext_id _ _ rewriteParameterRef_id).
  - intros tags parameters requestBody responses callbacks Hcb.
    cbn [rewriteOperation].
    rewrite (map_ext_id _ _ rewriteParameterRef_id).
    rewrite (optMap_id (rewriteRequestBodyRef renames))
      by (destruct requestBody; [apply rewriteRequestBodyRef_id|done]).
    rewrite (onValues_ext_id (rewriteResponseRef renames))
      by (apply Forall_forall; intros kv _; apply rewriteResponseRef_id).
    replace (map (fun kv : string * CallbackRef =>
                    let (k, c) := kv in (k, rewriteCallbackRef renames c)) callbacks)
      with (onValues (rewriteCallbackRef renames) callbacks)
      by (apply map_ext; by intros [? ?]).
    by rewrite onValues_ext_id.
  - intros ref [items|] Hitems; cbn [rewriteCallbackRef]; rewrite renameRef_id; [|done].
    simpl in Hitems.
    replace (map (fun kv : string * PathItem =>
                    let (k, p) := kv in (k, rewritePathItem renames p)) items)
      with (onValues (rewritePathItem renames) items)
      by (apply map_ext; by intros [? ?]).
    by rewrite onValues_ext_id.
Qed.

Lemma rewriteCallbackRef_id c : rewriteCallbackRef renames c = c.
Proof using renameRef_id.
  destruct c as [ref [items|]]; cbn [rewriteCallbackRef]; rewrite renameRef_id; [|done].
  replace (map (fun kv : string * PathItem =>
                  let (k, p) := kv in (k, rewritePathItem renames p)) items)
    with (onValues (rewritePathItem renames) items)
    by (apply map_ext; by intros [? ?]).
  rewrite onValues_ext_id; [done|].
  apply Forall_forall. intros kv _. apply rewritePathItem_id.
Qed.

Lemma fmap_id_ext {A} (f : A -> A) (m : gmap string A) :
  (forall x, f x = x) -> f <$> m = m.
Proof.
  intros Hf. apply map_eq. intros k. rewrite lookup_fmap.
  destruct (m !! k) as [x|]; simpl; [by rewrite Hf|done].
Qed.

Lemma rewriteSpec_id spec : rewriteSpec renames spec = spec.
Proof using renameRef_id.
  destruct spec as [paths comps tags]. unfold rewriteSpec. simpl. f_equal.
  - destruct paths as [paths|]; [|done].
    by rewrite (fmap_id_ext _ _ rewritePathItem_id).
  - destruct comps as [c|]; [|done]. destruct c. unfold rewriteComponents. simpl.
    by rewrite (fmap_id_ext _ _ rewriteParameterRef_id),
         (fmap_id_ext _ _ rewriteHeaderRef_id),
         (fmap_id_ext _ _ rewriteRequestBodyRef_id),
         (fmap_id_ext _ _ rewriteResponseRef_id),
         (fmap_id_ext _ _ rewriteCallbackRef_id).
Qed.

End RewriteId.

(** ** The renaming loops *)

Global Instance append_inj (prefix : string) : Inj (=) (=) (String.append prefix).
Proof. intros a b H. by eapply app_inj_l. Qed.

Lemma stripRef_app (p n : string) : stripRef p (p +:+ n) = Some n.
Proof. unfold stripRef. by rewrite HasPrefix_app, string_drop_app. Qed.

Lemma stripRef_Some (p ref n : string) : stripRef p ref = Some n <-> ref = p +:+ n.
Proof.
  split; [|intros ->; apply stripRef_app].
  unfold stripRef. destruct (HasPrefix ref p) eqn:Hp; [|done].
  apply HasPrefix_inv in Hp as [rest ->]. rewrite string_drop_app. by intros [= ->].
Qed.

Lemma stripRef_None (p ref n : string) : stripRef p ref = None -> ref <> p +:+ n.
Proof. intros H ->. by rewrite stripRef_app in H. Qed.

Lemma foldl_insert_list_to_map {V} (l : list (string * V)) :
  NoDup l.*1 ->
  foldl (fun (a : gmap string V) e => <[e.1 := e.2]> a) ∅ l = list_to_map l.
Proof.
  intros Hnd. apply map_eq. intros k.
  rewrite (foldl_insert_lookup (fun _ v => v)) by done.
  destruct (list_find _ l) as [[i [k' v]]|] eqn:Hf; simpl.
  - apply list_find_Some in Hf as (Hl & Hk & _). simpl in Hk. subst k'.
    symmetry. apply elem_of_list_to_map; [done|]. by eapply list_elem_of_lookup_2.
  - rewrite lookup_empty. symmetry. apply not_elem_of_list_to_map.
    intros ([k' v] & -> & Hin)%list_elem_of_fmap.
    apply list_find_None in Hf. rewrite Forall_forall in Hf. by apply (Hf _ Hin).
Qed.

Lemma fst_prod_map {V} (f : string -> string) (l : list (string * V)) :
  (prod_map f id <$> l).*1 = f <$> l.*1.
Proof. induction l as [|[k v] l IH]; [done|]. rewrite !fmap_cons. by rewrite IH. Qed.

Lemma kmap_range {V} (prefix : string) (m : gmap string V) order :
  range_of m order ->
  foldl (fun (a : gmap string V) e => <[prefix +:+ e.1 := e.2]> a) ∅ order
  = (kmap (String.append prefix) m : gmap string V).
Proof.
  intros Hr.
  assert (Hnd : NoDup (prod_map (String.append prefix) id <$> order).*1).
  { rewrite fst_prod_map. apply NoDup_fmap_2; [apply _|].
    by eapply range_of_NoDup. }
  transitivity (foldl (fun (a : gmap string V) (e : string * V) => <[e.1 := e.2]> a) ∅
                  (prod_map (String.append prefix) id <$> order)).
  { by rewrite foldl_fmap. }
  rewrite foldl_insert_list_to_map by done.
  unfold kmap. apply list_to_map_proper; [done|].
  unfold range_of in Hr. by rewrite Hr.
Qed.

Lemma range_of_nil {V} (m : gmap string V) order :
  range_of m order -> size m = 0 -> order = [].
Proof.
  intros Hr Hs. apply map_size_empty_iff in Hs. subst m.
  unfold range_of in Hr. rewrite map_to_list_empty in Hr.
  by apply Permutation_nil_r in Hr.
Qed.

Lemma range_of_dom {V} (m : gmap string V) order n :
  range_of m order -> n ∈ order.*1 <-> n ∈ dom m.
Proof.
  intros Hr. rewrite elem_of_dom. split.
  - intros ([k v] & -> & Hin)%list_elem_of_fmap.
    apply (range_of_elem _ _ _ _ Hr) in Hin. by exists v.
  - intros [v Hv]. apply list_elem_of_fmap. exists (n, v). split; [done|].
    by apply (range_of_elem _ _ _ _ Hr).
Qed.

Lemma renameKind_fst {V} refPrefix prefix (order : list (string * V))
    (acc : gmap string V) (rn : gmap string string) :
  (foldl (fun acc e =>
            let newName := prefix +:+ e.1 in
            (<[newName := e.2]> acc.1,
             <[refPrefix +:+ e.1 := refPrefix +:+ newName]> acc.2))
     (acc, rn) order).1
  = foldl (fun (a : gmap string V) e => <[prefix +:+ e.1 := e.2]> a) acc order.
Proof.
  revert acc rn. induction order as [|e order IH]; intros acc rn; [done|].
  simpl. apply IH.
Qed.

Lemma kindTarget_names src dst prefix (X Y : gset string) ref :
  (forall n, n ∈ X <-> n ∈ Y) ->
  kindTarget src dst prefix X ref = kindTarget src dst prefix Y ref.
Proof.
  intros H. unfold kindTarget. destruct (stripRef src ref) as [n|]; [|done].
  destruct (decide (n ∈ X)) as [Hx|Hx], (decide (n ∈ Y)) as [Hy|Hy]; try done.
  - by apply H in Hx.
  - by apply H in Hy.
Qed.

(** The rename map after a loop over [order]: the references of the
    processed names, else what the map held before. *)
Lemma renameKind_snd {V} refPrefix prefix (order : list (string * V))
    (acc : gmap string V) (rn : gmap string string) ref :
  (foldl (fun acc e =>
            let newName := prefix +:+ e.1 in
            (<[newName := e.2]> acc.1,
             <[refPrefix +:+ e.1 := refPrefix +:+ newName]> acc.2))
     (acc, rn) order).2 !! ref
  = orElse (kindTarget refPrefix refPrefix prefix (list_to_set order.*1) ref)
      (rn !! ref).
Proof.
  revert acc rn. induction order as [|[k v] order IH]; intros acc rn.
  - simpl. unfold kindTarget. by destruct (stripRef refPrefix ref).
  - simpl. rewrite IH. unfold kindTarget.
    destruct (stripRef refPrefix ref) as [n|] eqn:Hs.
    + apply stripRef_Some in Hs. subst ref.
      destruct (decide (n ∈ (list_to_set order.*1 : gset string))) as [Hin|Hnin].
      * rewrite decide_True; [done|]. apply elem_of_union. by right.
      * simpl. destruct (decide (k = n)) as [->|Hne].
        -- rewrite lookup_insert_eq, decide_True; [done|].
           apply elem_of_union. left. by apply elem_of_singleton.
        -- rewrite lookup_insert_ne, decide_False; [done| |].
           ++ intros [Hk%elem_of_singleton|Hk]%elem_of_union;
                [by subst|by apply Hnin].
           ++ intros H. by apply (inj (String.append refPrefix)) in H.
    + simpl. rewrite lookup_insert_ne; [done|].
      intros <-. by rewrite stripRef_app in Hs.
Qed.

Lemma renameKind_spec {V} refPrefix prefix (m : gmap string V) order rn :
  range_of m order ->
  (renameKind refPrefix prefix m order rn).1
  = (kmap (String.append prefix) m : gmap string V) /\
  forall ref,
    (renameKind refPrefix prefix m order rn).2 !! ref
    = orElse (kindTarget refPrefix refPrefix prefix (dom m) ref) (rn !! ref).
Proof.
  intros Hr. unfold renameKind. destruct (Nat.eqb_spec (size m) 0) as [Hz|Hnz].
  - pose proof Hz as Hempty. apply map_size_empty_iff in Hempty. subst m. split.
    + simpl. by rewrite kmap_empty.
    + intros ref. simpl. unfold kindTarget. destruct (stripRef refPrefix ref); [|done].
      rewrite dom_empty_L. by rewrite decide_False by set_solver.
  - split.
    + rewrite renameKind_fst. by apply kmap_range.
    + intros ref. rewrite renameKind_snd. f_equal. apply kindTarget_names.
      intros n. rewrite elem_of_list_to_set. by apply range_of_dom.
Qed.

Lemma renameSchemas_fst prefix (order : list (string * option loc))
    (acc : gmap string (option loc)) (rn : gmap string string) :
  (foldl (fun acc e =>
            let newName := prefix +:+ e.1 in
            (<[newName := e.2]> acc.1,
             <["#/definitions/" +:+ e.1 := "#/components/schemas/" +:+ newName]>
               (<["#/components/schemas/" +:+ e.1
                  := "#/components/schemas/" +:+ newName]> acc.2)))
     (acc, rn) order).1
  = foldl (fun (a : gmap string (option loc)) e => <[prefix +:+ e.1 := e.2]> a) acc order.
Proof.
  revert acc rn. induction order as [|e order IH]; intros acc rn; [done|].
  simpl. apply IH.
Qed.

Lemma definitions_not_schemas (a b : string) :
  "#/definitions/" +:+ a <> "#/components/schemas/" +:+ b.
Proof. intros H. discriminate H. Qed.

Lemma renameSchemas_snd prefix (order : list (string * option loc))
    (acc : gmap string (option loc)) (rn : gmap string string) ref :
  (foldl (fun acc e =>
            let newName := prefix +:+ e.1 in
            (<[newName := e.2]> acc.1,
             <["#/definitions/" +:+ e.1 := "#/components/schemas/" +:+ newName]>
               (<["#/components/schemas/" +:+ e.1
                  := "#/components/schemas/" +:+ newName]> acc.2)))
     (acc, rn) order).2 !! ref
  = orElse (kindTarget "#/definitions/" "#/components/schemas/" prefix
              (list_to_set order.*1) ref)
      (orElse (kindTarget "#/components/schemas/" "#/components/schemas/" prefix
                 (list_to_set order.*1) ref)
         (rn !! ref)).
Proof.
  revert acc rn. induction order as [|[k v] order IH]; intros acc rn.
  - simpl. unfold kindTarget.
    by destruct (stripRef "#/definitions/" ref), (stripRef "#/components/schemas/" ref).
  - simpl. rewrite IH. unfold kindTarget.
    destruct (stripRef "#/definitions/" ref) as [n|] eqn:Hd.
    + apply stripRef_Some in Hd. subst ref.
      destruct (decide (n ∈ (list_to_set order.*1 : gset string))) as [Hin|Hnin].
      * rewrite decide_True; [done|]. apply elem_of_union. by right.
      * change (stripRef "#/components/schemas/" ("#/definitions/" +:+ n)) with (@None string).
        simpl. destruct (decide (k = n)) as [->|Hne].
        -- rewrite lookup_insert_eq, decide_True; [done|].
           apply elem_of_union. left. by apply elem_of_singleton.
        -- rewrite lookup_insert_ne, lookup_insert_ne, decide_False; [done| | |].
           ++ intros [Hk%elem_of_singleton|Hk]%elem_of_union;
                [by subst|by apply Hnin].
           ++ intros H. symmetry in H. by apply definitions_not_schemas in H.
           ++ intros H. by apply (inj (String.append "#/definitions/")) in H.
    + destruct (stripRef "#/components/schemas/" ref) as [n|] eqn:Hs.
      * apply stripRef_Some in Hs. subst ref.
        destruct (decide (n ∈ (list_to_set order.*1 : gset string))) as [Hin|Hnin].
        -- rewrite decide_True; [done|]. apply elem_of_union. by right.
        -- simpl. rewrite lookup_insert_ne by apply definitions_not_schemas.
           destruct (decide (k = n)) as [->|Hne].
           ++ rewrite lookup_insert_eq, decide_True; [done|].
              apply elem_of_union. left. by apply elem_of_singleton.
           ++ rewrite lookup_insert_ne, decide_False; [done| |].
              ** intros [Hk%elem_of_singleton|Hk]%elem_of_union;
                   [by subst|by apply Hnin].
              ** intros H. by apply (inj (String.append "#/components/schemas/")) in H.
      * simpl. rewrite !lookup_insert_ne; [done| |].
        -- intros <-. by rewrite stripRef_app in Hs.
        -- intros <-. by rewrite stripRef_app in Hd.
Qed.

Lemma renameSchemas_spec prefix (m : gmap string (option loc)) order rn :
  range_of m order ->
  (renameSchemas prefix m order rn).1
  = (kmap (String.append prefix) m : gmap string (option loc)) /\
  forall ref,
    (renameSchemas prefix m order rn).2 !! ref
    = orElse (kindTarget "#/definitions/" "#/components/schemas/" prefix (dom m) ref)
        (orElse (kindTarget "#/components/schemas/" "#/components/schemas/" prefix
                   (dom m) ref)
           (rn !! ref)).
Proof.
  intros Hr. unfold renameSchemas. destruct (Nat.eqb_spec (size m) 0) as [Hz|Hnz].
  - pose proof Hz as Hempty. apply map_size_empty_iff in Hempty. subst m. split.
    + simpl. by rewrite kmap_empty.
    + intros ref. simpl. unfold kindTarget. rewrite dom_empty_L.
      destruct (stripRef "#/definitions/" ref) as [n|];
        destruct (stripRef "#/components/schemas/" ref) as [n'|]; try done;
        repeat (rewrite decide_False by apply not_elem_of_empty); done.
  - split.
    + rewrite renameSchemas_fst. by apply kmap_range.
    + intros ref. rewrite renameSchemas_snd.
      assert (Hn : forall n, n ∈ (list_to_set order.*1 : gset string) <-> n ∈ dom m).
      { intros n. rewrite elem_of_list_to_set. by apply range_of_dom. }
      by rewrite !(kindTarget_names _ _ _ _ _ _ Hn).
Qed.

(** The renaming loops together. *)
Lemma renameComponents_spec prefix c o :
  range_of_components c o ->
  (renameComponents prefix c o).1 = prefixedComponents prefix c /\
  forall ref, (renameComponents prefix c o).2 !! ref = renameTarget prefix c ref.
Proof.
  intros (Hs & Hresp & Hparam & Hsec & Hbody & _).
  unfold renameComponents, prefixedComponents, renameTarget.
  set (r1 := renameSchemas prefix (Components_Schemas c) (order_Schemas o) ∅).
  set (r2 := renameKind "#/components/responses/" prefix _ _ r1.2).
  set (r3 := renameKind "#/components/parameters/" prefix _ _ r2.2).
  set (r4 := renameKind "#/components/securitySchemes/" prefix _ _ r3.2).
  set (r5 := renameKind "#/components/requestBodies/" prefix _ _ r4.2).
  destruct (renameSchemas_spec prefix _ _ ∅ Hs) as [E1 L1]. fold r1 in E1, L1.
  destruct (renameKind_spec "#/components/responses/" prefix _ _ r1.2 Hresp) as [E2 L2].
  fold r2 in E2, L2.
  destruct (renameKind_spec "#/components/parameters/" prefix _ _ r2.2 Hparam) as [E3 L3].
  fold r3 in E3, L3.
  destruct (renameKind_spec "#/components/securitySchemes/" prefix _ _ r3.2 Hsec)
    as [E4 L4].
  fold r4 in E4, L4.
  destruct (renameKind_spec "#/components/requestBodies/" prefix _ _ r4.2 Hbody)
    as [E5 L5].
  fold r5 in E5, L5.
  split.
  - simpl. by rewrite E1, E2, E3, E4, E5.
  - intros ref. simpl. rewrite L5, L4, L3, L2, L1, lookup_empty.
    do 5 f_equal.
    by destruct (kindTarget "#/components/schemas/" _ _ _ ref).
Qed.

Lemma orElse_Some {A} (a b : option A) x :
  orElse a b = Some x -> a = Some x \/ b = Some x.
Proof. destruct a; simpl; auto. Qed.

Lemma kindTarget_Some src dst prefix names ref new :
  kindTarget src dst prefix names ref = Some new ->
  exists n, n ∈ names /\ ref = src +:+ n /\ new = dst +:+ prefix +:+ n.
Proof.
  unfold kindTarget. destruct (stripRef src ref) as [n|] eqn:Hs; [|done].
  destruct (decide (n ∈ names)); [|done]. intros [= <-].
  apply stripRef_Some in Hs. by exists n.
Qed.

Lemma noPrefixedName_dom {V} prefix (m : gmap string V) n :
  noPrefixedName prefix m -> n ∈ dom m -> prefix +:+ n ∉ dom m.
Proof.
  intros H Hn. apply elem_of_dom in Hn. apply not_elem_of_dom. by apply H.
Qed.

Ltac strip_compute :=
  rewrite ?stripRef_app;
  repeat match goal with
    | |- context [stripRef ?p (?d +:+ ?y)] =>
        change (stripRef p (d +:+ y)) with (@None string)
    end.

(** When no name is another name with the prefix in front, the new
    references are not keys of the rename map. *)
Lemma renameTarget_no_chain prefix c ref new :
  noPrefixedNames prefix c ->
  renameTarget prefix c ref = Some new ->
  renameTarget prefix c new = None.
Proof.
  intros (Hs & Hr & Hp & Hss & Hb) Ht. unfold renameTarget in Ht.
  repeat (apply orElse_Some in Ht as [Ht|Ht]);
    apply kindTarget_Some in Ht as (n & Hn & _ & ->);
    [ pose proof (noPrefixedName_dom _ _ _ Hb Hn) as Hy
    | pose proof (noPrefixedName_dom _ _ _ Hss Hn) as Hy
    | pose proof (noPrefixedName_dom _ _ _ Hp Hn) as Hy
    | pose proof (noPrefixedName_dom _ _ _ Hr Hn) as Hy
    | pose proof (noPrefixedName_dom _ _ _ Hs Hn) as Hy
    | pose proof (noPrefixedName_dom _ _ _ Hs Hn) as Hy ];
    revert Hy; generalize (prefix +:+ n); intros y Hy;
    unfold renameTarget, kindTarget; strip_compute;
    by rewrite decide_False by done.
Qed.

Lemma renameRef_idem_of renames :
  (forall ref new, renames !! ref = Some new -> renames !! new = None) ->
  forall r, renameRef renames (renameRef renames r) = renameRef renames r.
Proof.
  intros Hnc r. unfold renameRef at 2 3. destruct (nonEmpty r) eqn:Hr.
  - destruct (renames !! r) as [new|] eqn:E.
    + unfold renameRef. rewrite (Hnc _ _ E). by destruct (nonEmpty new).
    + unfold renameRef. by rewrite Hr, E.
  - unfold renameRef. by rewrite Hr.
Qed.

Lemma renameRef_target renames r :
  renames !! r = None -> renameRef renames r = r.
Proof. intros H. unfold renameRef. rewrite H. by destruct (nonEmpty r). Qed.

Lemma renameRef_not_key renames :
  (forall ref new, renames !! ref = Some new -> renames !! new = None) ->
  forall r, renames !! r = None \/
            (exists new, renames !! r = Some new /\ renameRef renames r = new)
            \/ r = "".
Proof.
  intros Hnc r. destruct (renames !! r) as [new|] eqn:E; [|by left].
  destruct (nonEmpty r) eqn:Hr.
  - right. left. exists new. split; [done|]. unfold renameRef. by rewrite Hr, E.
  - right. right. by apply nonEmpty_false.
Qed.

(** ** Conflict resolver *)

Lemma renamed_id renames o :
  (forall r, renameRef renames r = r) -> renamed renames o = o.
Proof. intros H. destruct o. unfold renamed. simpl. by rewrite H. Qed.

Lemma renameRef_empty renames r : size renames = 0 -> renameRef renames r = r.
Proof.
  intros H. apply map_size_empty_iff in H. subst renames.
  apply renameRef_target, lookup_empty.
Qed.

Lemma renameTarget_empty_ref prefix c : renameTarget prefix c "" = None.
Proof. reflexivity. Qed.

(** X27. Let the document have components and no callbacks, a schema
    graph without cycle, and no component of a renamed kind named as
    another one of its kind with the prefix in front.  Then
    [applyDisputePrefix] returns, and in the document it returns:
    - the schemas, responses, parameters, security schemes and request
      bodies are stored under the prefix followed by their old names;
    - every [Ref] field that the traversal of [updateRefs] reads is the old
      one passed through the rename map: the [Ref] of parameters, request
      bodies, responses and headers, in the paths and in the component
      maps, and the [Ref] of every schema object reached from the schema
      of a parameter, a header or a media type of these, or from a
      component schema, through items, properties, additionalProperties,
      allOf, oneOf, anyOf and not; the schema objects that are not reached
      are untouched;
    - the rename map sends [#/components/<kind>/<name>] (and
      [#/definitions/<name>] for schemas) to
      [#/components/<kind>/<prefix><name>] for the components of the five
      kinds and nothing else, a reference that is not in the map is left
      as it is, and no rewritten reference is a key of the map.
    The statement is about the fields listed.  The traversal reads no
    reference elsewhere (the content of a parameter or of a header, the
    encodings of a media type, a discriminator mapping, links, examples);
    a schema object that only such a field points to is an object of the
    store that is not reached, and keeps its [Ref]. *)
Theorem X27_applyDisputePrefix_rewrites_refs (fuel : nat) (spec : T) (prefix : string)
    (comps : Components) (renameOrder : ComponentsOrder)
    (pathOrder : list (string * PathItem)) (refsOrder : ComponentsOrder) (h : heap) :
  T_Components spec = Some comps ->
  withoutCallbacks spec ->
  range_of_components comps renameOrder ->
  pathsRange spec pathOrder ->
  range_of_components (prefixedComponents prefix comps) refsOrder ->
  acyclic h ->
  size h < fuel ->
  noPrefixedNames prefix comps ->
  let renames := (renameComponents prefix comps renameOrder).2 in
  let roots := rootsPaths pathOrder ++ rootsComponents refsOrder in
  exists h',
    applyDisputePrefix fuel spec prefix renameOrder pathOrder refsOrder h
    = Some (rewriteSpec renames
              (set_Components spec (Some (prefixedComponents prefix comps))), h') /\
    (forall q o, h !! q = Some o ->
       (reachable h roots q -> h' !! q = Some (renamed renames o)) /\
       (~ reachable h roots q -> h' !! q = Some o)) /\
    (forall q, h !! q = None -> h' !! q = None) /\
    (forall ref, renames !! ref = renameTarget prefix comps ref) /\
    (forall ref, renames !! ref = None -> renameRef renames ref = ref) /\
    (forall ref, renames !! (renameRef renames ref) = None).
Proof.
  intros Hcomps _ Hrename Hpaths Hrefs Hacyc Hfuel Hnames renames roots.
  destruct (renameComponents_spec prefix comps renameOrder Hrename) as [Ec Hrn].
  fold renames in Hrn.
  assert (Hnc : forall ref new, renames !! ref = Some new -> renames !! new = None).
  { intros ref new. rewrite !Hrn. by apply renameTarget_no_chain. }
  pose proof (renameRef_idem_of renames Hnc) as Hidem.
  assert (Hkeys : forall ref, renames !! (renameRef renames ref) = None).
  { intros ref. destruct (renameRef_not_key renames Hnc ref)
      as [E|[(new & E & Enew)|Eref]].
    - by rewrite renameRef_target.
    - rewrite Enew. by eapply Hnc.
    - rewrite Eref. change (renameRef renames "") with "".
      rewrite Hrn. apply renameTarget_empty_ref. }
  unfold applyDisputePrefix. rewrite Hcomps. fold renames. rewrite Ec.
  set (spec1 := set_Components spec (Some (prefixedComponents prefix comps))).
  destruct (decide (size renames = 0)) as [Hz|Hnz].
  - exists h. unfold updateRefs. rewrite Hz. simpl.
    pose proof (fun r => renameRef_empty renames r Hz) as Hid.
    split; [by rewrite rewriteSpec_id|]. split; [|split; [done|]].
    + intros q o Hq. rewrite renamed_id by done. by split.
    + split; [done|]. split; [by intros; apply renameRef_target|done].
  - destruct (visitAll_terminates h renames fuel roots h Hacyc (sameShape_refl h) Hfuel)
      as (h' & Hv & Hshape).
    exists h'. split; [|split; [|split]].
    + rewrite (updateRefs_splits fuel renames spec1 (prefixedComponents prefix comps))
        by done.
      fold roots. by rewrite Hv.
    + intros q o Hq. by eapply visitAll_result.
    + intros q Hq. specialize (Hshape q). rewrite Hq in Hshape.
      by destruct (h' !! q).
    + split; [done|]. split; [by intros; apply renameRef_target|done].
Qed.

(** ** The checks are sound *)

Lemma range_of_map_to_list {V} (m : gmap string V) : range_of m (map_to_list m).
Proof. unfold range_of. reflexivity. Qed.

Lemma range_of_orderOf c : range_of_components c (orderOf c).
Proof. repeat split; apply range_of_map_to_list. Qed.

Lemma noPrefixedNameb_sound {V} prefix (m : gmap string V) :
  noPrefixedNameb prefix m = true -> noPrefixedName prefix m.
Proof.
  unfold noPrefixedNameb. rewrite forallb_forall. intros H n [v Hn].
  assert (Hin : In n (map_to_list m).*1).
  { apply list_elem_of_In, list_elem_of_fmap. exists (n, v). split; [done|].
    by apply elem_of_map_to_list. }
  specialize (H n Hin). by destruct (m !! (prefix +:+ n)).
Qed.

Lemma noPrefixedNamesb_sound prefix c :
  noPrefixedNamesb prefix c = true -> noPrefixedNames prefix c.
Proof.
  unfold noPrefixedNamesb, noPrefixedNames. rewrite !andb_true_iff.
  intros ((((H1 & H2) & H3) & H4) & H5).
  repeat split; by apply noPrefixedNameb_sound.
Qed.

(** * Further properties of the stages *)

(** ** Operation filter: what is kept *)

Lemma hasLen_false {A} (l : list A) : hasLen l = false <-> l = [].
Proof. by destruct l. Qed.

Lemma tag_in_list (t : string) (l : list string) :
  existsb (String.eqb t) l = true <-> t ∈ l.
Proof.
  rewrite existsb_elem_of. split.
  - intros (x & Hx & ->%String.eqb_eq). done.
  - intros H. exists t. split; [done|]. apply String.eqb_refl.
Qed.

Lemma shouldIncludeOperation_excluded_path path method op sel f :
  f ∈ ExcludePaths sel -> matchPathFilter path method f = true ->
  shouldIncludeOperation path method op sel = false.
Proof.
  intros Hin Hm. unfold shouldIncludeOperation.
  assert (He : existsb (matchPathFilter path method) (ExcludePaths sel) = true).
  { apply existsb_elem_of. by exists f. }
  assert (Hl : hasLen (ExcludePaths sel) = true).
  { destruct (ExcludePaths sel); [by apply elem_of_nil in Hin|done]. }
  rewrite He, Hl. simpl.
  destruct (hasLen (IncludeTags sel) && _); [done|].
  destruct (hasLen (ExcludeTags sel) && _); [done|].
  by destruct (hasLen (IncludePaths sel) && _).
Qed.

Lemma matchPathFilter_exact path method :
  matchPathFilter path method (mkPathFilter path "") = true.
Proof.
  unfold matchPathFilter, matchGlob. simpl. by rewrite String.eqb_refl.
Qed.

Lemma opAt_mkPathItem method a b c d e f g h ps :
  opAt method (mkPathItem a b c d e f g h ps)
  = if String.eqb method "GET" then a
    else if String.eqb method "POST" then b
    else if String.eqb method "PUT" then c
    else if String.eqb method "DELETE" then d
    else if String.eqb method "PATCH" then e
    else if String.eqb method "HEAD" then f
    else if String.eqb method "OPTIONS" then g
    else if String.eqb method "TRACE" then h
    else None.
Proof. reflexivity. Qed.

Ltac method_case method name :=
  let E := fresh "E" in
  destruct (String.eqb method name) eqn:E;
  [apply String.eqb_eq in E; subst method; reflexivity|].

Ltac method_cases method :=
  method_case method "GET"; method_case method "POST"; method_case method "PUT";
  method_case method "DELETE"; method_case method "PATCH"; method_case method "HEAD";
  method_case method "OPTIONS"; method_case method "TRACE".

Lemma filterPathItem_opAt sel path p method :
  opAt method (filterPathItem sel path p) = keepOp sel path method (opAt method p).
Proof.
  rewrite filterPathItem_fields, opAt_mkPathItem. unfold opAt.
  method_cases method. reflexivity.
Qed.

Lemma isPathItemEmpty_opAt p :
  isPathItemEmpty p = true <-> forall method, opAt method p = None.
Proof.
  destruct p as [a b c d e f g h ps]. split.
  - intros H method. unfold isPathItemEmpty in H. simpl in H.
    repeat (apply andb_true_iff in H as [H ?]).
    destruct a; [done|]. destruct b; [done|]. destruct c; [done|].
    destruct d; [done|]. destruct e; [done|]. destruct f; [done|].
    destruct g; [done|]. destruct h; [done|].
    rewrite opAt_mkPathItem. method_cases method. reflexivity.
  - intros H.
    pose proof (H "GET") as H1. pose proof (H "POST") as H2.
    pose proof (H "PUT") as H3. pose proof (H "DELETE") as H4.
    pose proof (H "PATCH") as H5. pose proof (H "HEAD") as H6.
    pose proof (H "OPTIONS") as H7. pose proof (H "TRACE") as H8.
    vm_compute in H1, H2, H3, H4, H5, H6, H7, H8. by subst.
Qed.

(** X1. The four checks of [shouldIncludeOperation] as one condition: an
    operation is kept exactly when it carries an included tag (if tags are
    included at all), carries no excluded tag, matches an included path
    filter (if there are any) and matches no excluded path filter.  So an
    exclusion always wins over an inclusion, and an operation without tags
    is dropped as soon as [includeTags] is not empty. *)
Theorem X1_shouldIncludeOperation_iff (path method : string) (op : Operation)
    (sel : OperationSelectionConfig) :
  (shouldIncludeOperation path method op sel = true <->
     (IncludeTags sel = [] \/
      exists t, t ∈ Operation_Tags op /\ t ∈ IncludeTags sel) /\
     (forall t, t ∈ Operation_Tags op -> t ∉ ExcludeTags sel) /\
     (IncludePaths sel = [] \/
      exists f, f ∈ IncludePaths sel /\ matchPathFilter path method f = true) /\
     (forall f, f ∈ ExcludePaths sel -> matchPathFilter path method f = false)) /\
  (forall t, t ∈ Operation_Tags op -> t ∈ ExcludeTags sel ->
     shouldIncludeOperation path method op sel = false) /\
  (Operation_Tags op = [] -> IncludeTags sel <> [] ->
     shouldIncludeOperation path method op sel = false).
Proof.
  assert (Hbool : shouldIncludeOperation path method op sel
    = negb (hasLen (IncludeTags sel)
            && negb (existsb (fun opTag => existsb (String.eqb opTag) (IncludeTags sel))
                       (Operation_Tags op)))
      && negb (hasLen (ExcludeTags sel)
               && existsb (fun opTag => existsb (String.eqb opTag) (ExcludeTags sel))
                    (Operation_Tags op))
      && negb (hasLen (IncludePaths sel)
               && negb (existsb (matchPathFilter path method) (IncludePaths sel)))
      && negb (hasLen (ExcludePaths sel)
               && existsb (matchPathFilter path method) (ExcludePaths sel))).
  { unfold shouldIncludeOperation.
    destruct (hasLen (IncludeTags sel) && _); [done|].
    destruct (hasLen (ExcludeTags sel) && _); [done|].
    destruct (hasLen (IncludePaths sel) && _); [done|].
    by destruct (hasLen (ExcludePaths sel) && _). }
  assert (H1 : forall {A} (l : list A) (b : bool) (P : Prop),
             (b = true <-> P) ->
             negb (hasLen l && negb b) = true <-> l = [] \/ P).
  { intros A l b P HP. destruct l as [|x l]; simpl.
    - split; [by left|done].
    - rewrite negb_involutive, HP. split; [by right|]. by intros [?|?]. }
  assert (H2 : forall {A} (l : list A) (b : bool) (P : Prop),
             (b = false <-> P) -> (l = [] -> P) ->
             negb (hasLen l && b) = true <-> P).
  { intros A l b P HP Hnil. destruct l as [|x l]; simpl.
    - split; [intros _; by apply Hnil|done].
    - by rewrite negb_true_iff. }
  assert (Hiff : shouldIncludeOperation path method op sel = true <->
     (IncludeTags sel = [] \/
      exists t, t ∈ Operation_Tags op /\ t ∈ IncludeTags sel) /\
     (forall t, t ∈ Operation_Tags op -> t ∉ ExcludeTags sel) /\
     (IncludePaths sel = [] \/
      exists f, f ∈ IncludePaths sel /\ matchPathFilter path method f = true) /\
     (forall f, f ∈ ExcludePaths sel -> matchPathFilter path method f = false)).
  { rewrite Hbool, !andb_true_iff.
    rewrite (H1 _ (IncludeTags sel) _
               (exists t, t ∈ Operation_Tags op /\ t ∈ IncludeTags sel)).
    2:{ rewrite existsb_elem_of.
        split; intros (t & Ht & Hi); exists t; split; try done; by apply tag_in_list. }
    rewrite (H2 _ (ExcludeTags sel) _
               (forall t, t ∈ Operation_Tags op -> t ∉ ExcludeTags sel)).
    2:{ rewrite existsb_false_elem_of. split.
        - intros H t Ht Hin. apply tag_in_list in Hin. rewrite (H t Ht) in Hin. done.
        - intros H t Ht.
          destruct (existsb (String.eqb t) (ExcludeTags sel)) eqn:E; [|done].
          apply tag_in_list in E. by destruct (H t Ht). }
    2:{ intros E t _. rewrite E. apply not_elem_of_nil. }
    rewrite (H1 _ (IncludePaths sel) _
               (exists f, f ∈ IncludePaths sel /\ matchPathFilter path method f = true)).
    2:{ apply existsb_elem_of. }
    rewrite (H2 _ (ExcludePaths sel) _
               (forall f, f ∈ ExcludePaths sel -> matchPathFilter path method f = false)).
    2:{ apply existsb_false_elem_of. }
    2:{ intros E f Hf. rewrite E in Hf. by apply elem_of_nil in Hf. }
    tauto. }
  split; [exact Hiff|]. split.
  - intros t Ht He. apply not_true_is_false. intros E.
    apply Hiff in E as (_ & Hex & _). by destruct (Hex t Ht).
  - intros Hno Hinc. apply not_true_is_false. intros E.
    apply Hiff in E as ([?|(t & Ht & _)] & _); [done|].
    rewrite Hno in Ht. by apply elem_of_nil in Ht.
Qed.

(** X2. An excluded path filter without method whose path is the path key
    itself removes the whole path, whatever the glob library makes of the
    pattern (a key such as [/users/{id}] is not a pattern that matches
    itself): [matchGlob] compares the strings before it compiles. *)
Theorem X2_exclude_exact_path (spec : T) (input : InputConfig)
    (sel : OperationSelectionConfig) (paths : gmap string PathItem)
    (order : list (string * PathItem)) (p : string) :
  OperationSelection input = Some sel ->
  T_Paths spec = Some paths ->
  range_of paths order ->
  mkPathFilter p "" ∈ ExcludePaths sel ->
  exists paths',
    T_Paths (filterOperations spec input order) = Some paths' /\
    paths' !! p = None /\
    (forall method op, shouldIncludeOperation p method op sel = false).
Proof.
  intros Hsel Hpaths Hr Hin.
  assert (Hno : forall method op, shouldIncludeOperation p method op sel = false).
  { intros method op.
    apply (shouldIncludeOperation_excluded_path _ _ _ _ _ Hin).
    apply matchPathFilter_exact. }
  destruct (filterOperations_paths spec input sel paths order Hsel Hpaths Hr)
    as (paths' & -> & Hlk).
  exists paths'. split; [done|]. split; [|done].
  rewrite Hlk. destruct (paths !! p) as [item|]; [|done]. simpl.
  unfold filteredEntry.
  assert (He : isPathItemEmpty (filterPathItem sel p item) = true).
  { apply isPathItemEmpty_opAt. intros method. rewrite filterPathItem_opAt.
    unfold keepOp. destruct (opAt method item); [|done]. by rewrite Hno. }
  by rewrite He.
Qed.

(** X3. The operation filter only removes: a path of the result is a path
    of the input with the same path-level parameters, its operations are
    the operations of the input that [shouldIncludeOperation] accepts,
    untouched, every accepted operation is still there, and the components
    and tags of the document stay as they are. *)
Theorem X3_filterOperations_only_removes (spec : T) (input : InputConfig)
    (sel : OperationSelectionConfig) (paths : gmap string PathItem)
    (order : list (string * PathItem)) :
  OperationSelection input = Some sel ->
  T_Paths spec = Some paths ->
  range_of paths order ->
  exists paths',
    filterOperations spec input order = set_Paths spec (Some paths') /\
    (forall k p', paths' !! k = Some p' ->
       exists p, paths !! k = Some p /\
         PathItem_Parameters p' = PathItem_Parameters p /\
         forall method op,
           opAt method p' = Some op <->
           opAt method p = Some op /\
           shouldIncludeOperation k method op sel = true) /\
    (forall k p method op,
       paths !! k = Some p -> opAt method p = Some op ->
       shouldIncludeOperation k method op sel = true ->
       exists p', paths' !! k = Some p' /\ opAt method p' = Some op).
Proof.
  intros Hsel Hpaths Hr.
  destruct (filterOperations_paths spec input sel paths order Hsel Hpaths Hr)
    as (paths' & E & Hlk).
  assert (Hop : forall k p method op,
             opAt method (filterPathItem sel k p) = Some op <->
             opAt method p = Some op /\ shouldIncludeOperation k method op sel = true).
  { intros k p method op. rewrite filterPathItem_opAt. unfold keepOp.
    destruct (opAt method p) as [o|]; [|by split; [|intros [? _]]].
    destruct (shouldIncludeOperation k method o sel) eqn:Hs.
    - split; [by intros [= <-]|by intros [? _]].
    - split; [done|]. intros [[= <-] Hs']. congruence. }
  exists paths'. split; [exact E|]. split.
  - intros k p' Hk. rewrite Hlk in Hk.
    destruct (paths !! k) as [p|] eqn:Hp; [|done]. simpl in Hk.
    unfold filteredEntry in Hk.
    destruct (isPathItemEmpty (filterPathItem sel k p)); [done|].
    injection Hk as <-. exists p. split; [done|]. split.
    + by rewrite filterPathItem_fields.
    + intros method op. apply Hop.
  - intros k p method op Hp Hm Hs. rewrite Hlk, Hp. simpl. unfold filteredEntry.
    assert (Hin : opAt method (filterPathItem sel k p) = Some op) by by apply Hop.
    destruct (isPathItemEmpty (filterPathItem sel k p)) eqn:He.
    + rewrite isPathItemEmpty_opAt in He. rewrite He in Hin. done.
    + by exists (filterPathItem sel k p).
Qed.

(** X4. The result of the operation filter does not depend on the order in
    which Go iterates over the path map, nor on the order in which it
    iterates over the operations of a path item. *)
Theorem X4_filterOperations_order_independent (spec : T) (input : InputConfig)
    (paths : gmap string PathItem) (order1 order2 : list (string * PathItem)) :
  T_Paths spec = Some paths ->
  range_of paths order1 ->
  range_of paths order2 ->
  filterOperations spec input order1 = filterOperations spec input order2 /\
  (forall sel path p ops,
     ops ≡ₚ getOperationsMap p ->
     filterPathItemOver sel path p ops = filterPathItem sel path p).
Proof.
  intros Hpaths H1 H2. split; [|by intros; apply filterPathItemOver_perm].
  destruct (OperationSelection input) as [sel|] eqn:Hsel;
    [|unfold filterOperations; by rewrite Hsel].
  destruct (filterOperations_paths spec input sel paths order1 Hsel Hpaths H1)
    as (p1 & -> & Hl1).
  destruct (filterOperations_paths spec input sel paths order2 Hsel Hpaths H2)
    as (p2 & -> & Hl2).
  f_equal. f_equal. apply map_eq. intros k. by rewrite Hl1, Hl2.
Qed.

(** ** Path rewriter and base path: which paths survive *)

Lemma withSlash_prefix (s : string) : HasPrefix (withSlash s) "/" = true.
Proof.
  unfold withSlash. destruct (HasPrefix s "/") eqn:E; [done|].
  apply (HasPrefix_app "/" s).
Qed.

Lemma rewritePathKey_withSlash (mod_ : PathModificationConfig) (path : string) :
  HasPrefix (rewritePathKey mod_ path) "/" = true.
Proof.
  destruct (rewritePathKey_stripped mod_ path) as (s & _ & ->).
  apply withSlash_prefix.
Qed.

(** X5. After the path rewriter has run with a modification, every path
    key of the document starts with a slash, whatever [stripStart] and
    [prepend] are and whatever the keys were. *)
Theorem X5_modifyPaths_keys_start_with_slash (spec : T) (input : InputConfig)
    (mod_ : PathModificationConfig) (order : list (string * PathItem))
    (paths newPaths : gmap string PathItem) :
  PathModification input = Some mod_ ->
  T_Paths spec = Some paths ->
  T_Paths (modifyPaths spec input order) = Some newPaths ->
  forall k, is_Some (newPaths !! k) -> HasPrefix k "/" = true.
Proof.
  intros Hmod Hpaths. unfold modifyPaths. rewrite Hmod, Hpaths. simpl.
  intros [= <-] k Hk. apply modifyPathsLoop_dom in Hk as (e & _ & <-).
  apply rewritePathKey_withSlash.
Qed.

Lemma foldl_insert_fmap {V} (f : string -> string) (l : list (string * V))
    (acc : gmap string V) :
  foldl (fun (a : gmap string V) e => <[f e.1 := e.2]> a) acc l
  = foldl (fun (a : gmap string V) e => <[e.1 := e.2]> a) acc (prod_map f id <$> l).
Proof. revert acc. induction l as [|e l IH]; intros acc; [done|]. simpl. apply IH. Qed.

Lemma NoDup_fmap_on {A B} (f : A -> B) (l : list A) :
  (forall x y, x ∈ l -> y ∈ l -> f x = f y -> x = y) ->
  NoDup l -> NoDup (f <$> l).
Proof.
  intros Hinj Hnd. induction Hnd as [|x l Hx Hnd IH]; [constructor|].
  rewrite fmap_cons. constructor.
  - intros (y & Hxy & Hy)%list_elem_of_fmap.
    apply Hinj in Hxy; [by subst|by left|by right].
  - apply IH. intros a b Ha Hb. apply Hinj; by right.
Qed.

(** The rewritten path map when no two keys are rewritten to the same key. *)
Lemma modifyPathsLoop_injective mod_ (paths : gmap string PathItem) order :
  range_of paths order ->
  (forall p q, is_Some (paths !! p) -> is_Some (paths !! q) ->
     rewritePathKey mod_ p = rewritePathKey mod_ q -> p = q) ->
  modifyPathsLoop mod_ order
  = list_to_map (prod_map (rewritePathKey mod_) id <$> map_to_list paths) /\
  NoDup (prod_map (rewritePathKey mod_) id <$> map_to_list paths).*1.
Proof.
  intros Hr Hinj.
  assert (Hkeys : forall l : list (string * PathItem), l ≡ₚ map_to_list paths ->
            NoDup (prod_map (rewritePathKey mod_) id <$> l).*1).
  { intros l Hl. rewrite fst_prod_map. apply NoDup_fmap_on.
    - intros x y Hx Hy. apply Hinj.
      + apply (range_of_dom paths l x Hl) in Hx. by apply elem_of_dom.
      + apply (range_of_dom paths l y Hl) in Hy. by apply elem_of_dom.
    - by apply (range_of_NoDup paths). }
  split; [|by apply Hkeys].
  unfold modifyPathsLoop.
  rewrite (foldl_insert_fmap (rewritePathKey mod_)).
  rewrite foldl_insert_list_to_map by by apply Hkeys.
  apply list_to_map_proper; [by apply Hkeys|].
  unfold range_of in Hr. by rewrite Hr.
Qed.

(** X6. When no two path keys of the document are rewritten to the same
    key, the path rewriter loses nothing: every path item is found under
    its new key, the number of paths is the same, and the result does not
    depend on the order of the loop. *)
Theorem X6_modifyPaths_injective_keeps_all (spec : T) (input : InputConfig)
    (mod_ : PathModificationConfig) (paths : gmap string PathItem)
    (order : list (string * PathItem)) :
  PathModification input = Some mod_ ->
  T_Paths spec = Some paths ->
  range_of paths order ->
  (forall p q, is_Some (paths !! p) -> is_Some (paths !! q) ->
     rewritePathKey mod_ p = rewritePathKey mod_ q -> p = q) ->
  exists newPaths,
    T_Paths (modifyPaths spec input order) = Some newPaths /\
    (forall p item, paths !! p = Some item ->
       newPaths !! rewritePathKey mod_ p = Some item) /\
    size newPaths = size paths /\
    (forall order', range_of paths order' ->
       modifyPaths spec input order' = modifyPaths spec input order).
Proof.
  intros Hmod Hpaths Hr Hinj.
  destruct (modifyPathsLoop_injective mod_ paths order Hr Hinj) as [E Hnd].
  exists (modifyPathsLoop mod_ order). split; [|split; [|split]].
  - unfold modifyPaths. by rewrite Hmod, Hpaths.
  - intros p item Hp. rewrite E. apply elem_of_list_to_map; [done|].
    apply list_elem_of_fmap. exists (p, item). split; [done|].
    by apply elem_of_map_to_list.
  - rewrite E. rewrite map_size_list_to_map by done.
    rewrite length_fmap. apply length_map_to_list.
  - intros order' Hr'. unfold modifyPaths. rewrite Hmod, Hpaths.
    destruct (modifyPathsLoop_injective mod_ paths order' Hr' Hinj) as [E' _].
    by rewrite E, E'.
Qed.

Lemma HasPrefix_slash_app (p k : string) :
  HasPrefix p "/" = true -> HasPrefix (p +:+ k) "/" = true.
Proof.
  intros (rest & ->)%HasPrefix_inv. apply (HasPrefix_app "/" (rest +:+ k)).
Qed.

Lemma HasPrefix_slash_nonEmpty (p : string) : HasPrefix p "/" = true -> nonEmpty p = true.
Proof. by intros (rest & ->)%HasPrefix_inv. Qed.

Lemma rewritePathKey_prepend (prefix k : string) :
  HasPrefix prefix "/" = true ->
  rewritePathKey (mkPathModificationConfig "" prefix) k = prefix +:+ k.
Proof.
  intros Hp. unfold rewritePathKey. simpl.
  rewrite (HasPrefix_slash_nonEmpty _ Hp). by rewrite (HasPrefix_slash_app _ _ Hp).
Qed.

Lemma rewritePathKey_strip (prefix k : string) :
  HasPrefix k "/" = true ->
  rewritePathKey (mkPathModificationConfig prefix "") (prefix +:+ k) = k.
Proof.
  intros Hk. unfold rewritePathKey. simpl.
  destruct (nonEmpty prefix) eqn:Hne; simpl.
  - by rewrite HasPrefix_app, TrimPrefix_app, Hk.
  - apply nonEmpty_false in Hne. subst prefix.
    change ("" +:+ k) with k. by rewrite Hk.
Qed.

Lemma modifyPathsLoop_kmap (mod_ : PathModificationConfig) (f : string -> string)
    `{!Inj (=) (=) f} (paths : gmap string PathItem) order :
  range_of paths order ->
  (forall k, is_Some (paths !! k) -> rewritePathKey mod_ k = f k) ->
  modifyPathsLoop mod_ order = (kmap f paths : gmap string PathItem).
Proof.
  intros Hr Hf.
  assert (Hinj : forall p q, is_Some (paths !! p) -> is_Some (paths !! q) ->
            rewritePathKey mod_ p = rewritePathKey mod_ q -> p = q).
  { intros p q Hp Hq. rewrite (Hf p Hp), (Hf q Hq). apply (inj f). }
  destruct (modifyPathsLoop_injective mod_ paths order Hr Hinj) as [E Hnd].
  rewrite E. apply map_eq. intros k. apply option_eq. intros v.
  rewrite <- elem_of_list_to_map by done.
  rewrite list_elem_of_fmap, lookup_kmap_Some by done. split.
  - intros ([k0 v0] & [= -> ->] & Hin). apply elem_of_map_to_list in Hin.
    exists k0. split; [|done]. simpl. apply Hf. by exists v0.
  - intros (k0 & -> & Hk0). exists (k0, v). split.
    + unfold prod_map. simpl. f_equal. symmetry. apply Hf. by exists v.
    + by apply elem_of_map_to_list.
Qed.

(** X7. Prepending a prefix and stripping it again gives the document
    back: for a prefix and path keys that start with a slash, the path
    rewriter with [prepend] stores every path item under prefix + key and
    loses none, and the path rewriter with the same string as [stripStart]
    undoes it. *)
Theorem X7_prepend_then_strip (spec : T) (inPrepend inStrip : InputConfig)
    (prefix : string) (paths : gmap string PathItem)
    (order1 order2 : list (string * PathItem)) :
  T_Paths spec = Some paths ->
  PathModification inPrepend = Some (mkPathModificationConfig "" prefix) ->
  PathModification inStrip = Some (mkPathModificationConfig prefix "") ->
  HasPrefix prefix "/" = true ->
  (forall k, is_Some (paths !! k) -> HasPrefix k "/" = true) ->
  range_of paths order1 ->
  (forall paths1, T_Paths (modifyPaths spec inPrepend order1) = Some paths1 ->
                  range_of paths1 order2) ->
  T_Paths (modifyPaths spec inPrepend order1)
  = Some (kmap (String.append prefix) paths) /\
  modifyPaths (modifyPaths spec inPrepend order1) inStrip order2 = spec.
Proof.
  intros Hpaths Hpre Hstrip Hprefix Hkeys Hr1 Hr2.
  assert (E1 : modifyPathsLoop (mkPathModificationConfig "" prefix) order1
               = (kmap (String.append prefix) paths : gmap string PathItem)).
  { apply modifyPathsLoop_kmap; [apply _|done|].
    intros k _. by apply rewritePathKey_prepend. }
  assert (Hm1 : modifyPaths spec inPrepend order1
                = set_Paths spec (Some (kmap (String.append prefix) paths))).
  { unfold modifyPaths. by rewrite Hpre, Hpaths, E1. }
  split; [by rewrite Hm1|].
  specialize (Hr2 (kmap (String.append prefix) paths)). rewrite Hm1 in Hr2.
  specialize (Hr2 eq_refl). rewrite Hm1.
  unfold modifyPaths. rewrite Hstrip. simpl.
  assert (E2 : modifyPathsLoop (mkPathModificationConfig prefix "") order2 = paths).
  { assert (Hlk : forall k v,
        modifyPathsLoop (mkPathModificationConfig prefix "") order2 !! k = Some v
        <-> paths !! k = Some v).
    { intros k v. rewrite modifyPathsLoop_lookup. split.
      - intros Hl. destruct (last _) as [[k1 v1]|] eqn:El; [|done].
        simpl in Hl. injection Hl as ->.
        apply last_Some_elem_of in El.
        apply list_elem_of_filter in El as [Hk1 Hin]. simpl in Hk1.
        apply (range_of_elem _ _ _ _ Hr2) in Hin.
        apply lookup_kmap_Some in Hin as (k0 & -> & Hk0); [|apply _].
        rewrite rewritePathKey_strip in Hk1 by (apply Hkeys; by exists v).
        by subst k0.
      - intros Hk.
        assert (Hin : (prefix +:+ k, v) ∈ order2).
        { apply (range_of_elem _ _ _ _ Hr2). apply lookup_kmap_Some; [apply _|].
          by exists k. }
        assert (Hf : (prefix +:+ k, v)
                     ∈ filter (fun e : string * PathItem =>
                                 rewritePathKey (mkPathModificationConfig prefix "") e.1 = k)
                         order2).
        { apply list_elem_of_filter. split; [|done]. simpl.
          apply rewritePathKey_strip, Hkeys. by exists v. }
        destruct (last _) as [[k1 v1]|] eqn:El.
        + simpl. apply last_Some_elem_of in El.
          apply list_elem_of_filter in El as [Hk1 Hin1]. simpl in Hk1.
          apply (range_of_elem _ _ _ _ Hr2) in Hin1.
          apply lookup_kmap_Some in Hin1 as (k0 & -> & Hk0); [|apply _].
          rewrite rewritePathKey_strip in Hk1 by (apply Hkeys; by exists v1).
          subst k0. congruence.
        + apply last_None in El. rewrite El in Hf. by apply elem_of_nil in Hf. }
    apply map_eq. intros k. apply option_eq. intros v. apply Hlk. }
  rewrite E2. destruct spec as [ps cs ts]. simpl in *. by subst ps.
Qed.

Lemma size_kmap_append {V} (prefix : string) (m : gmap string V) :
  size (kmap (String.append prefix) m : gmap string V) = size m.
Proof.
  rewrite <- !length_map_to_list.
  rewrite (map_to_list_kmap (String.append prefix) m). by rewrite length_fmap.
Qed.

Lemma normalizedBasePath_long (s : string) :
  s <> "" ->
  HasPrefix (TrimSuffix ("/" +:+ s) "/") "/" = true.
Proof.
  intros Hs. destruct s as [|c r]; [done|].
  unfold TrimSuffix. destruct (HasSuffix _ _); [|reflexivity].
  cbn [String.length String.append Nat.sub string_take].
  apply (HasPrefix_app "/").
Qed.

Lemma normalizedBasePath_cases (basePath : string) :
  (normalizedBasePath basePath = "" /\ (basePath = "" \/ basePath = "/")) \/
  (HasPrefix (normalizedBasePath basePath) "/" = true
   /\ basePath <> "" /\ basePath <> "/").
Proof.
  unfold normalizedBasePath.
  destruct (HasPrefix basePath "/") eqn:E; simpl.
  - apply HasPrefix_inv in E as (rest & ->).
    destruct rest as [|c r]; [left; split; [reflexivity|by right]|].
    right. split; [by apply normalizedBasePath_long|]. done.
  - destruct basePath as [|c r]; [left; split; [reflexivity|by left]|].
    right. split; [by apply normalizedBasePath_long|]. split; [done|].
    intros Heq. rewrite Heq in E. done.
Qed.

(** X8. The global base path loses no path: every path item of the
    composite is found under the normalized base path followed by its old
    key, the number of paths is the same, and the order of the loop does
    not matter.  The normalized base path starts with a slash, except that
    the base path [/] is normalized to the empty string and then gives
    the path map back. *)
Theorem X8_applyBasePath_keeps_all (basePath : string)
    (paths : gmap string PathItem) (order : list (string * PathItem)) :
  range_of paths order ->
  applyBasePath basePath paths order
  = kmap (String.append (normalizedBasePath basePath)) paths /\
  (forall path,
     applyBasePath basePath paths order !! (normalizedBasePath basePath +:+ path)
     = paths !! path) /\
  size (applyBasePath basePath paths order) = size paths /\
  (basePath <> "" -> basePath <> "/" ->
   HasPrefix (normalizedBasePath basePath) "/" = true) /\
  (basePath = "/" -> applyBasePath basePath paths order = paths).
Proof.
  intros Hr.
  assert (E : applyBasePath basePath paths order
              = (kmap (String.append (normalizedBasePath basePath)) paths
                 : gmap string PathItem)).
  { unfold applyBasePath. by apply kmap_range. }
  split; [exact E|]. split; [|split; [|split]].
  - intros path. rewrite E. apply (lookup_kmap (String.append _)).
  - rewrite E. apply size_kmap_append.
  - intros H1 H2. destruct (normalizedBasePath_cases basePath) as [[_ [?|?]]|[? _]]; done.
  - intros ->. rewrite E. change (normalizedBasePath "/") with "".
    apply map_eq. intros k.
    apply (lookup_kmap (String.append "") paths k).
Qed.

(** ** Parameter injector/remover: what it leaves alone, and running it twice *)

Lemma removeAll_nil input ps : ExcludeParameters input = [] -> removeAll input ps = ps.
Proof. intros E. unfold removeAll. by rewrite E. Qed.

(** X9. The removal loop of [modifyParameters] on a parameter list: the
    result is the list with some entries taken out, in the same order; an
    entry without a value (an unresolved reference) is never taken out; an
    entry with a value is taken out exactly when a filter has its name and
    either no location or its location. *)
Theorem X9_removeAll_spec (input : InputConfig) (ps : list ParameterRef) :
  removeAll input ps `sublist_of` ps /\
  (forall q, q ∈ ps -> ParameterRef_Value q = None -> q ∈ removeAll input ps) /\
  (forall q v, ParameterRef_Value q = Some v ->
     (q ∈ removeAll input ps <->
      q ∈ ps /\
      ~ exists f, f ∈ ExcludeParameters input /\
                  ParamFilter_Name f = Param_Name v /\
                  (ParamFilter_In f = "" \/ ParamFilter_In f = Param_In v))).
Proof.
  rewrite removeAll_filter. split; [|split].
  - unfold removeExcluded. apply sublist_filter.
  - intros q Hq Hv. apply removeExcluded_elem. split; [done|].
    unfold keptParam. by rewrite Hv.
  - intros q v Hv. rewrite removeExcluded_elem. unfold keptParam. rewrite Hv.
    rewrite negb_true_iff, <- isExcluded_iff.
    destruct (isExcluded (ExcludeParameters input) v); split;
      intros [? ?]; split; try done.
Qed.

Lemma modifyOptionalOperation_None input h :
  modifyOptionalOperation input None h = (None, h).
Proof. reflexivity. Qed.

Lemma modifyPathItemParameters_fields input p h :
  exists h1 h2 h3 h4 h5 h6 h7 h8,
    (modifyPathItemParameters input p h).1
    = mkPathItem
        (modifyOptionalOperation input (PathItem_Get p) h1).1
        (modifyOptionalOperation input (PathItem_Post p) h2).1
        (modifyOptionalOperation input (PathItem_Put p) h3).1
        (modifyOptionalOperation input (PathItem_Delete p) h4).1
        (modifyOptionalOperation input (PathItem_Patch p) h5).1
        (modifyOptionalOperation input (PathItem_Head p) h6).1
        (modifyOptionalOperation input (PathItem_Options p) h7).1
        (modifyOptionalOperation input (PathItem_Trace p) h8).1
        (PathItem_Parameters p).
Proof. unfold modifyPathItemParameters. cbn [fst]. by repeat eexists. Qed.

Lemma modifyOptionalOperation_shape input o h o' :
  (modifyOptionalOperation input o h).1 = o' ->
  match o, o' with
  | Some op, Some op' =>
      Operation_Tags op' = Operation_Tags op /\
      Operation_RequestBody op' = Operation_RequestBody op /\
      Operation_Responses op' = Operation_Responses op /\
      Operation_Callbacks op' = Operation_Callbacks op
  | None, None => True
  | _, _ => False
  end.
Proof. intros <-. by destruct o. Qed.

Lemma modifyPathItemParameters_shape input p h method :
  PathItem_Parameters (modifyPathItemParameters input p h).1 = PathItem_Parameters p /\
  match opAt method p, opAt method (modifyPathItemParameters input p h).1 with
  | Some op, Some op' =>
      Operation_Tags op' = Operation_Tags op /\
      Operation_RequestBody op' = Operation_RequestBody op /\
      Operation_Responses op' = Operation_Responses op /\
      Operation_Callbacks op' = Operation_Callbacks op
  | None, None => True
  | _, _ => False
  end.
Proof.
  destruct (modifyPathItemParameters_fields input p h)
    as (h1 & h2 & h3 & h4 & h5 & h6 & h7 & h8 & ->).
  split; [done|]. rewrite opAt_mkPathItem. unfold opAt.
  destruct (String.eqb method "GET");
    [apply (modifyOptionalOperation_shape input (PathItem_Get p) h1 _ eq_refl)|].
  destruct (String.eqb method "POST");
    [apply (modifyOptionalOperation_shape input (PathItem_Post p) h2 _ eq_refl)|].
  destruct (String.eqb method "PUT");
    [apply (modifyOptionalOperation_shape input (PathItem_Put p) h3 _ eq_refl)|].
  destruct (String.eqb method "DELETE");
    [apply (modifyOptionalOperation_shape input (PathItem_Delete p) h4 _ eq_refl)|].
  destruct (String.eqb method "PATCH");
    [apply (modifyOptionalOperation_shape input (PathItem_Patch p) h5 _ eq_refl)|].
  destruct (String.eqb method "HEAD");
    [apply (modifyOptionalOperation_shape input (PathItem_Head p) h6 _ eq_refl)|].
  destruct (String.eqb method "OPTIONS");
    [apply (modifyOptionalOperation_shape input (PathItem_Options p) h7 _ eq_refl)|].
  destruct (String.eqb method "TRACE");
    [apply (modifyOptionalOperation_shape input (PathItem_Trace p) h8 _ eq_refl)|].
  done.
Qed.

Lemma modifyParameters_lookup spec input order h (paths : gmap string PathItem) :
  T_Paths spec = Some paths ->
  range_of paths order ->
  exists paths',
    (modifyParameters spec input order h).1 = set_Paths spec (Some paths') /\
    h ⊆ (modifyParameters spec input order h).2 /\
    forall k,
      match paths !! k with
      | Some p => exists hi, paths' !! k = Some (modifyPathItemParameters input p hi).1
      | None => paths' !! k = None
      end.
Proof.
  intros Hpaths Hr. unfold modifyParameters. rewrite Hpaths. cbn [fst snd].
  destruct (modifyParametersLoop_spec input order paths h (range_of_NoDup _ _ Hr))
    as (Hh & Hin & Hout).
  eexists. split; [reflexivity|]. split; [exact Hh|].
  intros k. destruct (paths !! k) as [p|] eqn:Hk.
  - apply (range_of_elem _ _ _ _ Hr) in Hk.
    destruct (Hin k p Hk) as (hi & _ & _ & E). by exists hi.
  - rewrite Hout; [done|]. intros Hin'.
    apply (range_of_dom paths order k Hr) in Hin'.
    apply elem_of_dom in Hin' as [? ?]. congruence.
Qed.

(** X10. The parameter stage touches nothing but the parameter lists of
    the operations: the document keeps its path keys, every path item
    keeps its path-level parameters (configured parameters are not
    injected there and excluded ones are not removed there) and the same
    methods, every operation keeps its tags, request body, responses and
    callbacks, and the schema objects that existed are left as they were. *)
Theorem X10_modifyParameters_leaves_rest (spec : T) (input : InputConfig)
    (order : list (string * PathItem)) (h : heap) (paths : gmap string PathItem) :
  T_Paths spec = Some paths ->
  range_of paths order ->
  exists paths',
    (modifyParameters spec input order h).1 = set_Paths spec (Some paths') /\
    h ⊆ (modifyParameters spec input order h).2 /\
    (forall k, is_Some (paths' !! k) <-> is_Some (paths !! k)) /\
    (forall k p p' method,
       paths !! k = Some p -> paths' !! k = Some p' ->
       PathItem_Parameters p' = PathItem_Parameters p /\
       match opAt method p, opAt method p' with
       | Some op, Some op' =>
           Operation_Tags op' = Operation_Tags op /\
           Operation_RequestBody op' = Operation_RequestBody op /\
           Operation_Responses op' = Operation_Responses op /\
           Operation_Callbacks op' = Operation_Callbacks op
       | None, None => True
       | _, _ => False
       end).
Proof.
  intros Hpaths Hr.
  destruct (modifyParameters_lookup spec input order h paths Hpaths Hr)
    as (paths' & E & Hh & Hlk).
  exists paths'. split; [exact E|]. split; [exact Hh|]. split.
  - intros k. specialize (Hlk k). destruct (paths !! k) as [p|].
    + destruct Hlk as [hi ->]. split; eauto.
    + rewrite Hlk. split; by intros [? ?].
  - intros k p p' method Hp Hp'. specialize (Hlk k). rewrite Hp in Hlk.
    destruct Hlk as [hi Hk]. rewrite Hk in Hp'. injection Hp' as <-.
    apply modifyPathItemParameters_shape.
Qed.

Lemma removeExcluded_idem filters ps :
  removeExcluded filters (removeExcluded filters ps) = removeExcluded filters ps.
Proof.
  unfold removeExcluded. induction ps as [|q ps IH]; [done|].
  rewrite filter_cons. destruct (decide (keptParam filters q = true)) as [Hk|Hk].
  - rewrite filter_cons, decide_True by done. by rewrite IH.
  - exact IH.
Qed.

Lemma removeExcluded_none filters ps :
  (forall q, q ∈ ps -> keptParam filters q = false) -> removeExcluded filters ps = [].
Proof.
  unfold removeExcluded. induction ps as [|q ps IH]; intros H; [done|].
  rewrite filter_cons, decide_False.
  - apply IH. intros q' Hq'. apply H. by right.
  - rewrite (H q) by by left. done.
Qed.

Lemma removeExcluded_app filters ps qs :
  removeExcluded filters (ps ++ qs)
  = removeExcluded filters ps ++ removeExcluded filters qs.
Proof. unfold removeExcluded. apply filter_app. Qed.

Lemma isExcluded_same_key filters a b :
  Param_Name a = Param_Name b -> Param_In a = Param_In b ->
  isExcluded filters a = isExcluded filters b.
Proof. intros Hn Hi. unfold isExcluded. by rewrite Hn, Hi. Qed.

(** The parameter list of an operation that went through the stage does
    not change when it goes through it again. *)
Lemma modifyOperationParameters_idem input op h h' :
  (modifyOperationParameters input (modifyOperationParameters input op h).1 h').1
  = (modifyOperationParameters input op h).1.
Proof.
  set (op1 := (modifyOperationParameters input op h).1).
  destruct (modifyOperationParameters_spec input op h) as (inj1 & E1 & _ & I1).
  destruct (modifyOperationParameters_spec input op1 h') as (inj2 & E2 & _ & I2).
  fold op1 in E1.
  assert (Hp : Operation_Parameters (modifyOperationParameters input op1 h').1
               = Operation_Parameters op1).
  { rewrite E2, removeExcluded_app.
    rewrite (removeExcluded_none _ inj2).
    - rewrite app_nil_r, E1. apply removeExcluded_idem.
    - intros q Hq. destruct I1 as (Hall & _). destruct I2 as (_ & Hnew & _).
      destruct (Hnew q Hq) as (c & l & Hc & -> & _ & _ & Hno).
      specialize (Hall c Hc).
      apply existsb_elem_of in Hall as (e & He & Hkey).
      assert (Hout : e ∉ Operation_Parameters op1).
      { intros Hin. rewrite existsb_false_elem_of in Hno.
        rewrite (Hno e Hin) in Hkey. done. }
      rewrite E1, removeExcluded_elem in Hout.
      assert (Hk : keptParam (ExcludeParameters input) e = false).
      { destruct (keptParam (ExcludeParameters input) e); [|done].
        by destruct Hout. }
      unfold keptParam in Hk |- *. unfold sameKeyCfg in Hkey. simpl.
      destruct (ParameterRef_Value e) as [v|]; [|done].
      apply andb_true_iff in Hkey as [Hn Hi].
      apply String.eqb_eq in Hn. apply String.eqb_eq in Hi.
      rewrite (isExcluded_same_key _ (paramOfConfig c l) v) by done.
      exact Hk. }
  unfold modifyOperationParameters at 1. cbn [fst].
  unfold modifyOperationParameters in Hp at 1. cbn [fst Operation_Parameters] in Hp.
  rewrite Hp. reflexivity.
Qed.

Lemma modifyOptionalOperation_idem input o h h' :
  (modifyOptionalOperation input (modifyOptionalOperation input o h).1 h').1
  = (modifyOptionalOperation input o h).1.
Proof.
  destruct o as [op|]; [|done]. simpl. f_equal. apply modifyOperationParameters_idem.
Qed.

Lemma modifyPathItemParameters_idem input p h h' :
  (modifyPathItemParameters input (modifyPathItemParameters input p h).1 h').1
  = (modifyPathItemParameters input p h).1.
Proof.
  destruct (modifyPathItemParameters_fields input p h)
    as (h1 & h2 & h3 & h4 & h5 & h6 & h7 & h8 & ->).
  unfold modifyPathItemParameters at 1.
  cbn [fst PathItem_Get PathItem_Post PathItem_Put PathItem_Delete PathItem_Patch
       PathItem_Head PathItem_Options PathItem_Trace PathItem_Parameters].
  by rewrite !modifyOptionalOperation_idem.
Qed.

Lemma modifyParametersLoop_stable input (order : list (string * PathItem))
    (acc : gmap string PathItem) (h : heap) :
  (forall k p, (k, p) ∈ order ->
     acc !! k = Some p /\ forall h, (modifyPathItemParameters input p h).1 = p) ->
  (foldl (modifyParametersStep input) (acc, h) order).1 = acc.
Proof.
  revert h. induction order as [|[k p] order IH]; intros h H; [done|].
  destruct (H k p) as [Hk Hst]; [by left|].
  change (foldl (modifyParametersStep input) (acc, h) ((k, p) :: order))
    with (foldl (modifyParametersStep input)
            (<[k := (modifyPathItemParameters input p h).1]> acc,
             (modifyPathItemParameters input p h).2) order).
  rewrite Hst, insert_id by done. apply IH.
  intros k' p' Hin. apply H. by right.
Qed.

(** X11. Running the parameter stage a second time with the same
    configuration leaves the document as the first run made it, for any
    orders of the two loops: nothing is injected twice, and a configured
    parameter that a removal filter took out is injected and taken out
    again.  (The second run still creates schema objects in the store,
    which nothing refers to.) *)
Theorem X11_modifyParameters_idempotent (spec : T) (input : InputConfig)
    (order1 order2 : list (string * PathItem)) (h h' : heap)
    (paths : gmap string PathItem) :
  T_Paths spec = Some paths ->
  range_of paths order1 ->
  (forall paths1, T_Paths (modifyParameters spec input order1 h).1 = Some paths1 ->
                  range_of paths1 order2) ->
  (modifyParameters (modifyParameters spec input order1 h).1 input order2 h').1
  = (modifyParameters spec input order1 h).1.
Proof.
  intros Hpaths Hr1 Hr2.
  destruct (modifyParameters_lookup spec input order1 h paths Hpaths Hr1)
    as (paths1 & E & _ & Hlk).
  rewrite E in Hr2 |- *. specialize (Hr2 paths1 eq_refl).
  unfold modifyParameters at 1. cbn [T_Paths set_Paths fst].
  rewrite modifyParametersLoop_stable; [by destruct spec|].
  intros k p1 Hin. apply (range_of_elem _ _ _ _ Hr2) in Hin.
  split; [done|]. intros h0. specialize (Hlk k).
  destruct (paths !! k) as [p|]; [|congruence].
  destruct Hlk as [hi Hk]. rewrite Hk in Hin. injection Hin as <-.
  apply modifyPathItemParameters_idem.
Qed.

(** ** Composite merger: merging again, the other component kinds, tags *)

Lemma pickOp_twice (dest src : option Operation) :
  pickOp (pickOp dest src) src = pickOp dest src.
Proof. by destruct dest, src. Qed.

Lemma sameParamRef_refl q : is_Some (ParameterRef_Value q) -> sameParamRef q q = true.
Proof.
  intros [v Hv]. unfold sameParamRef, sameParam. rewrite Hv.
  by rewrite !String.eqb_refl.
Qed.

Lemma sameParamRef_None e q : ParameterRef_Value q = None -> sameParamRef e q = false.
Proof. intros Hq. unfold sameParamRef. rewrite Hq. by destruct (ParameterRef_Value e). Qed.

Lemma mergeParams_covered (src dst : list ParameterRef) :
  (forall p, p ∈ src -> exists e, e ∈ dst /\ sameParamRef e p = true) ->
  foldl mergeParam dst src = dst.
Proof.
  induction src as [|p src IH]; intros H; [done|]. simpl.
  rewrite mergeParam_unfold.
  destruct (H p) as (e & He & Hs); [by left|].
  assert (Hex : existsb (fun e => sameParamRef e p) dst = true).
  { apply existsb_elem_of. by exists e. }
  rewrite Hex. apply IH. intros p' Hp'. apply H. by right.
Qed.

Lemma mergePathItem_twice dest src :
  (forall q, q ∈ PathItem_Parameters src -> is_Some (ParameterRef_Value q)) ->
  mergePathItem (mergePathItem dest src) src = mergePathItem dest src.
Proof.
  intros Hval. unfold mergePathItem at 1 3.
  cbn [PathItem_Get PathItem_Post PathItem_Put PathItem_Delete PathItem_Patch
       PathItem_Head PathItem_Options PathItem_Trace PathItem_Parameters mergePathItem].
  rewrite !pickOp_twice. f_equal.
  apply mergeParams_covered. intros p Hp.
  destruct (mergeParams_spec (PathItem_Parameters src) (PathItem_Parameters dest))
    as (added & E & _ & Hcov & _).
  rewrite E. destruct (Hcov p Hp) as [Hin|(e & He & Hs)].
  - exists p. split; [|by apply sameParamRef_refl, Hval].
    apply elem_of_app. by right.
  - by exists e.
Qed.

Lemma mergePathItem_self src :
  (forall q, q ∈ PathItem_Parameters src -> is_Some (ParameterRef_Value q)) ->
  mergePathItem src src = src.
Proof.
  intros Hval. destruct src as [a b c d e f g h ps]. unfold mergePathItem.
  cbn [PathItem_Get PathItem_Post PathItem_Put PathItem_Delete PathItem_Patch
       PathItem_Head PathItem_Options PathItem_Trace PathItem_Parameters].
  rewrite mergeParams_covered.
  - by destruct a, b, c, d, e, f, g, h.
  - intros p Hp. exists p. split; [done|]. by apply sameParamRef_refl, Hval.
Qed.

(** X12. Merging a path item into the composite a second time changes
    nothing, provided every path-level parameter of the incoming item has
    a value; an incoming parameter without value (an unresolved reference)
    is compared with nothing and appended at every merge.  Merging an
    empty path item changes nothing. *)
Theorem X12_mergePathItem_again :
  (forall dest src,
     (forall q, q ∈ PathItem_Parameters src -> is_Some (ParameterRef_Value q)) ->
     mergePathItem (mergePathItem dest src) src = mergePathItem dest src) /\
  (forall dest src q,
     q ∈ PathItem_Parameters src -> ParameterRef_Value q = None ->
     exists added,
       PathItem_Parameters (mergePathItem dest src)
       = PathItem_Parameters dest ++ added /\ q ∈ added) /\
  (forall dest, mergePathItem dest emptyPathItem = dest).
Proof.
  split; [|split].
  - apply mergePathItem_twice.
  - intros dest src q Hq Hnone.
    destruct (mergeParams_spec (PathItem_Parameters src) (PathItem_Parameters dest))
      as (added & E & _ & Hcov & _).
    exists added. split; [exact E|].
    destruct (Hcov q Hq) as [Hin|(e & _ & Hs)]; [done|].
    by rewrite sameParamRef_None in Hs.
  - intros [a b c d e f g h ps]. unfold mergePathItem, emptyPathItem. simpl.
    by destruct a, b, c, d, e, f, g, h.
Qed.

Lemma mergeComponents_spec (h : heap) (master : Components)
    (input : InputConfig) (comps : Components) (o : ComponentsOrder) :
  range_of_components comps o ->
  ((exists e, mergeComponents h master input o = Err e) <->
   hasDisputePrefix input = false /\
   exists name, colliding h (Components_Schemas master) (Components_Schemas comps) name) /\
  (forall merged,
     mergeComponents h master input o = Ok merged ->
     Components_Schemas merged = Components_Schemas master ∪ Components_Schemas comps /\
     Components_Responses merged
       = Components_Responses master ∪ Components_Responses comps /\
     Components_Parameters merged
       = Components_Parameters master ∪ Components_Parameters comps /\
     Components_SecuritySchemes merged
       = Components_SecuritySchemes master ∪ Components_SecuritySchemes comps /\
     Components_RequestBodies merged
       = Components_RequestBodies master ∪ Components_RequestBodies comps /\
     Components_Examples merged
       = Components_Examples master ∪ Components_Examples comps /\
     Components_Headers merged
       = Components_Headers master ∪ Components_Headers comps /\
     Components_Links merged = Components_Links master ∪ Components_Links comps /\
     Components_Callbacks merged
       = Components_Callbacks master ∪ Components_Callbacks comps).
Proof.
  intros (Hs & Hre & Hpa & Hse & Hrb & Hex & Hhe & Hli & Hca).
  rewrite mergeComponents_schemas.
  pose proof (range_of_NoDup _ _ Hs) as Hnd.
  assert (Hschemas :
    (hasDisputePrefix input = false /\
     (exists name, colliding h (Components_Schemas master) (Components_Schemas comps) name)
     /\ exists e, mergeSchemas h (hasDisputePrefix input) (Components_Schemas master)
                    (order_Schemas o) = Err e) \/
    (~ (hasDisputePrefix input = false /\
        exists name,
          colliding h (Components_Schemas master) (Components_Schemas comps) name) /\
     mergeSchemas h (hasDisputePrefix input) (Components_Schemas master) (order_Schemas o)
     = Ok (Components_Schemas master ∪ Components_Schemas comps))).
  { destruct (hasDisputePrefix input) eqn:Hd.
    - right. split; [by intros [? _]|].
      rewrite mergeSchemas_disputed. f_equal. by apply mergeFirstWins_range.
    - destruct (mergeSchemas_spec h (order_Schemas o) (Components_Schemas master) Hnd)
        as [(pre & [n s] & post & Eo & Hc & _ & Hm)|[Hall Hm]].
      + left. split; [done|]. split; [|by eexists].
        exists n. apply (collides_colliding h _ _ (order_Schemas o) n s Hs); [|done].
        rewrite Eo. apply elem_of_app. right. by left.
      + right. split.
        * intros [_ (name & Hcol)].
          pose proof Hcol as (e & s & _ & Hds & _).
          apply (range_of_elem _ _ _ _ Hs) in Hds.
          apply (collides_colliding h (Components_Schemas master) _ _ _ _ Hs Hds) in Hcol.
          rewrite Forall_forall in Hall. rewrite (Hall _ Hds) in Hcol. done.
        * rewrite Hm. f_equal. by apply mergeFirstWins_range. }
  destruct Hschemas as [(Hd & Hcol & e & ->)|[Hno ->]].
  - split; [split; [done|by eexists]|]. intros merged [=].
  - split; [split; [by intros [e [=]]|done]|].
    intros merged [= <-]. cbn.
    rewrite !(mergeFirstWins_range _ _ _ Hre), !(mergeFirstWins_range _ _ _ Hpa),
      !(mergeFirstWins_range _ _ _ Hse), !(mergeFirstWins_range _ _ _ Hrb),
      !(mergeFirstWins_range _ _ _ Hex), !(mergeFirstWins_range _ _ _ Hhe),
      !(mergeFirstWins_range _ _ _ Hli), !(mergeFirstWins_range _ _ _ Hca).
    done.
Qed.

(** X13. [mergeComponents] fails only for schemas: it returns an error
    exactly when the document has no dispute prefix and one of its schemas
    differs from the composite's schema of the same name.  Responses,
    parameters, security schemes, request bodies, examples, headers, links
    and callbacks are never compared: when the merge succeeds, each kind is
    the composite's map extended by the document's entries under new names,
    and an entry under a name the composite has is dropped without error. *)
Theorem X13_mergeComponents_kinds (h : heap) (master : Components)
    (input : InputConfig) (comps : Components) (o : ComponentsOrder) :
  range_of_components comps o ->
  ((exists e, mergeComponents h master input o = Err e) <->
   hasDisputePrefix input = false /\
   exists name, colliding h (Components_Schemas master) (Components_Schemas comps) name) /\
  (forall merged,
     mergeComponents h master input o = Ok merged ->
     Components_Schemas merged = Components_Schemas master ∪ Components_Schemas comps /\
     Components_Responses merged
       = Components_Responses master ∪ Components_Responses comps /\
     Components_Parameters merged
       = Components_Parameters master ∪ Components_Parameters comps /\
     Components_SecuritySchemes merged
       = Components_SecuritySchemes master ∪ Components_SecuritySchemes comps /\
     Components_RequestBodies merged
       = Components_RequestBodies master ∪ Components_RequestBodies comps /\
     Components_Examples merged
       = Components_Examples master ∪ Components_Examples comps /\
     Components_Headers merged
       = Components_Headers master ∪ Components_Headers comps /\
     Components_Links merged = Components_Links master ∪ Components_Links comps /\
     Components_Callbacks merged
       = Components_Callbacks master ∪ Components_Callbacks comps).
Proof. apply mergeComponents_spec. Qed.

Lemma hasTag_iff tags name : hasTag tags name = true <-> name ∈ Tag_Name <$> tags.
Proof.
  unfold hasTag. rewrite existsb_elem_of, list_elem_of_fmap. split.
  - intros (t & Ht & <-%String.eqb_eq). by exists t.
  - intros (t & -> & Ht). exists t. split; [done|]. apply String.eqb_refl.
Qed.

Lemma mergeTags_cons tags t incoming :
  mergeTags tags (t :: incoming)
  = mergeTags (if hasTag tags (Tag_Name t) then tags else tags ++ [t]) incoming.
Proof. reflexivity. Qed.

Lemma mergeTags_spec tags incoming :
  exists added,
    mergeTags tags incoming = tags ++ added /\
    added `sublist_of` incoming /\
    NoDup (Tag_Name <$> added) /\
    (forall t, t ∈ added -> Tag_Name t ∉ Tag_Name <$> tags) /\
    (forall t, t ∈ incoming -> Tag_Name t ∈ Tag_Name <$> (tags ++ added)) /\
    (forall t, t ∈ added ->
       exists before after,
         incoming = before ++ t :: after /\
         Tag_Name t ∉ Tag_Name <$> (tags ++ before)) /\
    (forall before t after,
       incoming = before ++ t :: after ->
       Tag_Name t ∉ Tag_Name <$> (tags ++ before) -> t ∈ added).
Proof.
  revert tags. induction incoming as [|t incoming IH]; intros tags.
  - exists []. rewrite app_nil_r. repeat split; try done.
    + constructor.
    + by intros t ?%elem_of_nil.
    + by intros t ?%elem_of_nil.
    + by intros t ?%elem_of_nil.
    + intros before t after E. by destruct before.
  - rewrite mergeTags_cons. destruct (hasTag tags (Tag_Name t)) eqn:Hh.
    + destruct (IH tags) as (added & E & Hsub & Hnd & Hnew & Hall & Hfirst & Htaken).
      assert (Hold : Tag_Name t ∈ Tag_Name <$> tags) by by apply hasTag_iff.
      exists added. split; [done|]. split; [by apply sublist_cons|].
      split; [done|]. split; [done|]. split; [|split].
      * intros t' [->|Ht']%elem_of_cons; [|by apply Hall].
        rewrite fmap_app. apply elem_of_app. by left.
      * intros t' Ht'. destruct (Hfirst t' Ht') as (before & after & -> & Hb).
        exists (t :: before), after. split; [done|].
        rewrite fmap_app, fmap_cons, elem_of_app, elem_of_cons.
        rewrite fmap_app, elem_of_app in Hb.
        intros [Hin|[Heq|Hin]]; [by apply Hb; left| |by apply Hb; right].
        apply Hb. left. by rewrite Heq.
      * intros before t' after Einc Hb. destruct before as [|t0 before].
        -- injection Einc as <- <-. exfalso. apply Hb.
           rewrite app_nil_r. done.
        -- injection Einc as <- ->. apply (Htaken before t' after eq_refl).
           intros Hin. apply Hb.
           rewrite fmap_app, elem_of_app in Hin.
           rewrite fmap_app, fmap_cons, elem_of_app, elem_of_cons.
           destruct Hin as [Hin|Hin]; [by left|right; by right].
    + destruct (IH (tags ++ [t]))
        as (added & E & Hsub & Hnd & Hnew & Hall & Hfirst & Htaken).
      assert (Hnot : Tag_Name t ∉ Tag_Name <$> tags).
      { intros Hin. apply hasTag_iff in Hin. congruence. }
      exists (t :: added). split; [by rewrite E, <- app_assoc|].
      split; [by apply sublist_skip|]. split; [|split; [|split; [|split]]].
      * rewrite fmap_cons. constructor; [|done].
        intros (t' & Hn & Ht')%list_elem_of_fmap. apply (Hnew t' Ht').
        rewrite fmap_app. apply elem_of_app. right. rewrite <- Hn. by left.
      * intros t' [->|Ht']%elem_of_cons; [done|].
        intros Hin. apply (Hnew t' Ht'). rewrite fmap_app. apply elem_of_app. by left.
      * intros t' [->|Ht']%elem_of_cons.
        -- rewrite fmap_app. apply elem_of_app. right. rewrite fmap_cons. by left.
        -- specialize (Hall t' Ht'). by rewrite <- app_assoc in Hall.
      * intros t' [->|Ht']%elem_of_cons.
        -- exists [], incoming. split; [done|]. by rewrite app_nil_r.
        -- destruct (Hfirst t' Ht') as (before & after & -> & Hb).
           exists (t :: before), after. split; [done|].
           by rewrite <- app_assoc in Hb.
      * intros before t' after Einc Hb. destruct before as [|t0 before].
        -- injection Einc as <- <-. by left.
        -- injection Einc as <- ->. right.
           apply (Htaken before t' after eq_refl). by rewrite <- app_assoc.
Qed.

(** X14. The tag loop of [mergeSpec] keeps the composite's tags in place
    and appends, in the order of the document, exactly those tags of the
    document whose name neither the composite nor an earlier tag of the
    document has: of the tags of one name the first is taken, and a tag
    whose name the composite already has is dropped, with its description.
    So the tag names of the composite stay pairwise different, and every
    tag name of the document is a tag name of the composite afterwards. *)
Theorem X14_mergeTags_first_wins (tags incoming : list Tag) :
  NoDup (Tag_Name <$> tags) ->
  NoDup (Tag_Name <$> mergeTags tags incoming) /\
  (exists added,
     mergeTags tags incoming = tags ++ added /\
     added `sublist_of` incoming /\
     (forall t, t ∈ added ->
        exists before after,
          incoming = before ++ t :: after /\
          Tag_Name t ∉ Tag_Name <$> (tags ++ before)) /\
     (forall before t after,
        incoming = before ++ t :: after ->
        Tag_Name t ∉ Tag_Name <$> (tags ++ before) -> t ∈ added)) /\
  (forall name,
     name ∈ Tag_Name <$> mergeTags tags incoming <->
     name ∈ Tag_Name <$> tags \/ name ∈ Tag_Name <$> incoming).
Proof.
  intros Hnd.
  destruct (mergeTags_spec tags incoming)
    as (added & E & Hsub & Hnda & Hnew & Hall & Hfirst & Htaken).
  split; [|split].
  - rewrite E, fmap_app. apply NoDup_app. split; [done|]. split; [|done].
    intros name Hin (t & -> & Ht)%list_elem_of_fmap. by apply (Hnew t Ht).
  - exists added. done.
  - intros name. rewrite E, fmap_app, elem_of_app. split.
    + intros [?|(t & -> & Ht)%list_elem_of_fmap]; [by left|]. right.
      apply list_elem_of_fmap. exists t. split; [done|].
      by apply (elem_of_sublist _ _ _ Ht Hsub).
    + intros [?|(t & -> & Ht)%list_elem_of_fmap]; [by left|].
      specialize (Hall t Ht). by rewrite fmap_app, elem_of_app in Hall.
Qed.

(** X15. The path loop of [mergeSpec], path by path: a path of the
    composite that the document does not have stays as it is, a path only
    the document has is added with the document's path item, and a path
    both have holds the merge of the two; no path is lost and the order of
    the loop does not matter.  This is for a document none of whose keys
    is resolved by the templated search of [Paths.Find]: the search finds
    nothing for a key of the document that the path map lacks. *)
Theorem X15_mergePaths_lookup (master docPaths : gmap string PathItem)
    (order : list (string * PathItem)) :
  range_of docPaths order ->
  noTemplatedMatch master docPaths ->
  (forall k,
     mergePaths master order !! k
     = match docPaths !! k with
       | Some src => Some (mergedEntry (master !! k) src)
       | None => master !! k
       end) /\
  (forall k, is_Some (mergePaths master order !! k)
             <-> is_Some (master !! k) \/ is_Some (docPaths !! k)) /\
  (forall order', range_of docPaths order' ->
     mergePaths master order' = mergePaths master order).
Proof.
  intros Hr Hno.
  split; [intros k; by apply mergePaths_range|]. split.
  - intros k. rewrite (mergePaths_range master docPaths order k Hr Hno).
    destruct (docPaths !! k) as [src|].
    + split; [intros _; right; by eexists|intros _; by eexists].
    + split; [by left|]. by intros [?|[? ?]].
  - intros order' Hr'. apply map_eq. intros k.
    by rewrite !(mergePaths_range master docPaths) by done.
Qed.

(** ** Output ordering: the tags *)

Lemma filter_ext_elem_of {A} (P Q : A -> Prop) `{!forall x, Decision (P x)}
    `{!forall x, Decision (Q x)} (l : list A) :
  (forall x, x ∈ l -> P x <-> Q x) -> filter P l = filter Q l.
Proof.
  induction l as [|x l IH]; intros Hext; [done|].
  rewrite !filter_cons.
  assert (HPQ : P x <-> Q x) by (apply Hext; by left).
  rewrite IH by (intros y Hy; apply Hext; by right).
  destruct (decide (P x)), (decide (Q x)); tauto.
Qed.

Lemma omap_ext_on {A B} (f g : A -> option B) (l : list A) :
  (forall x, x ∈ l -> f x = g x) -> omap f l = omap g l.
Proof.
  induction l as [|x l IH]; intros Hext; [done|].
  cbn [omap list_omap]. rewrite (Hext x) by by left.
  fold (omap f l). fold (omap g l).
  rewrite IH by (intros y Hy; apply Hext; by right). done.
Qed.

Lemma tagMapOf_lookup (tags : list Tag) (n : string) (t : Tag) :
  NoDup (Tag_Name <$> tags) ->
  tagMapOf tags !! n = Some t <-> t ∈ tags /\ Tag_Name t = n.
Proof.
  intros Hnd. unfold tagMapOf.
  assert (E : foldl (fun (tagMap : gmap string Tag) tag => <[Tag_Name tag := tag]> tagMap)
                ∅ tags
              = list_to_map ((fun t => (Tag_Name t, t)) <$> tags)).
  { rewrite <- foldl_insert_list_to_map.
    - generalize (∅ : gmap string Tag). induction tags as [|x tags IH]; intros m; [done|].
      simpl. apply IH. rewrite fmap_cons in Hnd. by apply NoDup_cons in Hnd as [_ ?].
    - rewrite <- list_fmap_compose. exact Hnd. }
  rewrite E. rewrite <- elem_of_list_to_map.
  - rewrite list_elem_of_fmap. split.
    + by intros (t' & [= -> ->] & Ht').
    + intros [Ht <-]. by exists t.
  - rewrite <- list_fmap_compose. exact Hnd.
Qed.

Lemma inTagMap_delete_ne (m : gmap string Tag) (n : string) (x : Tag) :
  Tag_Name x <> n -> inTagMap (delete n m) x = inTagMap m x.
Proof. intros Hne. unfold inTagMap. by rewrite lookup_delete_ne. Qed.

Lemma filter_inTagMap_delete (m : gmap string Tag) (tags : list Tag) (t t' : Tag) :
  NoDup (Tag_Name <$> tags) ->
  t ∈ tags ->
  m !! Tag_Name t = Some t' ->
  filter (fun tag => inTagMap m tag = true) tags
  ≡ₚ t :: filter (fun tag => inTagMap (delete (Tag_Name t) m) tag = true) tags.
Proof.
  intros Hnd Ht Hm. induction tags as [|x tags IH]; [by apply elem_of_nil in Ht|].
  rewrite fmap_cons in Hnd. apply NoDup_cons in Hnd as [Hx Hnd].
  rewrite !filter_cons.
  apply elem_of_cons in Ht as [->|Ht].
  - rewrite decide_True by (unfold inTagMap; by rewrite Hm).
    rewrite decide_False by (unfold inTagMap; by rewrite lookup_delete_eq).
    apply Permutation_cons; [done|].
    rewrite (filter_ext_elem_of (fun tag => inTagMap m tag = true)
               (fun tag => inTagMap (delete (Tag_Name x) m) tag = true)); [done|].
    intros y Hy. rewrite inTagMap_delete_ne; [done|].
    intros E. apply Hx. rewrite <- E. apply list_elem_of_fmap. by exists y.
  - assert (Hne : Tag_Name x <> Tag_Name t).
    { intros E. apply Hx. rewrite E. apply list_elem_of_fmap. by exists t. }
    rewrite (inTagMap_delete_ne m (Tag_Name t) x Hne).
    destruct (decide (inTagMap m x = true)).
    + rewrite (IH Hnd Ht). apply Permutation_swap.
    + by apply IH.
Qed.

Lemma orderedTagsStep_Some sorted (m : gmap string Tag) n t :
  m !! n = Some t -> orderedTagsStep (sorted, m) n = (sorted ++ [t], delete n m).
Proof. intros H. unfold orderedTagsStep. simpl. by rewrite H. Qed.

Lemma orderedTagsStep_None sorted (m : gmap string Tag) n :
  m !! n = None -> orderedTagsStep (sorted, m) n = (sorted, m).
Proof. intros H. unfold orderedTagsStep. simpl. by rewrite H. Qed.

Lemma sortTags_loop_perm (tags : list Tag) (tagOrder : list string)
    (sorted : list Tag) (m : gmap string Tag) :
  NoDup (Tag_Name <$> tags) ->
  (forall n t, m !! n = Some t -> t ∈ tags /\ Tag_Name t = n) ->
  (foldl orderedTagsStep (sorted, m) tagOrder).1
    ++ filter (fun tag => inTagMap (foldl orderedTagsStep (sorted, m) tagOrder).2 tag = true)
         tags
  ≡ₚ sorted ++ filter (fun tag => inTagMap m tag = true) tags.
Proof.
  intros Hnd. revert sorted m.
  induction tagOrder as [|n tagOrder IH]; intros sorted m Hm; [done|].
  cbn [foldl].
  destruct (m !! n) as [t|] eqn:Hn;
    [rewrite (orderedTagsStep_Some _ _ _ _ Hn)
    |rewrite (orderedTagsStep_None _ _ _ Hn); by apply IH].
  destruct (Hm n t Hn) as [Ht <-].
  rewrite IH.
  - rewrite <- app_assoc. apply Permutation_app_head. simpl.
    symmetry. by eapply filter_inTagMap_delete.
  - intros n' t' [_ H]%lookup_delete_Some. by apply Hm.
Qed.

Lemma sortTags_loop_ordered (tagOrder : list string) (sorted : list Tag)
    (m : gmap string Tag) :
  NoDup tagOrder ->
  exists ordered,
    (foldl orderedTagsStep (sorted, m) tagOrder).1 = sorted ++ ordered /\
    ordered = omap (fun n => m !! n) tagOrder /\
    forall n, (foldl orderedTagsStep (sorted, m) tagOrder).2 !! n
              = if decide (n ∈ tagOrder) then None else m !! n.
Proof.
  revert sorted m. induction tagOrder as [|n tagOrder IH]; intros sorted m Hnd.
  - exists []. rewrite app_nil_r. split; [done|]. split; [done|].
    intros n. by rewrite decide_False by apply not_elem_of_nil.
  - apply NoDup_cons in Hnd as [Hn Hnd]. cbn [foldl].
    destruct (m !! n) as [t|] eqn:Hmn;
      [rewrite (orderedTagsStep_Some _ _ _ _ Hmn)
      |rewrite (orderedTagsStep_None _ _ _ Hmn)].
    + destruct (IH (sorted ++ [t]) (delete n m) Hnd) as (ordered & E & Eo & Hlk).
      exists (t :: ordered). split; [by rewrite E, <- app_assoc|]. split.
      * cbn [omap list_omap]. rewrite Hmn. f_equal. rewrite Eo.
        apply omap_ext_on. intros n' Hn'.
        rewrite lookup_delete_ne; [done|]. by intros ->.
      * intros n'. rewrite Hlk. destruct (decide (n' = n)) as [->|Hne].
        -- rewrite decide_False by done. rewrite decide_True by by left.
           apply lookup_delete_eq.
        -- rewrite lookup_delete_ne by done.
           destruct (decide (n' ∈ tagOrder)).
           ++ by rewrite decide_True by by right.
           ++ rewrite decide_False; [done|]. by intros [?|?]%elem_of_cons.
    + destruct (IH sorted m Hnd) as (ordered & E & Eo & Hlk).
      exists ordered. split; [done|]. split; [cbn [omap list_omap]; by rewrite Hmn|].
      intros n'. rewrite Hlk. destruct (decide (n' = n)) as [->|Hne].
      * rewrite decide_False by done. by rewrite decide_True by by left.
      * destruct (decide (n' ∈ tagOrder)).
        -- by rewrite decide_True by by right.
        -- rewrite decide_False; [done|]. by intros [?|?]%elem_of_cons.
Qed.

Lemma tagMapOf_names (tags : list Tag) (tagOrder : list string) :
  NoDup (Tag_Name <$> tags) ->
  Tag_Name <$> omap (fun n => tagMapOf tags !! n) tagOrder
  = filter (fun n => n ∈ Tag_Name <$> tags) tagOrder /\
  forall t, t ∈ omap (fun n => tagMapOf tags !! n) tagOrder -> t ∈ tags.
Proof.
  intros Hnd. induction tagOrder as [|n tagOrder [IH1 IH2]].
  - split; [done|]. by intros t ?%elem_of_nil.
  - cbn [omap list_omap]. fold (omap (fun n => tagMapOf tags !! n) tagOrder).
    rewrite filter_cons.
    destruct (tagMapOf tags !! n) as [t|] eqn:Hn.
    + apply (tagMapOf_lookup tags n t Hnd) in Hn as [Ht <-].
      rewrite decide_True by (apply list_elem_of_fmap; by exists t).
      split; [by rewrite fmap_cons, IH1|].
      intros t' [->|Ht']%elem_of_cons; [done|by apply IH2].
    + rewrite decide_False; [done|].
      intros (t & -> & Ht)%list_elem_of_fmap.
      assert (tagMapOf tags !! Tag_Name t = Some t) by by apply tagMapOf_lookup.
      congruence.
Qed.

(** X16. [sortTags] on tags with pairwise different names (which is what
    the merge produces) loses and repeats nothing, whatever the configured
    order: the result is a rearrangement of the tags.  With a configured
    order without repetition, it is the tags named in the order, in that
    order (names that no tag has are skipped), followed by the other tags
    in the order they had.  [sortOutput] changes nothing else, and nothing
    at all without a configured order. *)
Theorem X16_sortTags_rearranges (cfg : Config) (master : Master) :
  NoDup (Tag_Name <$> master_Tags master) ->
  master_Tags (sortOutput cfg master) ≡ₚ master_Tags master /\
  master_Paths (sortOutput cfg master) = master_Paths master /\
  master_Components (sortOutput cfg master) = master_Components master /\
  (TagOrder cfg = [] -> sortOutput cfg master = master) /\
  (NoDup (TagOrder cfg) ->
   exists ordered,
     master_Tags (sortOutput cfg master)
     = ordered ++ filter (fun t => Tag_Name t ∉ TagOrder cfg) (master_Tags master) /\
     Tag_Name <$> ordered
     = filter (fun n => n ∈ Tag_Name <$> master_Tags master) (TagOrder cfg) /\
     forall t, t ∈ ordered -> t ∈ master_Tags master).
Proof.
  intros Hnd.
  assert (Hperm : forall tagOrder,
            sortTags tagOrder (master_Tags master) ≡ₚ master_Tags master).
  { intros tagOrder. unfold sortTags.
    destruct (master_Tags master) as [|t0 tags0] eqn:Etags; [done|].
    rewrite <- Etags in *.
    rewrite sortTags_loop_perm; [|done|by intros n t ?%tagMapOf_lookup].
    simpl. rewrite (filter_ext_elem_of _ (fun _ => True)).
    - assert (Hall : forall l : list Tag, filter (fun _ => True) l = l).
      { clear. induction l as [|x l IH]; [done|].
        rewrite filter_cons, decide_True by done. by rewrite IH. }
      by rewrite Hall.
    - intros t Ht. split; [done|]. intros _. unfold inTagMap.
      assert (tagMapOf (master_Tags master) !! Tag_Name t = Some t) as ->; [|done].
      by apply tagMapOf_lookup. }
  unfold sortOutput. destruct (hasLen (TagOrder cfg)) eqn:Hlen; cycle 1.
  - apply hasLen_false in Hlen.
    split; [done|]. split; [done|]. split; [done|]. split; [done|].
    intros _. exists []. rewrite Hlen.
    split; [|split; [done|by intros t ?%elem_of_nil]].
    simpl. symmetry. clear.
    induction (master_Tags master) as [|x l IH]; [done|].
    rewrite filter_cons, decide_True by apply not_elem_of_nil. by rewrite IH.
  - cbn [master_Tags master_Paths master_Components].
    split; [apply Hperm|]. split; [done|]. split; [done|].
    split; [intros E; by rewrite E in Hlen|].
    intros Hndo. unfold sortTags.
    destruct (master_Tags master) as [|t0 tags0] eqn:Etags.
    + exists []. split; [done|]. split; [|by intros t ?%elem_of_nil].
      simpl. symmetry. clear. induction (TagOrder cfg) as [|x l IH]; [done|].
      rewrite filter_cons, decide_False by apply not_elem_of_nil. exact IH.
    + rewrite <- Etags in *.
      destruct (sortTags_loop_ordered (TagOrder cfg) [] (tagMapOf (master_Tags master))
                  Hndo) as (ordered & E1 & Eo & Hlk).
      destruct (tagMapOf_names (master_Tags master) (TagOrder cfg) Hnd) as [Hn Hin].
      rewrite <- Eo in Hn, Hin.
      exists ordered. split; [|done]. rewrite E1. simpl. f_equal.
      apply filter_ext_elem_of. intros t Ht. unfold inTagMap. rewrite Hlk.
      destruct (decide (Tag_Name t ∈ TagOrder cfg)); [by split|].
      assert (tagMapOf (master_Tags master) !! Tag_Name t = Some t) as ->; [|done].
      by apply tagMapOf_lookup.
Qed.

(** ** Conflict resolver: nothing to rename, and what is written *)

Lemma renameKind_empty {V} refPrefix prefix (m : gmap string V) order rn :
  m = ∅ -> renameKind refPrefix prefix m order rn = (∅, rn).
Proof. intros ->. reflexivity. Qed.

(** X17. Conflict resolution on a document without components, or whose
    components hold no schema, response, parameter, security scheme or
    request body, returns the document and the store as they are, without
    visiting anything: the rename map is empty and [updateRefs] returns at
    once, also on a store with cyclic schemas.  Headers, examples, links
    and callbacks are never renamed. *)
Theorem X17_applyDisputePrefix_nothing_to_rename (fuel : nat) (spec : T)
    (prefix : string) (renameOrder : ComponentsOrder)
    (pathOrder : list (string * PathItem)) (refsOrder : ComponentsOrder) (h : heap) :
  (T_Components spec = None \/
   exists comps,
     T_Components spec = Some comps /\
     Components_Schemas comps = ∅ /\ Components_Responses comps = ∅ /\
     Components_Parameters comps = ∅ /\ Components_SecuritySchemes comps = ∅ /\
     Components_RequestBodies comps = ∅) ->
  applyDisputePrefix fuel spec prefix renameOrder pathOrder refsOrder h = Some (spec, h).
Proof.
  intros [Hnone|(comps & Hc & Hs & Hr & Hp & Hse & Hrb)]; unfold applyDisputePrefix.
  - by rewrite Hnone.
  - rewrite Hc. unfold renameComponents.
    assert (Es : renameSchemas prefix (Components_Schemas comps)
                   (order_Schemas renameOrder) ∅ = (∅, ∅)) by by rewrite Hs.
    rewrite Es. cbn [fst snd].
    rewrite !renameKind_empty by done. cbn [fst snd].
    unfold updateRefs. simpl.
    destruct spec as [ps cs ts]. destruct comps as [sc pa he rb re se ex li ca].
    simpl in Hc, Hs, Hr, Hp, Hse, Hrb. rewrite Hc, Hs, Hr, Hp, Hse, Hrb.
    reflexivity.
Qed.

Lemma refsChanged_refl P h : refsChanged P h h.
Proof. intros l. destruct (h !! l); [|done]. split; [done|by left]. Qed.

Lemma refsChanged_trans P h1 h2 h3 :
  refsChanged P h1 h2 -> refsChanged P h2 h3 -> refsChanged P h1 h3.
Proof.
  intros H12 H23 l. specialize (H12 l). specialize (H23 l).
  destruct (h1 !! l) as [o1|], (h2 !! l) as [o2|], (h3 !! l) as [o3|]; try done.
  destruct H12 as [Hv12 Hr12], H23 as [Hv23 Hr23]. split; [congruence|].
  destruct Hr23 as [E|?]; [|by right]. rewrite E. exact Hr12.
Qed.

Lemma refsChanged_insert (P : string -> Prop) renames h l o :
  (forall r new, renames !! r = Some new -> P new) ->
  h !! l = Some o ->
  refsChanged P h (<[l := renamed renames o]> h).
Proof.
  intros HP Hl q. destruct (decide (q = l)) as [->|Hne].
  - rewrite Hl, lookup_insert_eq. split; [done|]. unfold renamed, renameRef. simpl.
    destruct (nonEmpty (SchemaRef_Ref o)); [|by left].
    destruct (renames !! SchemaRef_Ref o) as [new|] eqn:E; [|by left].
    right. by eapply HP.
  - rewrite lookup_insert_ne by done. destruct (h !! q); [|done].
    split; [done|by left].
Qed.

Lemma visitAll_refsChanged P (f : option loc -> heap -> option heap) roots :
  (forall x h h', f x h = Some h' -> refsChanged P h h') ->
  forall h h', visitAll f roots h = Some h' -> refsChanged P h h'.
Proof.
  intros Hf. induction roots as [|x roots IH]; intros h h' Hv.
  - injection Hv as <-. apply refsChanged_refl.
  - rewrite visitAll_cons in Hv. destruct (f x h) as [h1|] eqn:E; [|done].
    simpl in Hv. eapply refsChanged_trans; [by eapply Hf|by apply IH].
Qed.

Lemma updateSchemaRefRefs_refsChanged (P : string -> Prop) renames :
  (forall r new, renames !! r = Some new -> P new) ->
  forall fuel p h h',
    updateSchemaRefRefs fuel renames p h = Some h' -> refsChanged P h h'.
Proof.
  intros HP. induction fuel as [|fuel IH]; intros [l|] h h' Hu.
  - by rewrite updateSchemaRefRefs_zero in Hu.
  - rewrite updateSchemaRefRefs_nil in Hu. injection Hu as <-. apply refsChanged_refl.
  - rewrite updateSchemaRefRefs_step in Hu.
    destruct (h !! l) as [o|] eqn:Hl.
    + eapply refsChanged_trans; [by eapply refsChanged_insert|].
      eapply visitAll_refsChanged; [|exact Hu]. apply IH.
    + injection Hu as <-. apply refsChanged_refl.
  - rewrite updateSchemaRefRefs_nil in Hu. injection Hu as <-. apply refsChanged_refl.
Qed.

Lemma kindTarget_prefixed {V} src kind prefix (m : gmap string V) ref new :
  kindTarget src kind prefix (dom m) ref = Some new ->
  exists n, new = kind +:+ n
            /\ is_Some ((kmap (String.append prefix) m : gmap string V) !! n).
Proof.
  intros (n & Hn & _ & ->)%kindTarget_Some. exists (prefix +:+ n). split; [done|].
  rewrite (lookup_kmap (String.append prefix)). by apply elem_of_dom.
Qed.

Lemma renameTarget_componentRef prefix c ref new :
  renameTarget prefix c ref = Some new ->
  componentRef (prefixedComponents prefix c) new.
Proof.
  unfold renameTarget, componentRef, prefixedComponents. cbn.
  intros H.
  apply orElse_Some in H as [H|H].
  { apply kindTarget_prefixed in H as (n & -> & Hn).
    do 4 right. by exists n. }
  apply orElse_Some in H as [H|H].
  { apply kindTarget_prefixed in H as (n & -> & Hn).
    do 3 right. left. by exists n. }
  apply orElse_Some in H as [H|H].
  { apply kindTarget_prefixed in H as (n & -> & Hn).
    do 2 right. left. by exists n. }
  apply orElse_Some in H as [H|H].
  { apply kindTarget_prefixed in H as (n & -> & Hn).
    right. left. by exists n. }
  apply orElse_Some in H as [H|H];
    apply kindTarget_prefixed in H as (n & -> & Hn); left; by exists n.
Qed.

(** X18. Conflict resolution on a document without callbacks whose schema
    graph has no cycle returns, whatever the names of the components are,
    and what it does to the store is limited: no schema object is created
    or deleted, no schema value is changed, and a [Ref] that it changes
    becomes the reference of a component that exists under that name after
    the renaming (of a schema, response, parameter, security scheme or
    request body).  Without callbacks the only recursion of the traversal
    is the one through the schema objects. *)
Theorem X18_applyDisputePrefix_writes_component_refs (fuel : nat) (spec : T)
    (prefix : string) (comps : Components) (renameOrder : ComponentsOrder)
    (pathOrder : list (string * PathItem)) (refsOrder : ComponentsOrder) (h : heap) :
  T_Components spec = Some comps ->
  withoutCallbacks spec ->
  range_of_components comps renameOrder ->
  pathsRange spec pathOrder ->
  range_of_components (prefixedComponents prefix comps) refsOrder ->
  acyclic h ->
  size h < fuel ->
  exists spec' h',
    applyDisputePrefix fuel spec prefix renameOrder pathOrder refsOrder h
    = Some (spec', h') /\
    T_Tags spec' = T_Tags spec /\
    refsChanged (componentRef (prefixedComponents prefix comps)) h h'.
Proof.
  intros Hcomps _ Hrename Hpaths Hrefs Hacyc Hfuel.
  destruct (renameComponents_spec prefix comps renameOrder Hrename) as [Ec Hrn].
  unfold applyDisputePrefix. rewrite Hcomps, Ec.
  set (renames := (renameComponents prefix comps renameOrder).2) in *.
  set (spec1 := set_Components spec (Some (prefixedComponents prefix comps))).
  destruct (decide (size renames = 0)) as [Hz|Hnz].
  - exists spec1, h. unfold updateRefs. rewrite Hz. simpl.
    split; [done|]. split; [done|]. apply refsChanged_refl.
  - set (roots := rootsPaths pathOrder ++ rootsComponents refsOrder).
    destruct (visitAll_terminates h renames fuel roots h Hacyc (sameShape_refl h) Hfuel)
      as (h' & Hv & _).
    exists (rewriteSpec renames spec1), h'. split; [|split].
    + rewrite (updateRefs_splits fuel renames spec1 (prefixedComponents prefix comps))
        by done.
      fold roots. by rewrite Hv.
    + done.
    + eapply visitAll_refsChanged; [|exact Hv].
      apply updateSchemaRefRefs_refsChanged.
      intros r new Hr. rewrite Hrn in Hr. by eapply renameTarget_componentRef.
Qed.

(** ** Output ordering: the sort of the remaining paths *)

Lemma ascii_compare_Lt_trans a b c :
  Ascii.compare a b = Lt -> Ascii.compare b c = Lt -> Ascii.compare a c = Lt.
Proof.
  unfold Ascii.compare. rewrite !N.compare_lt_iff. apply N.lt_trans.
Qed.

Lemma string_compare_Lt_trans a b c :
  String.compare a b = Lt -> String.compare b c = Lt -> String.compare a c = Lt.
Proof.
  revert b c. induction a as [|ca a IH]; intros [|cb b] [|cc c]; simpl; try done.
  destruct (Ascii.compare ca cb) eqn:Eab; try done;
    destruct (Ascii.compare cb cc) eqn:Ebc; try done.
  - apply Ascii.compare_eq_iff in Eab, Ebc. subst cb cc.
    assert (Ascii.compare ca ca = Eq) as -> by (unfold Ascii.compare; apply N.compare_refl).
    apply IH.
  - apply Ascii.compare_eq_iff in Eab. subst cb. by rewrite Ebc.
  - apply Ascii.compare_eq_iff in Ebc. subst cc. by rewrite Eab.
  - by rewrite (ascii_compare_Lt_trans _ _ _ Eab Ebc).
Qed.

Lemma string_compare_refl a : String.compare a a = Eq.
Proof.
  induction a as [|c a IH]; [done|]. simpl.
  assert (Ascii.compare c c = Eq) as -> by (unfold Ascii.compare; apply N.compare_refl).
  exact IH.
Qed.

Lemma string_leb_trans a b c :
  String.leb a b = true -> String.leb b c = true -> String.leb a c = true.
Proof.
  unfold String.leb.
  destruct (String.compare a b) eqn:Eab; try done;
    destruct (String.compare b c) eqn:Ebc; try done; intros _ _.
  - apply String.compare_eq_iff in Eab, Ebc. subst. by rewrite string_compare_refl.
  - apply String.compare_eq_iff in Eab. subst. by rewrite Ebc.
  - apply String.compare_eq_iff in Ebc. subst. by rewrite Eab.
  - by rewrite (string_compare_Lt_trans _ _ _ Eab Ebc).
Qed.

Lemma string_ltb_leb a b : String.ltb a b = true -> String.leb a b = true.
Proof. unfold String.ltb, String.leb. by destruct (String.compare a b). Qed.

Lemma string_ltb_false_leb a b : String.ltb a b = false -> String.leb b a = true.
Proof.
  unfold String.ltb, String.leb. rewrite (String.compare_antisym a b).
  by destruct (String.compare b a).
Qed.

(** One pass leaves the least string in front. *)
Lemma swapPass_least x rest :
  String.leb (swapPass x rest).1 x = true /\
  forall y, y ∈ (swapPass x rest).2 -> String.leb (swapPass x rest).1 y = true.
Proof.
  revert x. induction rest as [|z rest IH]; intros x; simpl.
  - split; [unfold String.leb; by rewrite string_compare_refl|].
    by intros y ?%elem_of_nil.
  - destruct (String.ltb z x) eqn:E; simpl.
    + destruct (IH z) as [Hz Hall]. split.
      * eapply string_leb_trans; [exact Hz|]. by apply string_ltb_leb.
      * intros y [->|Hy]%elem_of_cons; [|by apply Hall].
        eapply string_leb_trans; [exact Hz|]. by apply string_ltb_leb.
    + destruct (IH x) as [Hx Hall]. split; [done|].
      intros y [->|Hy]%elem_of_cons; [|by apply Hall].
      eapply string_leb_trans; [exact Hx|]. by apply string_ltb_false_leb.
Qed.

Lemma swapPass_length x rest : length (swapPass x rest).2 = length rest.
Proof.
  revert x. induction rest as [|z rest IH]; intros x; [done|]. simpl.
  destruct (String.ltb z x); simpl; by rewrite IH.
Qed.

Lemma exchangeSort_ascending n l : length l <= n -> ascending (exchangeSort n l).
Proof.
  revert l. induction n as [|n IH]; intros [|x rest] Hlen; simpl in *; try done; [lia|].
  destruct (swapPass_least x rest) as [_ Hall]. split.
  - intros y Hy. apply Hall.
    by rewrite (exchangeSort_perm n (swapPass x rest).2) in Hy.
  - apply IH. rewrite swapPass_length. lia.
Qed.

(** X19. The slice that [sortPaths] builds: for each configured priority
    path in turn, the keys equal to it, and then the keys that are not
    priority paths, every one of them exactly once and in ascending
    byte-wise order; the hand-written exchange sort does sort. *)
Theorem X19_sortedPathKeys_sorted (pathsOrder allPaths : list string) :
  exists remaining,
    sortedPathKeys pathsOrder allPaths
    = flat_map (fun priorityPath => filter (fun path => path = priorityPath) allPaths)
        pathsOrder ++ remaining /\
    ascending remaining /\
    remaining ≡ₚ filter (fun path => path ∉ pathsOrder) allPaths.
Proof.
  unfold sortedPathKeys. eexists. split; [reflexivity|]. split.
  - by apply exchangeSort_ascending.
  - rewrite exchangeSort_perm. apply eq_subrelation; [apply _|].
    apply filter_ext_elem_of. intros path _.
    rewrite existsb_false_elem_of. split.
    + intros H Hin. specialize (H path Hin). by rewrite String.eqb_refl in H.
    + intros Hnot p Hp. apply String.eqb_neq. by intros ->.
Qed.

(** ** Descriptions and the info override *)

Lemma nonEmpty_true (s : string) : nonEmpty s = true <-> s <> "".
Proof.
  unfold nonEmpty. rewrite negb_true_iff. split.
  - intros H ->. done.
  - intros H. by apply String.eqb_neq.
Qed.

Lemma append_empty_r (s : string) : s +:+ "" = s.
Proof.
  induction s as [|c s IH]; [done|].
  change (String c s +:+ "") with (String c (s +:+ "")). by f_equal.
Qed.

Lemma append_eq_empty (a b : string) : a +:+ b = "" -> a = "" /\ b = "".
Proof. by destruct a. Qed.

Lemma append_assoc (a b c : string) : (a +:+ b) +:+ c = a +:+ (b +:+ c).
Proof.
  induction a as [|x a IH]; [done|].
  change (String x ((a +:+ b) +:+ c) = String x (a +:+ (b +:+ c))). by f_equal.
Qed.

(** X20. [formatDescription] keeps the description: the result is the
    description itself or the description under a heading line, and it is
    empty exactly when the description is empty (so a title alone never
    produces output).  The heading has between one and six [#]: the
    configured level when it is in 1..6, and 2 otherwise. *)
Theorem X20_formatDescription_keeps_text (desc : string) (cfg : DescriptionConfig) :
  (formatDescription desc cfg = "" <-> desc = "") /\
  (desc = "" \/
   formatDescription desc cfg = desc \/
   exists title n,
     DescriptionConfig_Title cfg = Some title /\
     DescriptionTitleConfig_Value title <> "" /\
     1 <= n <= 6 /\
     (Z.of_nat n = DescriptionTitleConfig_HeadingLevel title \/
      n = 2 /\ ~ (1 <= DescriptionTitleConfig_HeadingLevel title <= 6)%Z) /\
     formatDescription desc cfg
     = Repeat "#" n +:+ " " +:+ DescriptionTitleConfig_Value title
         +:+ newline +:+ newline +:+ desc).
Proof.
  unfold formatDescription.
  destruct (nonEmpty desc) eqn:Hd; simpl.
  2:{ apply nonEmpty_false in Hd. split; [done|by left]. }
  apply nonEmpty_true in Hd.
  destruct (DescriptionConfig_Title cfg) as [title|]; [|by split; [|right; left]].
  destruct (nonEmpty (DescriptionTitleConfig_Value title)) eqn:Hv;
    [|by split; [|right; left]].
  apply nonEmpty_true in Hv.
  set (level := DescriptionTitleConfig_HeadingLevel title).
  split.
  - split; [|done]. intros H.
    apply append_eq_empty in H as [_ H]. done.
  - right. right.
    destruct ((level <? 1)%Z || (6 <? level)%Z) eqn:Hl.
    + exists title, 2. split; [done|]. split; [done|]. split; [lia|]. split; [|done].
      right. split; [done|]. apply orb_true_iff in Hl. lia.
    + apply orb_false_iff in Hl as [H1 H6].
      exists title, (Z.to_nat level). split; [done|]. split; [done|].
      split; [lia|]. split; [|done]. left. lia.
Qed.


Lemma string_concat_cons (sep x : string) (l : list string) :
  l <> [] -> String.concat sep (x :: l) = x +:+ sep +:+ String.concat sep l.
Proof. by destruct l. Qed.

Lemma formatDescription_empty desc cfg : formatDescription desc cfg = "" <-> desc = "".
Proof.
  unfold formatDescription.
  destruct (nonEmpty desc) eqn:Hd; simpl; [|by apply nonEmpty_false in Hd].
  apply nonEmpty_true in Hd.
  destruct (DescriptionConfig_Title cfg) as [title|]; [|done].
  destruct (nonEmpty (DescriptionTitleConfig_Value title)); [|done].
  split; [|done]. intros H. apply append_eq_empty in H as [_ H]. done.
Qed.

Lemma collectDescription_spec (description : option DescriptionConfig)
    (info : option Info) (mergedDescriptions : list string) :
  collectDescription description info mergedDescriptions
  = mergedDescriptions ++
    match description, info with
    | Some cfg, Some i =>
        if DescriptionConfig_Append cfg && nonEmpty (Info_Description i)
        then [formatDescription (Info_Description i) cfg]
        else []
    | _, _ => []
    end.
Proof.
  unfold collectDescription.
  destruct description as [cfg|]; [|by rewrite app_nil_r].
  destruct info as [i|]; [|by rewrite app_nil_r].
  destruct (DescriptionConfig_Append cfg); simpl; [|by rewrite app_nil_r].
  destruct (nonEmpty (Info_Description i)) eqn:Hd.
  - assert (Hf : nonEmpty (formatDescription (Info_Description i) cfg) = true).
    { apply nonEmpty_true. rewrite formatDescription_empty. by apply nonEmpty_true. }
    by rewrite Hf.
  - apply nonEmpty_false in Hd. rewrite Hd.
    assert (formatDescription "" cfg = "") as -> by reflexivity.
    simpl. by rewrite app_nil_r.
Qed.

(** X21. The description of the output.  Every input with a description
    configuration that asks for appending, an info section and a
    description that is not empty contributes its formatted description,
    in the order of the inputs; the other inputs contribute nothing.  The
    description of the output is the configured info description, if it
    is set, followed by the contributions, all joined with blank lines:
    the info override does not discard the descriptions of the inputs.
    Title and version are the configured ones when set, and
    [Merged API] and [1.0.0] otherwise. *)
Theorem X21_output_description (cfgInfo : option InfoConfig)
    (inputs : list (option DescriptionConfig * option Info)) :
  let mergedDescriptions :=
    foldl (fun acc x => collectDescription x.1 x.2 acc) [] inputs in
  let info := appendDescriptions mergedDescriptions
                (applyInfoOverride cfgInfo initialInfo) in
  let configured :=
    match cfgInfo with
    | Some c => if nonEmpty (InfoConfig_Description c)
                then [InfoConfig_Description c] else []
    | None => []
    end in
  mergedDescriptions
  = omap (fun x : option DescriptionConfig * option Info =>
            match x.1, x.2 with
            | Some cfg, Some i =>
                if DescriptionConfig_Append cfg && nonEmpty (Info_Description i)
                then Some (formatDescription (Info_Description i) cfg)
                else None
            | _, _ => None
            end) inputs /\
  Info_Description info
  = String.concat (newline +:+ newline) (configured ++ mergedDescriptions) /\
  Info_Title info
  = match cfgInfo with
    | Some c => if nonEmpty (InfoConfig_Title c) then InfoConfig_Title c
                else "Merged API"
    | None => "Merged API"
    end /\
  Info_Version info
  = match cfgInfo with
    | Some c => if nonEmpty (InfoConfig_Version c) then InfoConfig_Version c
                else "1.0.0"
    | None => "1.0.0"
    end.
Proof.
  intros mergedDescriptions info configured. split; [|split; [|split]].
  - subst mergedDescriptions.
    assert (Hgen : forall acc,
      foldl (fun acc (x : option DescriptionConfig * option Info) =>
               collectDescription x.1 x.2 acc) acc inputs
      = acc ++ omap (fun x : option DescriptionConfig * option Info =>
            match x.1, x.2 with
            | Some cfg, Some i =>
                if DescriptionConfig_Append cfg && nonEmpty (Info_Description i)
                then Some (formatDescription (Info_Description i) cfg)
                else None
            | _, _ => None
            end) inputs).
    { induction inputs as [|[d i] inputs IH]; intros acc; [by rewrite app_nil_r|].
      cbn [foldl]. rewrite IH, collectDescription_spec. cbn [fst snd omap list_omap].
      rewrite <- app_assoc. f_equal.
      destruct d as [cfg|]; [|done]. destruct i as [i|]; [|done].
      by destruct (DescriptionConfig_Append cfg && nonEmpty (Info_Description i)). }
    apply (Hgen []).
  - subst info configured. unfold appendDescriptions.
    destruct mergedDescriptions as [|d ds] eqn:Hm.
    + rewrite app_nil_r. destruct cfgInfo as [c|]; [|done]. simpl.
      by destruct (nonEmpty (InfoConfig_Description c)).
    + cbn [Info_Description]. destruct cfgInfo as [c|]; [|done].
      cbn [applyInfoOverride ToOpenAPI3Info Info_Description initialInfo].
      destruct (nonEmpty (InfoConfig_Description c)) eqn:Hc; [|reflexivity].
      rewrite Hc. cbn [app].
      rewrite (string_concat_cons _ (InfoConfig_Description c) (d :: ds)) by done.
      by rewrite !append_assoc.
  - subst info. unfold appendDescriptions.
    destruct mergedDescriptions; by destruct cfgInfo.
  - subst info. unfold appendDescriptions.
    destruct mergedDescriptions; by destruct cfgInfo.
Qed.

(** ** Validation of the configuration *)

Lemma validateInputs_ok (k : nat) (inputs : list InputConfig) :
  validateInputs k inputs = Ok tt <->
  forall input, input ∈ inputs -> InputFile input <> "".
Proof.
  revert k. induction inputs as [|x inputs IH]; intros k; simpl.
  - split; [|done]. by intros _ input ?%elem_of_nil.
  - destruct (nonEmpty (InputFile x)) eqn:Hx; simpl.
    + apply nonEmpty_true in Hx. rewrite IH. split.
      * intros H input [->|Hin]%elem_of_cons; [done|by apply H].
      * intros H input Hin. apply H. by right.
    + apply nonEmpty_false in Hx. split; [done|].
      intros H. destruct (H x); [by left|done].
Qed.

Lemma validateInputs_first (k i : nat) (inputs : list InputConfig) (input : InputConfig) :
  inputs !! i = Some input ->
  InputFile input = "" ->
  (forall j input', j < i -> inputs !! j = Some input' -> InputFile input' <> "") ->
  validateInputs k inputs
  = Err ("input[" +:+ pretty (k + i) +:+ "]: inputFile is required").
Proof.
  revert k i. induction inputs as [|x inputs IH]; intros k i Hi He Hbefore; [done|].
  destruct i as [|i]; simpl.
  - injection Hi as ->. rewrite He. simpl. by rewrite Nat.add_0_r.
  - assert (Hx : nonEmpty (InputFile x) = true).
    { apply nonEmpty_true. apply (Hbefore 0 x); [lia|done]. }
    rewrite Hx. simpl. rewrite (IH (S k) i); [|done|done|].
    + by rewrite Nat.add_succ_r.
    + intros j input' Hj Hl. apply (Hbefore (S j) input'); [lia|done].
Qed.

(** X22. [Validate] accepts a configuration exactly when it has at least
    one input, an output path, and an input file for every input.  The
    checks run in this order, so a configuration without inputs is
    reported as such whatever its output path is, and an input without
    file is reported with the index of the first such input, counted from
    zero. *)
Theorem X22_Validate_spec (inputs : list InputConfig) (output : string) :
  (Validate inputs output = Ok tt <->
   inputs <> [] /\ output <> "" /\
   forall input, input ∈ inputs -> InputFile input <> "") /\
  (inputs = [] ->
   Validate inputs output = Err "at least one input file is required") /\
  (inputs <> [] -> output = "" ->
   Validate inputs output = Err "output file path is required") /\
  (forall i input,
     output <> "" ->
     inputs !! i = Some input ->
     InputFile input = "" ->
     (forall j input', j < i -> inputs !! j = Some input' -> InputFile input' <> "") ->
     Validate inputs output
     = Err ("input[" +:+ pretty i +:+ "]: inputFile is required")).
Proof.
  unfold Validate. split; [|split; [|split]].
  - destruct inputs as [|x inputs]; [by split; [|intros [? _]]|].
    cbn [hasLen negb].
    destruct (nonEmpty output) eqn:Ho; cbn [negb].
    + apply nonEmpty_true in Ho. rewrite validateInputs_ok. by split; [|intros (_ & _ & ?)].
    + apply nonEmpty_false in Ho. split; [done|]. by intros (_ & ? & _).
  - by intros ->.
  - intros Hin ->. by destruct inputs.
  - intros i input Ho Hi He Hbefore.
    destruct inputs as [|x inputs]; [done|]. cbn [hasLen negb].
    apply nonEmpty_true in Ho. rewrite Ho. cbn [negb].
    by rewrite (validateInputs_first 0 i (x :: inputs) input).
Qed.

(** ** GitHub URLs *)

Lemma untilSlash_app (a rest : string) :
  noSlash a = true -> untilSlash (a +:+ "/" +:+ rest) = (a, "/" +:+ rest).
Proof.
  induction a as [|c a IH]; intros Ha; [reflexivity|].
  simpl in Ha. apply andb_true_iff in Ha as [Hc Ha].
  change (String c a +:+ "/" +:+ rest) with (String c (a +:+ "/" +:+ rest)).
  cbn [untilSlash]. apply negb_true_iff in Hc. rewrite Hc. by rewrite IH.
Qed.

Lemma matchGitHubURL_blob_tree (kind owner repo pathWithBranch : string) :
  noSlash owner = true -> owner <> "" ->
  noSlash repo = true -> repo <> "" ->
  noLinefeed pathWithBranch = true -> pathWithBranch <> "" ->
  matchGitHubURL kind
    ("https://github.com/" +:+ owner +:+ "/" +:+ repo +:+ "/" +:+ kind +:+ "/"
       +:+ pathWithBranch)
  = Some (owner, repo, pathWithBranch).
Proof.
  intros Ho Hoe Hr Hre Hp Hpe. unfold matchGitHubURL.
  rewrite HasPrefix_app, TrimPrefix_app.
  rewrite (untilSlash_app owner) by done. cbn [fst snd].
  rewrite (proj2 (nonEmpty_true owner)) by done.
  rewrite (HasPrefix_app "/"), (TrimPrefix_app "/").
  rewrite (untilSlash_app repo) by done. cbn [fst snd].
  rewrite (proj2 (nonEmpty_true repo)) by done.
  assert (E : "/" +:+ kind +:+ "/" +:+ pathWithBranch
              = ("/" +:+ kind +:+ "/") +:+ pathWithBranch).
  { by rewrite !append_assoc. }
  rewrite E, HasPrefix_app, TrimPrefix_app.
  rewrite (proj2 (nonEmpty_true pathWithBranch)) by done. by rewrite Hp.
Qed.

Lemma rawGitHubURL_no_match kind owner repo pathWithBranch :
  matchGitHubURL kind (rawGitHubURL owner repo pathWithBranch) = None.
Proof. reflexivity. Qed.

Lemma rawGitHubURL_isGitHubURL owner repo pathWithBranch :
  isGitHubURL (rawGitHubURL owner repo pathWithBranch) = true.
Proof.
  unfold isGitHubURL.
  assert (Contains (rawGitHubURL owner repo pathWithBranch) "githubusercontent.com"
          = true) as -> by reflexivity.
  by rewrite orb_true_r.
Qed.

(** X23. [convertGitHubURL] turns
    [https://github.com/<owner>/<repo>/blob/<path>] (and the same with
    [tree]) into [https://raw.githubusercontent.com/<owner>/<repo>/<path>]
    and leaves every other URL as it is.  Converting twice is converting
    once, and a URL that was converted is still a URL for which
    [fetchFromURL], which tests the converted URL, sends the GitHub
    token. *)
Theorem X23_convertGitHubURL_spec :
  (forall url, convertGitHubURL (convertGitHubURL url) = convertGitHubURL url) /\
  (forall url, convertGitHubURL url <> url ->
     isGitHubURL (convertGitHubURL url) = true /\ IsURL (convertGitHubURL url) = true) /\
  (forall url, HasPrefix url "https://github.com/" = false ->
     convertGitHubURL url = url) /\
  (forall owner repo pathWithBranch,
     noSlash owner = true -> owner <> "" ->
     noSlash repo = true -> repo <> "" ->
     noLinefeed pathWithBranch = true -> pathWithBranch <> "" ->
     convertGitHubURL ("https://github.com/" +:+ owner +:+ "/" +:+ repo +:+ "/blob/"
                         +:+ pathWithBranch)
     = "https://raw.githubusercontent.com/" +:+ owner +:+ "/" +:+ repo +:+ "/"
         +:+ pathWithBranch /\
     convertGitHubURL ("https://github.com/" +:+ owner +:+ "/" +:+ repo +:+ "/tree/"
                         +:+ pathWithBranch)
     = "https://raw.githubusercontent.com/" +:+ owner +:+ "/" +:+ repo +:+ "/"
         +:+ pathWithBranch).
Proof.
  assert (Hcases : forall url,
            convertGitHubURL url = url \/
            exists owner repo p, convertGitHubURL url = rawGitHubURL owner repo p).
  { intros url. unfold convertGitHubURL.
    destruct (matchGitHubURL "blob" url) as [[[o r] p]|]; [right; by exists o, r, p|].
    destruct (matchGitHubURL "tree" url) as [[[o r] p]|]; [right; by exists o, r, p|].
    by left. }
  split; [|split; [|split]].
  - intros url. destruct (Hcases url) as [E|(o & r & p & ->)]; [by rewrite !E|].
    unfold convertGitHubURL. by rewrite !rawGitHubURL_no_match.
  - intros url Hne. destruct (Hcases url) as [E|(o & r & p & ->)]; [done|].
    split; [apply rawGitHubURL_isGitHubURL|reflexivity].
  - intros url Hp. unfold convertGitHubURL, matchGitHubURL. by rewrite Hp.
  - intros owner repo p Ho Hoe Hr Hre Hp Hpe. split.
    + unfold convertGitHubURL.
      assert (Hm : matchGitHubURL "blob"
                     ("https://github.com/" +:+ owner +:+ "/" +:+ repo +:+ "/blob/" +:+ p)
                   = Some (owner, repo, p))
        by by apply (matchGitHubURL_blob_tree "blob").
      by rewrite Hm.
    + unfold convertGitHubURL.
      assert (Hb : matchGitHubURL "blob"
                     ("https://github.com/" +:+ owner +:+ "/" +:+ repo +:+ "/tree/" +:+ p)
                   = None).
      { unfold matchGitHubURL.
        rewrite HasPrefix_app, TrimPrefix_app.
        rewrite (untilSlash_app owner) by done. cbn [fst snd].
        rewrite (proj2 (nonEmpty_true owner)) by done.
        rewrite (HasPrefix_app "/"), (TrimPrefix_app "/").
        change ("/tree/" +:+ p) with ("/" +:+ "tree/" +:+ p).
        rewrite (untilSlash_app repo) by done. cbn [fst snd].
        rewrite (proj2 (nonEmpty_true repo)) by done. reflexivity. }
      rewrite Hb.
      assert (Hm : matchGitHubURL "tree"
                     ("https://github.com/" +:+ owner +:+ "/" +:+ repo +:+ "/tree/" +:+ p)
                   = Some (owner, repo, p))
        by by apply (matchGitHubURL_blob_tree "tree").
      by rewrite Hm.
Qed.

(** ** The stages together *)

Lemma classic_opAt p :
  (forall method, opAt method p = None) \/ exists method op, opAt method p = Some op.
Proof.
  destruct p as [a b c d e f g h ps].
  destruct a as [op|]; [right; by exists "GET", op|].
  destruct b as [op|]; [right; by exists "POST", op|].
  destruct c as [op|]; [right; by exists "PUT", op|].
  destruct d as [op|]; [right; by exists "DELETE", op|].
  destruct e as [op|]; [right; by exists "PATCH", op|].
  destruct f as [op|]; [right; by exists "HEAD", op|].
  destruct g as [op|]; [right; by exists "OPTIONS", op|].
  destruct h as [op|]; [right; by exists "TRACE", op|].
  left. by apply isPathItemEmpty_opAt.
Qed.

Lemma filterPathItem_nonempty sel path p :
  isPathItemEmpty (filterPathItem sel path p) = false <->
  exists method op,
    opAt method p = Some op /\ shouldIncludeOperation path method op sel = true.
Proof.
  split.
  - intros He.
    destruct (classic_opAt (filterPathItem sel path p)) as [Hall|(method & op & Hop)].
    + apply isPathItemEmpty_opAt in Hall. congruence.
    + exists method, op. rewrite filterPathItem_opAt in Hop. unfold keepOp in Hop.
      destruct (opAt method p) as [o|]; [|done].
      destruct (shouldIncludeOperation path method o sel) eqn:Hs; [|done].
      injection Hop as <-. done.
  - intros (method & op & Hop & Hs).
    destruct (isPathItemEmpty (filterPathItem sel path p)) eqn:He; [|done].
    rewrite isPathItemEmpty_opAt in He. specialize (He method).
    rewrite filterPathItem_opAt, Hop in He. unfold keepOp in He.
    by rewrite Hs in He.
Qed.

(** X24. The stages of a round in their order, for an input with an
    operation selection and a path modification and without dispute
    prefix: the document that reaches the merge has a path for exactly the
    rewritten keys of the paths of the loaded document that keep at least
    one operation, and the selection is decided on the keys as they are in
    the loaded document, before the rewriting (an [includePaths] or
    [excludePaths] pattern written for the rewritten key does not
    apply). *)
Theorem X24_processSpec_paths (fuel : nat) (spec : T) (input : InputConfig)
    (o : RoundOrders) (h : heap) (sel : OperationSelectionConfig)
    (mod_ : PathModificationConfig) (paths : gmap string PathItem) :
  hasDisputePrefix input = false ->
  OperationSelection input = Some sel ->
  PathModification input = Some mod_ ->
  T_Paths spec = Some paths ->
  range_of paths (order_filter o) ->
  (forall paths1,
     T_Paths (filterOperations spec input (order_filter o)) = Some paths1 ->
     range_of paths1 (order_modifyPaths o)) ->
  (forall paths2,
     T_Paths (modifyPaths (filterOperations spec input (order_filter o)) input
                (order_modifyPaths o)) = Some paths2 ->
     range_of paths2 (order_modifyParameters o)) ->
  exists spec' h' paths',
    processSpec fuel spec input o h = Some (spec', h') /\
    T_Paths spec' = Some paths' /\
    forall k,
      is_Some (paths' !! k) <->
      exists path p method op,
        paths !! path = Some p /\
        opAt method p = Some op /\
        shouldIncludeOperation path method op sel = true /\
        k = rewritePathKey mod_ path.
Proof.
  intros Hnd Hsel Hmod Hpaths Hr0 Hr1 Hr2.
  destruct (filterOperations_paths spec input sel paths (order_filter o) Hsel Hpaths Hr0)
    as (paths1 & E1 & Hl1).
  rewrite E1 in Hr1, Hr2. specialize (Hr1 paths1 eq_refl).
  assert (E2 : modifyPaths (set_Paths spec (Some paths1)) input (order_modifyPaths o)
               = set_Paths spec (Some (modifyPathsLoop mod_ (order_modifyPaths o)))).
  { unfold modifyPaths. by rewrite Hmod. }
  rewrite E2 in Hr2. specialize (Hr2 _ eq_refl).
  destruct (modifyParameters_lookup
              (set_Paths spec (Some (modifyPathsLoop mod_ (order_modifyPaths o))))
              input (order_modifyParameters o) h
              (modifyPathsLoop mod_ (order_modifyPaths o)) eq_refl Hr2)
    as (paths3 & E3 & _ & Hl3).
  exists (modifyParameters
            (set_Paths spec (Some (modifyPathsLoop mod_ (order_modifyPaths o))))
            input (order_modifyParameters o) h).1,
         (modifyParameters
            (set_Paths spec (Some (modifyPathsLoop mod_ (order_modifyPaths o))))
            input (order_modifyParameters o) h).2,
         paths3.
  split; [|split].
  - unfold processSpec. rewrite E1, E2.
    unfold hasDisputePrefix in Hnd.
    destruct (Dispute input) as [d|]; [|by destruct (modifyParameters _ _ _ _)].
    rewrite Hnd. by destruct (modifyParameters _ _ _ _).
  - by rewrite E3.
  - intros k.
    assert (H3 : is_Some (paths3 !! k)
                 <-> is_Some (modifyPathsLoop mod_ (order_modifyPaths o) !! k)).
    { specialize (Hl3 k).
      destruct (modifyPathsLoop mod_ (order_modifyPaths o) !! k) as [p|].
      - destruct Hl3 as [hi ->]. split; eauto.
      - rewrite Hl3. done. }
    rewrite H3, modifyPathsLoop_dom. split.
    + intros ([path p1] & Hin & <-). simpl.
      apply (range_of_elem _ _ _ _ Hr1) in Hin. rewrite Hl1 in Hin.
      destruct (paths !! path) as [p|] eqn:Hp; [|done]. simpl in Hin.
      unfold filteredEntry in Hin.
      destruct (isPathItemEmpty (filterPathItem sel path p)) eqn:He; [done|].
      apply filterPathItem_nonempty in He as (method & op & Hop & Hs).
      by exists path, p, method, op.
    + intros (path & p & method & op & Hp & Hop & Hs & ->).
      exists (path, filterPathItem sel path p). split; [|done].
      apply (range_of_elem _ _ _ _ Hr1). rewrite Hl1, Hp. simpl.
      unfold filteredEntry.
      assert (He : isPathItemEmpty (filterPathItem sel path p) = false).
      { apply filterPathItem_nonempty. by exists method, op. }
      by rewrite He.
Qed.

(** ** Merging into the new composite, and merging twice *)

Lemma noTemplatedMatch_covered (master docPaths : gmap string PathItem) :
  (forall key, is_Some (docPaths !! key) -> is_Some (master !! key)) ->
  noTemplatedMatch master docPaths.
Proof.
  intros Hcov m key Hsub _ Hkey Hnone. exfalso.
  apply Hcov, elem_of_dom, Hsub, elem_of_dom in Hkey.
  rewrite Hnone in Hkey. by destruct Hkey.
Qed.

Lemma mergeTags_covered (tags incoming : list Tag) :
  (forall t, t ∈ incoming -> Tag_Name t ∈ Tag_Name <$> tags) ->
  mergeTags tags incoming = tags.
Proof.
  induction incoming as [|t incoming IH]; intros H; [done|].
  rewrite mergeTags_cons.
  assert (Hh : hasTag tags (Tag_Name t) = true).
  { apply hasTag_iff. apply H. by left. }
  rewrite Hh. apply IH. intros t' Ht'. apply H. by right.
Qed.

Lemma mergeTags_fresh (tags incoming : list Tag) :
  NoDup (Tag_Name <$> incoming) ->
  (forall t, t ∈ incoming -> Tag_Name t ∉ Tag_Name <$> tags) ->
  mergeTags tags incoming = tags ++ incoming.
Proof.
  revert tags. induction incoming as [|t incoming IH]; intros tags Hnd Hnew.
  - by rewrite app_nil_r.
  - rewrite fmap_cons in Hnd. apply NoDup_cons in Hnd as [Ht Hnd].
    rewrite mergeTags_cons.
    assert (Hh : hasTag tags (Tag_Name t) = false).
    { apply not_true_is_false. intros Hh%hasTag_iff. apply (Hnew t); [by left|done]. }
    rewrite Hh, IH; [by rewrite <- app_assoc|done|].
    intros t' Ht'. rewrite fmap_app, elem_of_app. intros [Hin|Hin].
    + apply (Hnew t'); [by right|done].
    + rewrite fmap_cons in Hin. apply list_elem_of_singleton in Hin.
      apply Ht. rewrite <- Hin. apply list_elem_of_fmap. by exists t'.
Qed.

Lemma schemasEqual_refl h a : schemasEqual h a a = true.
Proof.
  unfold schemasEqual. destruct a as [l|]; [|done].
  destruct (nonEmpty (refAt h l) && nonEmpty (refAt h l)); apply String.eqb_refl.
Qed.

Lemma union_union_r {V} (m d : gmap string V) : (m ∪ d) ∪ d = m ∪ d.
Proof.
  apply map_eq. intros k. rewrite !lookup_union.
  by destruct (m !! k), (d !! k).
Qed.

(** X25. Merging the first document into the composite that [Merge]
    creates gives the document back: the composite has the paths and the
    components of the document, and its tags (the first of each name);
    this merge cannot fail, with or without dispute prefix.  This is for a
    document no key of which the templated search of [Paths.Find] resolves
    to another of its keys; two keys that the search takes for the same
    path would be merged into one. *)
Theorem X25_mergeSpec_into_initial (h : heap) (spec : T) (input : InputConfig)
    (pathOrder : list (string * PathItem)) (o : ComponentsOrder)
    (paths : gmap string PathItem) (comps : Components) :
  T_Paths spec = Some paths ->
  T_Components spec = Some comps ->
  range_of paths pathOrder ->
  range_of_components comps o ->
  noTemplatedMatch (master_Paths initialMaster) paths ->
  mergeSpec h initialMaster spec input pathOrder o
  = Ok (mkMaster paths comps (mergeTags [] (T_Tags spec))) /\
  (NoDup (Tag_Name <$> T_Tags spec) -> mergeTags [] (T_Tags spec) = T_Tags spec).
Proof.
  intros Hpaths Hcomps Hr Hrc Hno. split.
  - unfold mergeSpec. rewrite Hpaths, Hcomps.
    destruct (mergeComponents_spec h (master_Components initialMaster) input comps o Hrc)
      as [Herr Hok].
    destruct (mergeComponents h (master_Components initialMaster) input o)
      as [merged|e] eqn:Em.
    + destruct (Hok merged eq_refl)
        as (E1 & E2 & E3 & E4 & E5 & E6 & E7 & E8 & E9).
      f_equal. f_equal.
      * apply map_eq. intros k. rewrite (mergePaths_range _ paths) by done.
        by destruct (paths !! k).
      * cbn in E1, E2, E3, E4, E5, E6, E7, E8, E9.
        rewrite (left_id_L ∅ (∪)) in E1. rewrite (left_id_L ∅ (∪)) in E2.
        rewrite (left_id_L ∅ (∪)) in E3. rewrite (left_id_L ∅ (∪)) in E4.
        rewrite (left_id_L ∅ (∪)) in E5. rewrite (left_id_L ∅ (∪)) in E6.
        rewrite (left_id_L ∅ (∪)) in E7. rewrite (left_id_L ∅ (∪)) in E8.
        rewrite (left_id_L ∅ (∪)) in E9.
        destruct merged, comps.
        cbn in E1, E2, E3, E4, E5, E6, E7, E8, E9. congruence.
    + destruct (proj1 Herr) as [_ (name & e0 & s & He0 & _)]; [by eexists|].
      cbn in He0. by rewrite lookup_empty in He0.
  - intros Hnd. rewrite (mergeTags_fresh [] (T_Tags spec)); [done|done|].
    intros t _. rewrite fmap_nil. apply not_elem_of_nil.
Qed.

(** X26. Merging a document into the composite a second time changes
    nothing: when the merge of a document succeeds, merging the same
    document again succeeds and gives the same composite (a schema is
    equal to itself, a path item merged twice is the path item merged
    once, and no tag is added twice).  For documents whose path-level
    parameters all have a value, and none of whose keys is resolved by the
    templated search of [Paths.Find] in the first merge. *)
Theorem X26_mergeSpec_twice (h : heap) (master m1 : Master) (spec : T)
    (input : InputConfig) (pathOrder : list (string * PathItem))
    (o : ComponentsOrder) (paths : gmap string PathItem) (comps : Components) :
  T_Paths spec = Some paths ->
  T_Components spec = Some comps ->
  range_of paths pathOrder ->
  range_of_components comps o ->
  noTemplatedMatch (master_Paths master) paths ->
  (forall k p q, paths !! k = Some p -> q ∈ PathItem_Parameters p ->
                 is_Some (ParameterRef_Value q)) ->
  mergeSpec h master spec input pathOrder o = Ok m1 ->
  mergeSpec h m1 spec input pathOrder o = Ok m1.
Proof.
  intros Hpaths Hcomps Hr Hrc Hno Hval Hm.
  unfold mergeSpec in Hm |- *. rewrite Hpaths, Hcomps in Hm |- *.
  destruct (mergeComponents h (master_Components master) input o) as [c1|e] eqn:Ec1;
    [|done].
  injection Hm as <-.
  cbn [master_Paths master_Components master_Tags].
  destruct (mergeComponents_spec h (master_Components master) input comps o Hrc)
    as [Herr1 Hok1].
  destruct (Hok1 c1 Ec1) as (E1 & E2 & E3 & E4 & E5 & E6 & E7 & E8 & E9).
  destruct (mergeComponents_spec h c1 input comps o Hrc) as [Herr2 Hok2].
  destruct (mergeComponents h c1 input o) as [c2|e] eqn:Ec2.
  - destruct (Hok2 c2 eq_refl) as (F1 & F2 & F3 & F4 & F5 & F6 & F7 & F8 & F9).
    f_equal. f_equal.
    + assert (Hcov : noTemplatedMatch
                       (mergePaths (master_Paths master) pathOrder) paths).
      { apply noTemplatedMatch_covered. intros key [src Hsrc].
        rewrite (mergePaths_range _ paths) by done. by rewrite Hsrc. }
      apply map_eq. intros k.
      rewrite (mergePaths_range _ paths pathOrder k Hr Hcov).
      rewrite (mergePaths_range _ paths pathOrder k Hr Hno).
      destruct (paths !! k) as [src|] eqn:Hk; [|done]. f_equal.
      destruct (master_Paths master !! k) as [dest|]; simpl.
      * apply mergePathItem_twice. intros q. by apply (Hval k src).
      * apply mergePathItem_self. intros q. by apply (Hval k src).
    + rewrite E1 in F1. rewrite E2 in F2. rewrite E3 in F3. rewrite E4 in F4.
      rewrite E5 in F5. rewrite E6 in F6. rewrite E7 in F7. rewrite E8 in F8.
      rewrite E9 in F9.
      rewrite union_union_r in F1. rewrite union_union_r in F2.
      rewrite union_union_r in F3. rewrite union_union_r in F4.
      rewrite union_union_r in F5. rewrite union_union_r in F6.
      rewrite union_union_r in F7. rewrite union_union_r in F8.
      rewrite union_union_r in F9.
      destruct c1, c2.
      cbn in E1, E2, E3, E4, E5, E6, E7, E8, E9, F1, F2, F3, F4, F5, F6, F7, F8, F9.
      congruence.
    + destruct (mergeTags_spec (master_Tags master) (T_Tags spec))
        as (added & E & _ & _ & _ & Hall & _).
      apply mergeTags_covered. intros t Ht. rewrite E. by apply Hall.
  - exfalso. destruct (proj1 Herr2) as [Hnd (name & e0 & s & He0 & Hs & Hneq)];
      [by eexists|].
    rewrite E1 in He0. apply lookup_union_Some_raw in He0 as [He0|[Hnone He0]].
    + assert (Hex : exists e', mergeComponents h (master_Components master) input o
                               = Err e').
      { apply Herr1. split; [done|]. by exists name, e0, s. }
      destruct Hex as [e' He']. congruence.
    + assert (e0 = s) by congruence. subst e0.
      by rewrite schemasEqual_refl in Hneq.
Qed.

End Merger.

(** * The theorems at concrete documents *)

Lemma C1_witness :
  T_Components userPetSpec = Some userPetComponents /\
  range_of_components userPetComponents (orderOf userPetComponents) /\
  exists name,
    mergeSpec noMarshal noTemplated refHeap userPetMaster userPetSpec plainInput []
      (orderOf userPetComponents)
    = Err (collisionError name).
Proof.
  split; [reflexivity|]. split; [apply range_of_orderOf|].
  destruct (C1_schema_collision noMarshal noTemplated refHeap userPetMaster userPetSpec
              plainInput userPetComponents [] (orderOf userPetComponents)
              eq_refl (range_of_orderOf _)) as (Hfail & _ & _).
  destruct Hfail as (pre & name & schema & post & _ & _ & _ & Hm & _).
  - reflexivity.
  - exists "User", (Some 1), (Some 2). repeat split; reflexivity.
  - by exists name.
Defined.

(** C1 as stated fails on the code.  [Pet] comes with a definition equal to
    the composite's, yet the merge of the document fails, because [User]
    differs: an equal schema does not make the merge succeed.  And when
    both [User] and [Pet] differ, the error names the one the loop meets
    first and not the other. *)
Lemma C1_counterexample :
  schemasEqual noMarshal refHeap (Some 3) (Some 4) = true /\
  (forall o, range_of_components userPetComponents o ->
     mergeSpec noMarshal noTemplated refHeap userPetMaster userPetSpec plainInput [] o
     = Err (collisionError "User")) /\
  schemasEqual noMarshal refHeap (Some 1) (Some 2) = false /\
  schemasEqual noMarshal refHeap (Some 3) (Some 2) = false /\
  mergeSpec noMarshal noTemplated refHeap userPetMaster bothDifferSpec plainInput []
    (mkComponentsOrder [("User", Some 2); ("Pet", Some 2)] [] [] [] [] [] [] [] [])
  = Err (collisionError "User") /\
  mergeSpec noMarshal noTemplated refHeap userPetMaster bothDifferSpec plainInput []
    (mkComponentsOrder [("Pet", Some 2); ("User", Some 2)] [] [] [] [] [] [] [] [])
  = Err (collisionError "Pet") /\
  collisionError "User" <> collisionError "Pet".
Proof.
  split; [reflexivity|]. split; [|repeat split; try reflexivity; discriminate].
  intros [os ? ? ? ? ? ? ? ?] (Hs & _). unfold range_of in Hs.
  cbn [order_Schemas] in Hs. vm_compute in Hs. symmetry in Hs.
  unfold mergeSpec, mergeComponents. cbn [order_Schemas].
  apply Permutation_length_2_inv in Hs as [-> | ->]; reflexivity.
Qed.

Lemma C3_witness :
  range_of usersPaths [("/users", itemGet (opTagged "list"))] /\
  mergePathStep templatedSearch (master_Paths usersPostMaster)
    ("/users", itemGet (opTagged "list"))
  = <["/users" := mergePathItem (itemPost (opTagged "create"))
                    (itemGet (opTagged "list"))]> (master_Paths usersPostMaster).
Proof.
  assert (Hrange : range_of usersPaths [("/users", itemGet (opTagged "list"))]).
  { unfold range_of, usersPaths. by rewrite map_to_list_singleton. }
  split; [exact Hrange|].
  apply (C3_mergePathItem_union noMarshal templatedSearch
           (master_Paths usersPostMaster) usersPaths
           [("/users", itemGet (opTagged "list"))] "/users"
           (itemPost (opTagged "create")) (itemGet (opTagged "list"))).
  - exact Hrange.
  - reflexivity.
  - reflexivity.
Defined.

Lemma C4_witness :
  PathModification (inputOf (Some stripV1) None) = Some stripV1 /\
  range_of twoUsersPaths (map_to_list twoUsersPaths) /\
  exists newPaths,
    T_Paths (modifyPaths twoUsersSpec (inputOf (Some stripV1) None)
               (map_to_list twoUsersPaths)) = Some newPaths /\
    forall k, is_Some (newPaths !! k) <->
              exists path, is_Some (twoUsersPaths !! path)
                           /\ k = rewritePathKey stripV1 path.
Proof.
  split; [reflexivity|]. split; [apply range_of_map_to_list|].
  apply (C4_modifyPaths_rewrites_keys twoUsersSpec (inputOf (Some stripV1) None)
           stripV1 twoUsersPaths (map_to_list twoUsersPaths)).
  - reflexivity.
  - reflexivity.
  - apply range_of_map_to_list.
Defined.

Lemma C5_witness :
  exists paths',
    T_Paths (filterOperations asciiEqualFold noGlob adminSpec adminInput
               (map_to_list adminPaths)) = Some paths' /\
    (forall k p, paths' !! k = Some p -> isPathItemEmpty p = false) /\
    paths' !! "/admin" = None.
Proof.
  destruct (C5_filterOperations_drops_empty_paths asciiEqualFold noGlob adminSpec
              adminInput excludeAdmin adminPaths (map_to_list adminPaths)
              eq_refl eq_refl (range_of_map_to_list _))
    as (paths' & E & Hne & Hdel & _).
  exists paths'. split; [exact E|]. split; [exact Hne|].
  apply (Hdel "/admin" (itemGet (opTagged "Admin"))); reflexivity.
Defined.


Lemma C8_witness :
  filterOperations asciiEqualFold noGlob
    (filterOperations asciiEqualFold noGlob adminSpec adminInput (map_to_list adminPaths))
    adminInput [("/users", itemGet (opTagged "Users"))]
  = filterOperations asciiEqualFold noGlob adminSpec adminInput (map_to_list adminPaths).
Proof.
  apply (C8_filterOperations_idempotent asciiEqualFold noGlob adminSpec adminInput
           (map_to_list adminPaths) [("/users", itemGet (opTagged "Users"))]).
  - intros paths E. injection E as <-. apply range_of_map_to_list.
  - intros paths' E. vm_compute in E. injection E as <-.
    unfold range_of. vm_compute. reflexivity.
Defined.

Lemma C9_witness :
  acyclic petsHeap /\ size petsHeap < 4 /\
  exists h', updateSchemaRefRefs 4 ∅ (Some 1) petsHeap = Some h'.
Proof.
  assert (Hacyc : acyclic petsHeap).
  { apply (rankedb_acyclic petsHeap (fun l => 10 - l)). reflexivity. }
  assert (Hsize : size petsHeap < 4) by (vm_compute; lia).
  split; [exact Hacyc|]. split; [exact Hsize|].
  apply (C9_updateSchemaRefRefs_termination petsHeap ∅ (Some 1) 4 Hacyc Hsize).
Defined.

Lemma opAt_itemGet method o op : opAt method (itemGet o) = Some op -> op = o.
Proof.
  unfold opAt, itemGet. cbn [PathItem_Get PathItem_Post PathItem_Put PathItem_Delete
    PathItem_Patch PathItem_Head PathItem_Options PathItem_Trace].
  repeat (destruct (String.eqb method _); [congruence|]). done.
Qed.

Lemma withoutCallbacks_itemSpec : withoutCallbacks itemSpec.
Proof.
  split.
  - intros paths k p method op E Hk Hop. injection E as <-.
    unfold itemPaths in Hk. apply lookup_singleton_Some in Hk as [_ <-].
    by apply opAt_itemGet in Hop as ->.
  - intros c E. by injection E as <-.
Qed.

Lemma Permutation_length_3_inv {A} (a b c : A) (l : list A) :
  l ≡ₚ [a; b; c] ->
  l = [a; b; c] \/ l = [a; c; b] \/ l = [b; a; c] \/
  l = [b; c; a] \/ l = [c; a; b] \/ l = [c; b; a].
Proof.
  intros H. apply Permutation_cons_inv_r in H as (k1 & k2 & -> & H).
  apply Permutation_length_2_inv in H as [H|H];
    destruct k1 as [|x [|y [|z k1]]]; simplify_eq/=; tauto.
Qed.

(** C2 (the code does not do what the claim says).  The document has the
    schemas [B], [AB] and [C] and is given the prefix [A]; the objects 4
    and 6 are references to [B], object 4 being a property of [C] that is
    reached twice, from the component [C] and from the response of [/c]
    that the loader resolved to the value of [C].  After
    [applyDisputePrefix], for every order of its loops, the schema [B] is
    stored as [AB] and the old [AB] as [AAB]; object 6, visited once,
    refers to [AB]; object 4, visited twice, refers to [AAB], the old
    [AB]: its first visit made it [#/components/schemas/AB], which is a key
    of the rename map, and its second visit rewrote that. *)
Theorem C2_applyDisputePrefix_rewrites_twice :
  (SchemaRef_Ref <$> chainHeap !! 4) = Some "#/components/schemas/B" /\
  (SchemaRef_Ref <$> chainHeap !! 6) = Some "#/components/schemas/B" /\
  Components_Schemas chainComponents !! "B" = Some (Some 1) /\
  Components_Schemas chainComponents !! "AB" = Some (Some 2) /\
  chainRenames !! "#/components/schemas/B" = Some "#/components/schemas/AB" /\
  chainRenames !! "#/components/schemas/AB" = Some "#/components/schemas/AAB" /\
  (forall renameOrder pathOrder refsOrder,
     range_of_components chainComponents renameOrder ->
     pathsRange chainSpec pathOrder ->
     range_of_components (prefixedComponents "A" chainComponents) refsOrder ->
     exists spec' h',
       applyDisputePrefix 10 chainSpec "A" renameOrder pathOrder refsOrder chainHeap
       = Some (spec', h') /\
       (Components_Schemas <$> T_Components spec') = Some chainPrefixedSchemas /\
       chainPrefixedSchemas !! "AB" = Some (Some 1) /\
       chainPrefixedSchemas !! "AAB" = Some (Some 2) /\
       (SchemaRef_Ref <$> h' !! 6) = Some "#/components/schemas/AB" /\
       (SchemaRef_Ref <$> h' !! 4) = Some "#/components/schemas/AAB").
Proof.
  do 6 (split; [reflexivity|]).
  intros [os1 or1 op1 oss1 orb1 oe1 oh1 ol1 oc1] pathOrder
         [os2 or2 op2 oss2 orb2 oe2 oh2 ol2 oc2]
         (Hs1 & Hr1 & Hp1 & Hss1 & Hrb1 & He1 & Hh1 & Hl1 & Hc1) Hpath
         (Hs2 & Hr2 & Hp2 & Hss2 & Hrb2 & He2 & Hh2 & Hl2 & Hc2).
  unfold range_of in *. unfold pathsRange, range_of in Hpath.
  cbn in Hs1, Hr1, Hp1, Hss1, Hrb1, He1, Hh1, Hl1, Hc1, Hpath.
  cbn in Hs2, Hr2, Hp2, Hss2, Hrb2, He2, Hh2, Hl2, Hc2.
  vm_compute in Hr1, Hp1, Hss1, Hrb1, He1, Hh1, Hl1, Hc1.
  vm_compute in Hr2, Hp2, Hss2, Hrb2, He2, Hh2, Hl2, Hc2.
  apply Permutation_nil_r in Hr1, Hp1, Hss1, Hrb1, He1, Hh1, Hl1, Hc1.
  apply Permutation_nil_r in Hr2, Hp2, Hss2, Hrb2, He2, Hh2, Hl2, Hc2.
  subst.
  vm_compute in Hpath. apply Permutation_singleton_r in Hpath. subst pathOrder.
  vm_compute in Hs1, Hs2.
  apply Permutation_length_3_inv in Hs1, Hs2.
  destruct Hs1 as [->|[->|[->|[->|[->| ->]]]]];
    destruct Hs2 as [->|[->|[->|[->|[->| ->]]]]];
    (eexists _, _; split; [vm_compute; reflexivity|]; repeat split; reflexivity).
Qed.

(** * The further properties at concrete documents *)

Lemma X2_witness :
  exists paths',
    T_Paths (filterOperations asciiEqualFold noGlob adminSpec adminPathInput
               (map_to_list adminPaths)) = Some paths' /\
    paths' !! "/admin" = None.
Proof.
  destruct (X2_exclude_exact_path asciiEqualFold noGlob adminSpec adminPathInput
              excludeAdminPath adminPaths (map_to_list adminPaths) "/admin"
              eq_refl eq_refl (range_of_map_to_list _))
    as (paths' & E & Hnone & _).
  - apply list_elem_of_singleton. reflexivity.
  - exists paths'. by split.
Defined.

Lemma X3_witness :
  exists paths',
    filterOperations asciiEqualFold noGlob adminSpec adminInput (map_to_list adminPaths)
    = set_Paths adminSpec (Some paths') /\
    forall p', paths' !! "/admin" = Some p' ->
      exists p, adminPaths !! "/admin" = Some p /\
                PathItem_Parameters p' = PathItem_Parameters p.
Proof.
  destruct (X3_filterOperations_only_removes asciiEqualFold noGlob adminSpec adminInput
              excludeAdmin adminPaths (map_to_list adminPaths)
              eq_refl eq_refl (range_of_map_to_list _))
    as (paths' & E & Hin & _).
  exists paths'. split; [exact E|].
  intros p' Hp'. destruct (Hin "/admin" p' Hp') as (p & Hp & Hparams & _).
  exists p. by split.
Defined.

Lemma X4_witness :
  filterOperations asciiEqualFold noGlob adminSpec adminInput
    [("/users", itemGet (opTagged "Users")); ("/admin", itemGet (opTagged "Admin"))]
  = filterOperations asciiEqualFold noGlob adminSpec adminInput
      [("/admin", itemGet (opTagged "Admin")); ("/users", itemGet (opTagged "Users"))].
Proof.
  assert (H1 : range_of adminPaths
                 [("/users", itemGet (opTagged "Users"));
                  ("/admin", itemGet (opTagged "Admin"))]).
  { unfold range_of. vm_compute. reflexivity. }
  assert (H2 : range_of adminPaths
                 [("/admin", itemGet (opTagged "Admin"));
                  ("/users", itemGet (opTagged "Users"))]).
  { unfold range_of. vm_compute. apply Permutation_swap. }
  apply (X4_filterOperations_order_independent asciiEqualFold noGlob adminSpec adminInput
           adminPaths _ _ eq_refl H1 H2).
Defined.

Lemma X5_witness :
  HasPrefix "/users" "/" = true.
Proof.
  apply (X5_modifyPaths_keys_start_with_slash twoUsersSpec
           (inputOf (Some stripV1) None) stripV1
           [("/v1/users", itemGet (opTagged "v1"))] twoUsersPaths
           {[ "/users" := itemGet (opTagged "v1") ]} eq_refl eq_refl).
  - reflexivity.
  - rewrite lookup_singleton_eq. by eexists.
Defined.

Lemma X6_witness :
  exists newPaths,
    T_Paths (modifyPaths usersGetSpec (inputOf (Some prependApi) None)
               (map_to_list usersPaths)) = Some newPaths /\
    newPaths !! "/api/users" = Some (itemGet (opTagged "list")).
Proof.
  destruct (X6_modifyPaths_injective_keeps_all usersGetSpec
              (inputOf (Some prependApi) None) prependApi usersPaths
              (map_to_list usersPaths) eq_refl eq_refl (range_of_map_to_list _))
    as (newPaths & E & Hlk & _).
  - intros p q [x Hp] [y Hq] _. unfold usersPaths in Hp, Hq.
    apply lookup_singleton_Some in Hp as [<- _].
    by apply lookup_singleton_Some in Hq as [<- _].
  - exists newPaths. split; [exact E|].
    apply (Hlk "/users" (itemGet (opTagged "list"))). reflexivity.
Defined.

Lemma X7_witness :
  modifyPaths
    (modifyPaths usersGetSpec (inputOf (Some prependApi) None)
       [("/users", itemGet (opTagged "list"))])
    (inputOf (Some stripApi) None) [("/api/users", itemGet (opTagged "list"))]
  = usersGetSpec.
Proof.
  apply (X7_prepend_then_strip usersGetSpec (inputOf (Some prependApi) None)
           (inputOf (Some stripApi) None) "/api" usersPaths
           [("/users", itemGet (opTagged "list"))]
           [("/api/users", itemGet (opTagged "list"))]).
  - reflexivity.
  - reflexivity.
  - reflexivity.
  - reflexivity.
  - intros k [v Hk]. unfold usersPaths in Hk.
    by apply lookup_singleton_Some in Hk as [<- _].
  - unfold range_of, usersPaths. by rewrite map_to_list_singleton.
  - intros paths1 E. vm_compute in E. injection E as <-.
    unfold range_of. vm_compute. reflexivity.
Defined.

Lemma X8_witness :
  applyBasePath "/api/" usersPaths (map_to_list usersPaths) !! "/api/users"
  = Some (itemGet (opTagged "list")).
Proof.
  destruct (X8_applyBasePath_keeps_all "/api/" usersPaths (map_to_list usersPaths)
              (range_of_map_to_list _)) as (_ & Hlk & _).
  apply (Hlk "/users").
Defined.

Lemma X10_witness :
  exists paths',
    (modifyParameters itemsSpec tenantInput (map_to_list itemsPaths) ∅).1
    = set_Paths itemsSpec (Some paths') /\
    forall k, is_Some (paths' !! k) <-> is_Some (itemsPaths !! k).
Proof.
  destruct (X10_modifyParameters_leaves_rest itemsSpec tenantInput
              (map_to_list itemsPaths) ∅ itemsPaths eq_refl (range_of_map_to_list _))
    as (paths' & E & _ & Hdom & _).
  exists paths'. by split.
Defined.

Lemma X11_witness :
  let once := (modifyParameters itemsSpec tenantInput (map_to_list itemsPaths) ∅).1 in
  let order2 := match T_Paths once with
                | Some paths1 => map_to_list paths1
                | None => []
                end in
  (modifyParameters once tenantInput order2 ∅).1 = once.
Proof.
  intros once order2.
  apply (X11_modifyParameters_idempotent itemsSpec tenantInput
           (map_to_list itemsPaths) order2 ∅ ∅ itemsPaths eq_refl
           (range_of_map_to_list _)).
  intros paths1 E. subst order2. fold once in E. rewrite E.
  apply range_of_map_to_list.
Defined.

Lemma X13_witness :
  exists e,
    mergeComponents noMarshal refHeap (master_Components userPetMaster) plainInput
      (orderOf userPetComponents) = Err e.
Proof.
  destruct (X13_mergeComponents_kinds noMarshal refHeap
              (master_Components userPetMaster) plainInput userPetComponents
              (orderOf userPetComponents) (range_of_orderOf _)) as [Herr _].
  apply Herr. split; [reflexivity|].
  exists "User", (Some 1), (Some 2). repeat split; reflexivity.
Defined.

Lemma X14_witness :
  NoDup (Tag_Name <$> mergeTags usersPetsTags petsOrdersTags).
Proof.
  destruct (X14_mergeTags_first_wins usersPetsTags petsOrdersTags) as [Hnd _].
  - apply (bool_decide_unpack _). vm_compute. exact I.
  - exact Hnd.
Defined.

Lemma noTemplatedMatch_userById :
  noTemplatedMatch templatedSearch (master_Paths usersPostMaster) userByIdPaths.
Proof.
  intros m key Hsub Hsup Hkey Hnone.
  assert (Hm : forall k, is_Some (m !! k) -> k = "/users" \/ k = "/users/{id}").
  { intros k Hk%elem_of_dom. apply Hsup in Hk.
    apply elem_of_union in Hk as [Hk|Hk]; apply elem_of_dom in Hk as [v Hk].
    - unfold usersPostMaster in Hk. cbn [master_Paths] in Hk.
      apply lookup_singleton_Some in Hk as [<- _]. by left.
    - unfold userByIdPaths in Hk.
      apply lookup_insert_Some in Hk as [[<- _]|[_ Hk]]; [by left|].
      apply lookup_singleton_Some in Hk as [<- _]. by right. }
  assert (Husers : is_Some (m !! "/users")).
  { apply elem_of_dom, Hsub, elem_of_dom. by eexists. }
  assert (key = "/users/{id}") as ->.
  { destruct Hkey as [v Hkey]. unfold userByIdPaths in Hkey.
    apply lookup_insert_Some in Hkey as [[<- _]|[_ Hkey]].
    - rewrite Hnone in Husers. by destruct Husers.
    - by apply lookup_singleton_Some in Hkey as [<- _]. }
  unfold templatedSearch. apply fmap_None, list_find_None, list.Forall_forall.
  intros k Hk%list_elem_of_fmap. destruct Hk as ([k' v] & -> & Hk).
  apply elem_of_map_to_list in Hk. simpl.
  destruct (Hm k') as [->| ->]; [by eexists|discriminate|].
  rewrite Hnone in Hk. discriminate.
Qed.

Lemma X15_witness :
  mergePaths templatedSearch (master_Paths usersPostMaster) (map_to_list userByIdPaths)
    !! "/users"
  = Some (mergePathItem (itemPost (opTagged "create")) (itemGet (opTagged "list"))) /\
  mergePaths templatedSearch (master_Paths usersPostMaster) (map_to_list userByIdPaths)
    !! "/users/{id}"
  = Some (itemGet (opTagged "get")).
Proof.
  destruct (X15_mergePaths_lookup templatedSearch (master_Paths usersPostMaster)
              userByIdPaths (map_to_list userByIdPaths)) as (Hlk & _).
  - apply range_of_map_to_list.
  - apply noTemplatedMatch_userById.
  - split; [apply (Hlk "/users")|apply (Hlk "/users/{id}")].
Defined.

Lemma X16_witness :
  master_Tags (sortOutput petsFirst taggedMaster) ≡ₚ master_Tags taggedMaster.
Proof.
  destruct (X16_sortTags_rearranges petsFirst taggedMaster) as (Hperm & _).
  - apply (bool_decide_unpack _). vm_compute. exact I.
  - exact Hperm.
Defined.

Lemma X17_witness :
  applyDisputePrefix 0 twoUsersSpec "API2_" emptyOrder [] emptyOrder treeHeap
  = Some (twoUsersSpec, treeHeap).
Proof.
  apply (X17_applyDisputePrefix_nothing_to_rename 0 twoUsersSpec "API2_" emptyOrder []
           emptyOrder treeHeap).
  left. reflexivity.
Defined.

Lemma X18_witness :
  exists spec' h',
    applyDisputePrefix 4 itemSpec "API2_" (orderOf itemComponents)
      (map_to_list itemPaths) (orderOf (prefixedComponents "API2_" itemComponents))
      itemHeap
    = Some (spec', h') /\
    T_Tags spec' = [].
Proof.
  assert (Hacyc : acyclic itemHeap).
  { apply (rankedb_acyclic itemHeap (fun l => if l =? 2 then 0 else 1)). reflexivity. }
  assert (Hsize : size itemHeap < 4) by (vm_compute; lia).
  destruct (X18_applyDisputePrefix_writes_component_refs 4 itemSpec "API2_"
              itemComponents (orderOf itemComponents) (map_to_list itemPaths)
              (orderOf (prefixedComponents "API2_" itemComponents)) itemHeap
              eq_refl withoutCallbacks_itemSpec (range_of_orderOf _)
              (range_of_map_to_list _) (range_of_orderOf _) Hacyc Hsize)
    as (spec' & h' & E & Htags & _).
  exists spec', h'. by split.
Defined.

Lemma X24_witness :
  exists spec' h' paths',
    processSpec asciiEqualFold noGlob 0 adminSpec adminStripInput adminRound ∅
    = Some (spec', h') /\
    T_Paths spec' = Some paths' /\
    is_Some (paths' !! "/users").
Proof.
  destruct (X24_processSpec_paths asciiEqualFold noGlob 0 adminSpec adminStripInput
              adminRound ∅ excludeAdmin stripV1 adminPaths
              eq_refl eq_refl eq_refl eq_refl (range_of_map_to_list _))
    as (spec' & h' & paths' & E & Hp & Hkeys).
  - intros paths1 E. vm_compute in E. injection E as <-.
    unfold range_of. vm_compute. reflexivity.
  - intros paths2 E. vm_compute in E. injection E as <-.
    unfold range_of. vm_compute. reflexivity.
  - exists spec', h', paths'. split; [exact E|]. split; [exact Hp|].
    apply Hkeys.
    exists "/users", (itemGet (opTagged "Users")), "GET", (opTagged "Users").
    repeat split; reflexivity.
Defined.

Lemma noTemplatedMatch_first (docPaths : gmap string PathItem) :
  (forall k k', is_Some (docPaths !! k) -> is_Some (docPaths !! k') -> k <> k' ->
                eraseVariables false k <> eraseVariables false k') ->
  noTemplatedMatch templatedSearch ∅ docPaths.
Proof.
  intros Hdiff m key _ Hsup Hkey Hnone.
  unfold templatedSearch. apply fmap_None, list_find_None, list.Forall_forall.
  intros k Hk%list_elem_of_fmap. destruct Hk as ([k' v] & -> & Hk).
  apply elem_of_map_to_list in Hk. simpl. apply Hdiff; [|done|].
  - assert (Hin : k' ∈ dom m) by (apply elem_of_dom; by eexists).
    apply Hsup in Hin. rewrite dom_empty, (left_id_L ∅ (∪)) in Hin.
    by apply elem_of_dom.
  - intros ->. congruence.
Qed.

Lemma X25_witness :
  mergeSpec noMarshal templatedSearch ∅ initialMaster userByIdSpec plainInput
    (map_to_list userByIdPaths) emptyOrder
  = Ok (mkMaster userByIdPaths emptyComponents []).
Proof.
  destruct (X25_mergeSpec_into_initial noMarshal templatedSearch ∅ userByIdSpec
              plainInput (map_to_list userByIdPaths) emptyOrder
              userByIdPaths emptyComponents eq_refl eq_refl (range_of_map_to_list _))
    as [E _].
  - repeat split; unfold range_of; cbn; by rewrite map_to_list_empty.
  - apply noTemplatedMatch_first.
    intros k k' [v Hk] [v' Hk'] Hne. unfold userByIdPaths in Hk, Hk'.
    apply lookup_insert_Some in Hk as [[<- _]|[_ Hk]];
      apply lookup_insert_Some in Hk' as [[<- _]|[_ Hk']]; try done.
    + apply lookup_singleton_Some in Hk' as [<- _]. discriminate.
    + apply lookup_singleton_Some in Hk as [<- _]. discriminate.
    + apply lookup_singleton_Some in Hk as [<- _].
      by apply lookup_singleton_Some in Hk' as [<- _].
  - exact E.
Defined.

Lemma X26_witness :
  mergeSpec noMarshal templatedSearch itemHeap itemMaster itemSpec plainInput
    (map_to_list itemPaths) (orderOf itemComponents)
  = Ok itemMaster.
Proof.
  apply (X26_mergeSpec_twice noMarshal templatedSearch itemHeap initialMaster itemMaster
           itemSpec plainInput (map_to_list itemPaths) (orderOf itemComponents)
           itemPaths itemComponents eq_refl eq_refl (range_of_map_to_list _)
           (range_of_orderOf _)).
  - apply noTemplatedMatch_first.
    intros k k' [v Hk] [v' Hk'] Hne. unfold itemPaths in Hk, Hk'.
    apply lookup_singleton_Some in Hk as [<- _].
    by apply lookup_singleton_Some in Hk' as [<- _].
  - intros k p q Hk. unfold itemPaths in Hk.
    apply lookup_singleton_Some in Hk as [_ <-].
    simpl. by intros ?%elem_of_nil.
  - vm_compute. reflexivity.
Defined.

Lemma X27_witness :
  acyclic itemHeap /\
  noPrefixedNames "API2_" itemComponents /\
  exists h',
    applyDisputePrefix 4 itemSpec "API2_" (orderOf itemComponents)
      (map_to_list itemPaths) (orderOf (prefixedComponents "API2_" itemComponents))
      itemHeap
    = Some (rewriteSpec (renameComponents "API2_" itemComponents
                           (orderOf itemComponents)).2
              (set_Components itemSpec
                 (Some (prefixedComponents "API2_" itemComponents))), h') /\
    h' !! 3 = Some (mkSchemaRef "#/components/schemas/API2_Item" (Some itemSchema)).
Proof.
  assert (Hacyc : acyclic itemHeap).
  { apply (rankedb_acyclic itemHeap (fun l => if l =? 2 then 0 else 1)). reflexivity. }
  assert (Hnames : noPrefixedNames "API2_" itemComponents).
  { apply noPrefixedNamesb_sound. reflexivity. }
  assert (Hsize : size itemHeap < 4) by (vm_compute; lia).
  split; [exact Hacyc|]. split; [exact Hnames|].
  destruct (X27_applyDisputePrefix_rewrites_refs 4 itemSpec "API2_" itemComponents
              (orderOf itemComponents) (map_to_list itemPaths)
              (orderOf (prefixedComponents "API2_" itemComponents)) itemHeap
              eq_refl withoutCallbacks_itemSpec (range_of_orderOf _)
              (range_of_map_to_list _) (range_of_orderOf _) Hacyc Hsize Hnames)
    as (h' & E & Hheap & _).
  exists h'. split; [exact E|].
  destruct (Hheap 3 (mkSchemaRef "#/components/schemas/Item" (Some itemSchema)) eq_refl)
    as [Hreach _].
  rewrite Hreach; [reflexivity|].
  exists 3. split; [|apply rtc_refl].
  apply list_elem_of_In. vm_compute. auto.
Defined.
